(** * Emitter: a listener registry with a channel router (src/index.js)

    A shallow embedding of the publish/subscribe registry [Emitter] and of
    the exported channel router, followed by the properties of the
    specification that are settled against it.

    Conventions of the embedding.
    - JavaScript values are the inductive [value]; [truthy] is ToBoolean and
      Leibniz equality on [value] is [===] (objects and functions carry an
      identity, numbers are integers, so NaN does not occur).
    - Every bucket is a JavaScript array living in a heap ([arrays]); the
      event table of an emitter maps an event name to the address of its
      array, so that the aliasing between the table and the array a running
      dispatch iterates over is explicit.
    - The event table and the channel table are plain objects used as
      maps: a name that such a table does not hold is looked up in
      [Object.prototype], whose members are listed in [object_prototype],
      and what the program then does with the inherited value is part of
      the embedding.
    - Listener callbacks are user functions [FUser k], whose body is a
      script of calls into the API that may depend on [this], on the
      arguments and on the current state, or the wrappers [FOnce w] that
      [once] builds with lodash's [_.once]; that wrapper is a function in
      sloppy mode, which gets a primitive [this] boxed.
    - Calls that run callbacks take fuel; running out of fuel is the
      outcome [Fuel] and is never confused with a normal return.
    - Outside the embedding: names that are neither [undefined], a string
      nor an event map; strings with code units above 255; callbacks that
      catch exceptions or write to [_events] directly. *)

From Stdlib Require Import Ascii.
From stdpp Require Import gmap strings list fin_maps pretty.

Set Default Proof Using "Type".

(* ===================================================================== *)
(** ** Values *)
(* ===================================================================== *)

Inductive fn :=
  | FUser (k : nat)          (* a function written by the caller *)
  | FOnce (w : nat).         (* the wrapper built by [once], by identity *)

(** The primitives that have a wrapper object. *)
Inductive prim :=
  | PBool (b : bool)
  | PNum (z : Z)
  | PStr (s : string).

Inductive value :=
  | VUndef
  | VNull
  | VBool (b : bool)
  | VNum (z : Z)
  | VStr (s : string)
  | VFn (f : fn)
  | VObj (o : nat)           (* an object of the caller, by identity *)
  | VEm (o : nat)            (* an emitter object, by identity *)
  | VBus                     (* the exported router object *)
  | VBox (i : nat) (p : prim)  (* the wrapper object of a primitive, by identity *)
  | VGlobal.                 (* the global object *)

Global Instance fn_eq_dec : EqDecision fn.
Proof. solve_decision. Defined.
Global Instance prim_eq_dec : EqDecision prim.
Proof. solve_decision. Defined.
Global Instance value_eq_dec : EqDecision value.
Proof. solve_decision. Defined.

(** ToBoolean. *)
Definition truthy (v : value) : bool :=
  match v with
  | VUndef | VNull => false
  | VBool b => b
  | VNum z => negb (Z.eqb z 0)
  | VStr s => negb (String.eqb s "")
  | VFn _ | VObj _ | VEm _ | VBus | VBox _ _ | VGlobal => true
  end.

(** [_.isString]: a string or a [String] object. *)
Definition isString (v : value) : bool :=
  match v with VStr _ | VBox _ (PStr _) => true | _ => false end.

(** The [this] that a function in sloppy mode gets when it is called on
    [v]: the global object for [undefined] and [null], a new wrapper
    object, here the [i]-th, for a primitive, and [v] itself otherwise. *)
Definition box (i : nat) (v : value) : value :=
  match v with
  | VUndef | VNull => VGlobal
  | VBool b => VBox i (PBool b)
  | VNum z => VBox i (PNum z)
  | VStr s => VBox i (PStr s)
  | _ => v
  end.

(** The [name] argument of the registry methods: omitted, a string, or an
    event map (an object literal, with its own enumerable properties in
    enumeration order). *)
Inductive ename :=
  | NAbsent
  | NStr (n : string)
  | NMap (m : list (string * value)).

Definition name_truthy (name : ename) : bool :=
  match name with
  | NAbsent => false
  | NStr n => negb (String.eqb n "")
  | NMap _ => true
  end.

(** The property key a name is coerced to in [this._events[name]]. *)
Definition key_of (name : ename) : string :=
  match name with
  | NAbsent => "undefined"
  | NStr n => n
  | NMap _ => "[object Object]"
  end.

(** The name as it appears in [arguments]; [NAbsent] stands for an
    explicit [undefined]. An event map never reaches the place where this
    is used. *)
Definition name_value (name : ename) : value :=
  match name with
  | NAbsent => VUndef
  | NStr n => VStr n
  | NMap _ => VUndef
  end.

(** [args[i]], [undefined] past the end. *)
Definition arg (i : nat) (args : list value) : value := default VUndef (args !! i).

(* ===================================================================== *)
(** ** Strings: the two splitters *)
(* ===================================================================== *)

(** The characters matched by [\s] among the code units below 256. *)
Definition is_space (a : ascii) : bool :=
  let n := nat_of_ascii a in
  (n =? 9) || (n =? 10) || (n =? 11) || (n =? 12) || (n =? 13) || (n =? 32) || (n =? 160).

(** [eventSplitter.test(name)] with [eventSplitter = /\s+/]. *)
Fixpoint has_space (s : string) : bool :=
  match s with
  | EmptyString => false
  | String a s' => is_space a || has_space s'
  end.

(** [name.split(/\s+/)]: the pieces between maximal runs of white space,
    the empty piece before a leading run and after a trailing run included.
    [acc] is the piece being read, [in_ws] tells that the previous
    character was white space. *)
Fixpoint split_ws_go (s acc : string) (in_ws : bool) : list string :=
  match s with
  | EmptyString => [acc]
  | String a s' =>
      if is_space a then
        if in_ws then split_ws_go s' "" true
        else acc :: split_ws_go s' "" true
      else split_ws_go s' (acc +:+ String a "") false
  end.

Definition split_ws (s : string) : list string := split_ws_go s "" false.

(** [re.test(name)] for a one-character pattern such as [/:/]. *)
Fixpoint has_char (c : ascii) (s : string) : bool :=
  match s with
  | EmptyString => false
  | String a s' => bool_decide (a = c) || has_char c s'
  end.

(** [name.split(c)] for a one-character separator: a cut at every
    occurrence. *)
Fixpoint split_char_go (c : ascii) (s acc : string) : list string :=
  match s with
  | EmptyString => [acc]
  | String a s' =>
      if bool_decide (a = c) then acc :: split_char_go c s' ""
      else split_char_go c s' (acc +:+ String a "")
  end.

Definition split_char (c : ascii) (s : string) : list string := split_char_go c s "".

(** The character of [ChannelSplitter = /:/] and the one of [split('@')]. *)
Definition colon : ascii := ":"%char.
Definition at_sign : ascii := "@"%char.

(* ===================================================================== *)
(** ** Object.prototype *)
(* ===================================================================== *)

(** The members of [Object.prototype], which an object literal inherits,
    each with its [length]: the number of parameters for a function, none
    for [__proto__], which reads as [Object.prototype] itself. Every one
    of them is truthy and differs from [undefined]; none has an element
    [0], a [push], an [on], an [off] or a [trigger]. *)
Definition object_prototype : list (string * option nat) :=
  [("constructor", Some 1); ("hasOwnProperty", Some 1); ("isPrototypeOf", Some 1);
   ("propertyIsEnumerable", Some 1); ("toLocaleString", Some 0); ("toString", Some 0);
   ("valueOf", Some 0); ("__defineGetter__", Some 2); ("__defineSetter__", Some 2);
   ("__lookupGetter__", Some 1); ("__lookupSetter__", Some 1); ("__proto__", None)].

(** The [length] of the member of [Object.prototype] named [k], if there
    is such a member. *)
Definition inherited (k : string) : option (option nat) :=
  (list_to_map object_prototype : gmap string (option nat)) !! k.

(** Whether a loop [for (i = 0; i < events.length; i++)] over the member
    named [k] reads [events[0]], which is [undefined]. *)
Definition inherited_nonempty (k : string) : bool :=
  match inherited k with
  | Some (Some (S _)) => true
  | _ => false
  end.

(* ===================================================================== *)
(** ** The state *)
(* ===================================================================== *)

(** A listener record, [{callback, context, ctx, id}]. *)
Record listener := Listener {
  callback : value;
  context : value;
  ctx : value;
  id : string
}.

(** An emitter object: [_events] maps an event name to the address of its
    array, [_listeningTo] maps a listen id to the emitter listened to. *)
Record emitter := Emitter {
  _events : option (gmap string nat);
  _listeningTo : option (gmap string nat);
  _listenId : option string
}.

Definition new_emitter : emitter := Emitter None None None.

(** The closure built by [once]: the variables it captures and the counter
    of [_.once], reduced to whether the wrapper was already called. *)
Record once_closure := OnceClosure {
  once_self : nat;
  once_name : ename;
  once_callback : value;
  once_called : bool
}.

(** What the log records: a user function entered with its [this] and its
    arguments, and a [once] wrapper handing a call to its original. *)
Inductive event :=
  | Invoke (k : nat) (this : value) (args : list value)
  | Fire (w : nat) (this : value) (args : list value).

Global Instance event_eq_dec : EqDecision event.
Proof. solve_decision. Defined.

Record state := State {
  objs : gmap nat emitter;            (* emitter objects, by identity *)
  arrays : gmap nat (list listener);  (* the arrays of listener records *)
  maxHashId : N;                      (* the module variable [maxHashId] *)
  onces : gmap nat once_closure;      (* the wrappers built by [once] *)
  idCounter : N;                      (* the counter of [_.uniqueId] *)
  channels : gmap string nat;         (* the router's [channels] *)
  calls : list event                  (* the log, oldest first *)
}.

(** The state when the module is loaded. Integers are exact in JavaScript
    below 2^53, far beyond the number of registrations of a process. *)
Definition init : state := State ∅ ∅ 1000 ∅ 0 ∅ [].

Definition set_objs (f : gmap nat emitter → gmap nat emitter) (s : state) : state :=
  State (f (objs s)) (arrays s) (maxHashId s) (onces s) (idCounter s) (channels s) (calls s).
Definition set_arrays (f : gmap nat (list listener) → gmap nat (list listener)) (s : state) : state :=
  State (objs s) (f (arrays s)) (maxHashId s) (onces s) (idCounter s) (channels s) (calls s).
Definition set_maxHashId (f : N → N) (s : state) : state :=
  State (objs s) (arrays s) (f (maxHashId s)) (onces s) (idCounter s) (channels s) (calls s).
Definition set_onces (f : gmap nat once_closure → gmap nat once_closure) (s : state) : state :=
  State (objs s) (arrays s) (maxHashId s) (f (onces s)) (idCounter s) (channels s) (calls s).
Definition set_idCounter (f : N → N) (s : state) : state :=
  State (objs s) (arrays s) (maxHashId s) (onces s) (f (idCounter s)) (channels s) (calls s).
Definition set_channels (f : gmap string nat → gmap string nat) (s : state) : state :=
  State (objs s) (arrays s) (maxHashId s) (onces s) (idCounter s) (f (channels s)) (calls s).
Definition set_calls (f : list event → list event) (s : state) : state :=
  State (objs s) (arrays s) (maxHashId s) (onces s) (idCounter s) (channels s) (f (calls s)).

(** An emitter object that was never written to has none of the three
    properties. *)
Definition get_obj (s : state) (o : nat) : emitter := default new_emitter (objs s !! o).

Definition set_events (o : nat) (ev : option (gmap string nat)) (s : state) : state :=
  let em := get_obj s o in
  set_objs <[o := Emitter ev (_listeningTo em) (_listenId em)]> s.
Definition set_listeningTo (o : nat) (lt : option (gmap string nat)) (s : state) : state :=
  let em := get_obj s o in
  set_objs <[o := Emitter (_events em) lt (_listenId em)]> s.
Definition set_listenId (o : nat) (i : option string) (s : state) : state :=
  let em := get_obj s o in
  set_objs <[o := Emitter (_events em) (_listeningTo em) i]> s.

(** The array at an address; reading a missing array gives no element. *)
Definition array_at (s : state) (a : nat) : list listener := default [] (arrays s !! a).

(** [this._events[e]] for the emitter [o]: the address of the array of the
    bucket of [e], if the table exists and has one. *)
Definition addr (s : state) (o : nat) (e : string) : option nat :=
  _events (get_obj s o) ≫= (.!! e).

(** The records of the bucket of [e] in the emitter [o], none when the
    table or the bucket is missing. *)
Definition bucket (s : state) (o : nat) (e : string) : list listener :=
  match addr s o e with
  | Some a => array_at s a
  | None => []
  end.

(* ===================================================================== *)
(** ** Outcomes *)
(* ===================================================================== *)

(** What is thrown: a [TypeError] of the engine (calling a value that is
    not a function, reading a property of [undefined]) or a value thrown by
    a [throw] statement. *)
Inductive exn :=
  | TypeError
  | Thrown (v : value).

(** A call returns a result and the state it leaves, or throws in some
    state, or runs out of fuel. *)
Inductive outcome (A : Type) :=
  | Ret (a : A) (s : state)
  | Exn (e : exn) (s : state)
  | Fuel.
Arguments Ret {A} a s.
Arguments Exn {A} e s.
Arguments Fuel {A}.

Definition bind {A B} (m : outcome A) (f : A → state → outcome B) : outcome B :=
  match m with
  | Ret a s => f a s
  | Exn e s => Exn e s
  | Fuel => Fuel
  end.

(** A call whose result is dropped. *)
Definition ignore {A} (m : outcome A) : outcome () := bind m (λ _ s, Ret () s).

(** A loop whose body may throw: the turns run in order until one does not
    return. *)
Fixpoint each {X} (f : X → state → outcome ()) (l : list X) (s : state) : outcome () :=
  match l with
  | [] => Ret () s
  | x :: l' => bind (f x s) (λ _ s', each f l' s')
  end.

(** A callback invoker: the callee, its [this], its arguments. *)
Abbreviation invoker := (value → value → list value → state → outcome ()).

(** A list of invocations performed one after the other, stopping at the
    first that does not return. *)
Fixpoint invoke_all (callf : invoker) (l : list (value * value * list value)) (s : state)
  : outcome () :=
  match l with
  | [] => Ret () s
  | (f, this, args) :: l' => bind (callf f this args s) (λ _ s', invoke_all callf l' s')
  end.

(* ===================================================================== *)
(** ** eventsApi *)
(* ===================================================================== *)

(** [eventsApi(obj, action, name, rest)] either answers [true] (here
    [None]: the caller handles the name itself) or applies [obj[action]] to
    a list of rewritten argument lists and answers [false] (here [Some] of
    those calls, each a name and the arguments after it, in order). *)
Definition eventsApi (name : ename) (rest : list value) : option (list (ename * list value)) :=
  match name with
  | NAbsent => None
  | NStr n =>
      if String.eqb n "" then None
      else if has_space n then Some ((λ p, (NStr p, rest)) <$> split_ws n)
      else None
  | NMap m => Some ((λ kv, (NStr kv.1, kv.2 :: rest)) <$> m)
  end.

(* ===================================================================== *)
(** ** The registry: on, once, off *)
(* ===================================================================== *)

(** The handle returned by [on]: [off] closes over [self], [name] and
    [hashKey]. *)
Record handle := Handle {
  h_id : string;
  h_name : ename;
  h_self : nat
}.

Definition hash_key (n : N) : string := "#" +:+ pretty n.

(** Lines 13-24 of [on] when [this._events[name]] is an array of the
    table or is [undefined]: the array is created if need be and the
    record pushed. *)
Definition on_own (o : nat) (name : ename) (cb cx : value) (s : state)
  : state * handle :=
  let tbl := default ∅ (_events (get_obj s o)) in
  let k := key_of name in
  let '(a, s1) :=
    match tbl !! k with
    | Some a => (a, set_events o (Some tbl) s)
    | None =>
        let a := fresh (dom (arrays s)) in
        (a, set_events o (Some (<[k := a]> tbl)) (set_arrays <[a := []]> s))
    end in
  let hashKey := hash_key (maxHashId s1) in
  let s2 := set_maxHashId N.succ s1 in
  let r := Listener cb cx (if truthy cx then cx else VEm o) hashKey in
  (set_arrays <[a := array_at s2 a ++ [r]]> s2, Handle hashKey name o).

(** What [on] leaves when [events.push] throws: the table exists and the
    counter was incremented (lines 13 and 15). *)
Definition on_fail (o : nat) (s : state) : state :=
  set_maxHashId N.succ (set_events o (Some (default ∅ (_events (get_obj s o)))) s).

(** The body of [on] once [eventsApi] has answered [true] and the callback
    is truthy (lines 13-24). When the table holds no array under the name
    and [Object.prototype] has a member of that name, [events] is that
    member, which is truthy, and [events.push] is not a function. *)
Definition on_body (o : nat) (name : ename) (cb cx : value) (s : state)
  : outcome handle :=
  match addr s o (key_of name), inherited (key_of name) with
  | None, Some _ => Exn TypeError (on_fail o s)
  | _, _ => let '(s', h) := on_own o name cb cx s in Ret h s'
  end.

(** [on]; [k] bounds the depth of the calls made through [eventsApi]
    (an event map, then a list of names, then a single name). The result
    is the handle, or [None] when [this] is returned. A call that throws
    inside [eventsApi] ends its loop. *)
Fixpoint on_n (k : nat) (o : nat) (name : ename) (cb cx : value) (s : state)
  : outcome (option handle) :=
  match k with
  | 0 => Ret None s
  | S k' =>
      match eventsApi name [cb; cx] with
      | Some plan =>
          bind (each (λ c s, ignore (on_n k' o c.1 (arg 0 c.2) (arg 1 c.2) s)) plan s)
               (λ _ s', Ret None s')
      | None =>
          if truthy cb then bind (on_body o name cb cx s) (λ h s', Ret (Some h) s')
          else Ret None s
      end
  end.

Definition on := on_n 3.

(** Which records [off] keeps (lines 79-88). [event.callback._callback] is
    the original of a [once] wrapper and [undefined] otherwise. *)
Definition _callback (s : state) (f : value) : value :=
  match f with
  | VFn (FOnce w) =>
      match onces s !! w with
      | Some c => once_callback c
      | None => VUndef
      end
  | _ => VUndef
  end.

Definition off_keeps (s : state) (cb cx : value) (ev : listener) : bool :=
  if isString cb then bool_decide (cb ≠ VStr (id ev))
  else
    (truthy cb && bool_decide (cb ≠ callback ev)
       && bool_decide (cb ≠ _callback s (callback ev)))
    || (truthy cx && bool_decide (cx ≠ context ev)).

Definition delete_bucket (o : nat) (e : string) (s : state) : state :=
  match _events (get_obj s o) with
  | None => s
  | Some tbl => set_events o (Some (delete e tbl)) s
  end.

(** One turn of the loop over [names] (lines 63-96) when [events] is an
    array of the table or is [undefined]. *)
Definition off_own (o : nat) (cb cx : value) (s : state) (e : string) : state :=
  match _events (get_obj s o) with
  | None => s
  | Some tbl =>
      match tbl !! e with
      | None => s
      | Some a =>
          if negb (truthy cb) && negb (truthy cx) then delete_bucket o e s
          else
            let remaining := filter (λ ev, off_keeps s cb cx ev = true) (array_at s a) in
            match remaining with
            | [] => delete_bucket o e s
            | _ :: _ =>
                let a' := fresh (dom (arrays s)) in
                set_events o (Some (<[e := a']> tbl)) (set_arrays <[a' := remaining]> s)
            end
      end
  end.

(** [_.keys(this._events)]. The turns of the loop for different names do
    not interfere, so the order of the keys does not show in the buckets. *)
Definition event_names (s : state) (o : nat) : list string :=
  match _events (get_obj s o) with
  | None => []
  | Some tbl => (map_to_list tbl).*1
  end.

(** One turn of the loop over [names] (lines 63-96). When the table holds
    no array under the name and [Object.prototype] has a member of that
    name, [events] is that member: without callback and context the
    [delete] does nothing; otherwise the loop over [events] reads
    [events[0]], which is [undefined], when [events.length] is at least 1,
    and then a property of it ([off_throws]), and with no turn nothing
    remains and the [delete] does nothing. *)
Definition off_throws (s : state) (o : nat) (cb cx : value) (e : string) : bool :=
  bool_decide (addr s o e = None) && inherited_nonempty e && (truthy cb || truthy cx).

Definition off_name (o : nat) (cb cx : value) (e : string) (s : state) : outcome () :=
  if off_throws s o cb cx e then Exn TypeError s
  else Ret () (off_own o cb cx s e).

(** [off]; the names of the loop are read before its first turn. *)
Fixpoint off_n (k : nat) (o : nat) (name : ename) (cb cx : value) (s : state)
  : outcome () :=
  match k with
  | 0 => Ret () s
  | S k' =>
      match _events (get_obj s o) with
      | None => Ret () s
      | Some _ =>
          match eventsApi name [cb; cx] with
          | Some plan => each (λ c, off_n k' o c.1 (arg 0 c.2) (arg 1 c.2)) plan s
          | None =>
              if negb (name_truthy name) && negb (truthy cb) && negb (truthy cx)
              then Ret () (set_events o None s)
              else
                let names := if name_truthy name then [key_of name] else event_names s o in
                each (off_name o cb cx) names s
          end
      end
  end.

Definition off := off_n 3.

(** [handle.off()]: [self.off(name, hashKey)]. *)
Definition handle_off (h : handle) (s : state) : outcome () :=
  off (h_self h) (h_name h) (VStr (h_id h)) VUndef s.

(** [once] (lines 34-43): the wrapper is a fresh function [FOnce w] whose
    closure is recorded in [onces]; it is then registered with [on]. *)
Fixpoint once_n (k : nat) (o : nat) (name : ename) (cb cx : value) (s : state)
  : outcome (option handle) :=
  match k with
  | 0 => Ret None s
  | S k' =>
      match eventsApi name [cb; cx] with
      | Some plan =>
          bind (each (λ c s, ignore (once_n k' o c.1 (arg 0 c.2) (arg 1 c.2) s)) plan s)
               (λ _ s', Ret None s')
      | None =>
          if truthy cb then
            let w := fresh (dom (onces s)) in
            let s1 := set_onces <[w := OnceClosure o name cb false]> s in
            on o name (VFn (FOnce w)) cx s1
          else Ret None s
      end
  end.

Definition once := once_n 3.

(* ===================================================================== *)
(** ** The registry: trigger *)
(* ===================================================================== *)

(** The loop of [triggerEvents] (lines 183-205): [a] is the array
    [events], [i] the index and [n] the number of turns left, that is
    [l - i] for the length [l] read once before the loop; [events[i]] is
    read from the heap at every turn. The six cases of the [switch] pass
    the same arguments. *)
Fixpoint dispatch (callf : invoker) (a : nat) (args : list value) (i n : nat) (s : state)
  : outcome () :=
  match n with
  | 0 => Ret () s
  | S n' =>
      match arrays s !! a ≫= (.!! i) with
      | None => Exn TypeError s
      | Some ev =>
          bind (callf (callback ev) (ctx ev) args s)
               (λ _ s', dispatch callf a args (S i) n' s')
      end
  end.

Definition triggerEvents (callf : invoker) (a : nat) (args : list value) (s : state)
  : outcome () :=
  dispatch callf a args 0 (length (array_at s a)) s.

(** [if (events) triggerEvents(events, args)] (line 113). When the table
    holds no array under the key, [events] is [undefined] or the member of
    [Object.prototype] of that name; the loop over such a member reads
    [events[0].callback] when its [length] is at least 1. *)
Definition trigger_events (callf : invoker) (tbl : gmap string nat) (k : string)
    (args : list value) (s : state) : outcome () :=
  match tbl !! k with
  | Some a => triggerEvents callf a args s
  | None => if inherited_nonempty k then Exn TypeError s else Ret () s
  end.

(** [trigger(name, ...args)] (lines 107-116), called with one argument at
    least; [k] bounds the depth through [eventsApi] as in [on_n]. Both
    arrays are looked up before the first dispatch. *)
Fixpoint trigger_n (k : nat) (callf : invoker) (o : nat) (name : ename) (args : list value)
    (s : state) : outcome () :=
  match k with
  | 0 => Ret () s
  | S k' =>
      match _events (get_obj s o) with
      | None => Ret () s
      | Some tbl =>
          match eventsApi name args with
          | Some plan => each (λ c, trigger_n k' callf o c.1 c.2) plan s
          | None =>
              let allEvents := tbl !! "all" in
              bind (trigger_events callf tbl (key_of name) args s)
                   (λ _ s1,
                      match allEvents with
                      | Some a => triggerEvents callf a (name_value name :: args) s1
                      | None => Ret () s1
                      end)
          end
      end
  end.

Definition trigger := trigger_n 3.

(** [trigger()] without any argument: the name is [undefined] and both
    dispatches pass no argument, [arguments] being empty. *)
Definition trigger0 (callf : invoker) (o : nat) (s : state) : outcome () :=
  match _events (get_obj s o) with
  | None => Ret () s
  | Some tbl =>
      let allEvents := tbl !! "all" in
      bind (trigger_events callf tbl "undefined" [] s)
           (λ _ s1,
              match allEvents with
              | Some a => triggerEvents callf a [] s1
              | None => Ret () s1
              end)
  end.

(* ===================================================================== *)
(** ** The registry: listenTo, listenToOnce, stopListening *)
(* ===================================================================== *)

Definition isMap (name : ename) : bool :=
  match name with NMap _ => true | _ => false end.

(** The common body of [listenTo] and [listenToOnce] (lines 213-220);
    [impl] is [on] or [once]. *)
Definition listen
    (impl : nat → ename → value → value → state → outcome (option handle))
    (o src : nat) (name : ename) (cb : value) (s : state) : outcome () :=
  let lt := default ∅ (_listeningTo (get_obj s o)) in
  let s1 := set_listeningTo o (Some lt) s in
  let '(lid, s2) :=
    match _listenId (get_obj s1 src) with
    | Some i => (i, s1)
    | None =>
        let i := "l" +:+ pretty (N.succ (idCounter s1)) in
        (i, set_listenId src (Some i) (set_idCounter N.succ s1))
    end in
  let s3 := set_listeningTo o (Some (<[lid := src]> lt)) s2 in
  let cb' := if negb (truthy cb) && isMap name then VEm o else cb in
  ignore (impl src name cb' (VEm o) s3).

Definition listenTo := listen on.
Definition listenToOnce := listen once.

(** [_.isEmpty(obj._events)]. *)
Definition events_empty (s : state) (o : nat) : bool :=
  match _events (get_obj s o) with
  | None => true
  | Some tbl => bool_decide (tbl = ∅)
  end.

(** One turn of the loop of [stopListening] (lines 131-135). *)
Definition stop_one (o : nat) (remove : bool) (name : ename) (cb : value)
    (entry : string * nat) (s : state) : outcome () :=
  bind (off entry.2 name cb (VEm o) s)
       (λ _ s1,
          Ret () (if remove || events_empty s1 entry.2 then
                    match _listeningTo (get_obj s1 o) with
                    | Some lt => set_listeningTo o (Some (delete entry.1 lt)) s1
                    | None => s1
                    end
                  else s1)).

(** [stopListening] (lines 125-137); [src] is the optional [obj]. The
    order of the turns shows only when one of them throws. *)
Definition stopListening (o : nat) (src : option nat) (name : ename) (cb : value)
    (s : state) : outcome () :=
  match _listeningTo (get_obj s o) with
  | None => Ret () s
  | Some lt =>
      let remove := negb (name_truthy name) && negb (truthy cb) in
      let cb' := if negb (truthy cb) && isMap name then VEm o else cb in
      let entries :=
        match src with
        | Some x => [(default "undefined" (_listenId (get_obj s x)), x)]
        | None => map_to_list lt
        end in
      each (stop_one o remove name cb') entries s
  end.

(* ===================================================================== *)
(** ** The channel router *)
(* ===================================================================== *)

(** The argument of [addChannel] and [removeChannel]. *)
Inductive chname :=
  | ChUndef
  | ChNull
  | ChStr (n : string).

(** [name == '' || name == void 0 || name == null]. *)
Definition no_channel_name (name : chname) : bool :=
  match name with
  | ChUndef | ChNull => true
  | ChStr n => String.eqb n ""
  end.

Definition chkey (name : chname) : string :=
  match name with
  | ChUndef => "undefined"
  | ChNull => "null"
  | ChStr n => n
  end.

Definition DefaultChannel : string := "global".

(** [this.channels[name]]: the registry of a channel of the table, or a
    member of [Object.prototype], or [undefined]. *)
Inductive chan_slot :=
  | ChanRegistry (o : nat)
  | ChanInherited
  | ChanMissing.

Definition channel_at (s : state) (c : string) : chan_slot :=
  match channels s !! c with
  | Some o => ChanRegistry o
  | None =>
      match inherited c with
      | Some _ => ChanInherited
      | None => ChanMissing
      end
  end.

(** [addChannel] (lines 234-242): a channel is created when
    [this.channels[name] == void 0]. *)
Definition addChannel (name : chname) (s : state) : outcome () :=
  if no_channel_name name then Exn (Thrown (VStr "Cant add undefined channel")) s
  else
    match channel_at s (chkey name) with
    | ChanMissing =>
        let o := fresh (dom (objs s)) in
        Ret () (set_channels <[chkey name := o]> (set_objs <[o := new_emitter]> s))
    | ChanRegistry _ | ChanInherited => Ret () s
    end.

(** [removeChannel] (lines 247-259); the result is [true] for the router
    itself and [false] for [false]. A member of [Object.prototype] is not
    [undefined] and has no [off]. *)
Definition removeChannel (name : chname) (s : state) : outcome bool :=
  if no_channel_name name then Exn (Thrown (VStr "Cant remove undefined or main channel")) s
  else
    match channel_at s (chkey name) with
    | ChanRegistry o =>
        bind (off o NAbsent VUndef VUndef s)
             (λ _ s1, Ret true (set_channels (delete (chkey name)) s1))
    | ChanInherited => Exn TypeError s
    | ChanMissing => Ret false s
    end.

(** The channel and the event name that [on], [once], [off] and [emit]
    read from a compound name (lines 268-273 and their three copies). *)
Definition resolve (name : string) : string * ename :=
  if has_char colon name then
    (default "" (split_char colon name !! 0),
     match split_char colon name !! 1 with
     | Some e => NStr e
     | None => NAbsent
     end)
  else (DefaultChannel, NStr name).

(** The router's [on] and [once] (lines 267-292); [impl] is the method of
    the channel's registry. A member of [Object.prototype] has no [on] and
    no [once]. *)
Definition bus_register
    (impl : nat → ename → value → value → state → outcome (option handle))
    (name : string) (cb cx : value) (s : state) : outcome (option handle) :=
  let cx' := if truthy cx then cx else VBus in
  let '(channel, name') := resolve name in
  bind (addChannel (ChStr channel) s)
       (λ _ s1,
          match channel_at s1 channel with
          | ChanRegistry o => impl o name' cb cx' s1
          | ChanInherited | ChanMissing => Exn TypeError s1
          end).

Definition bus_on := bus_register on.
Definition bus_once := bus_register once.

(** The router's [off] (lines 298-324). [_.each] visits the channels of
    the table, not the members of [Object.prototype]; the order of its
    turns shows only when one of them throws. A member of
    [Object.prototype] is truthy and has no [off]. *)
Definition bus_off (name : option string) (cb : value) (s : state) : outcome () :=
  match name with
  | None =>
      each (λ i s, ignore (removeChannel (ChStr i) s)) (map_to_list (channels s)).*1 s
  | Some name =>
      if bool_decide (String.get 0 name = Some at_sign) then
        match split_char at_sign name !! 1 with
        | Some channel =>
            match channel_at s channel with
            | ChanRegistry _ | ChanInherited => ignore (removeChannel (ChStr channel) s)
            | ChanMissing => Ret () s
            end
        | None => Ret () s
        end
      else
        let '(channel, name') := resolve name in
        match channel_at s channel with
        | ChanRegistry o =>
            if truthy cb then off o name' cb VUndef s
            else off o name' VUndef VUndef s
        | ChanInherited => Exn TypeError s
        | ChanMissing => Ret () s
        end
  end.

(** The router's [emit] (lines 330-342). A member of [Object.prototype]
    is not [undefined] and has no [trigger]. *)
Definition emit (callf : invoker) (name : string) (args : list value) (s : state)
  : outcome () :=
  let '(channel, name') := resolve name in
  match channel_at s channel with
  | ChanRegistry o => trigger callf o name' args s
  | ChanInherited => Exn TypeError s
  | ChanMissing => Ret () s
  end.

(* ===================================================================== *)
(** ** Callbacks *)
(* ===================================================================== *)

(** The calls a user function or the caller of the library can make. *)
Inductive stmt :=
  | SOn (o : nat) (name : ename) (cb cx : value)
  | SOnce (o : nat) (name : ename) (cb cx : value)
  | SOff (o : nat) (name : ename) (cb cx : value)
  | STrigger (o : nat) (name : ename) (args : list value)
  | STrigger0 (o : nat)
  | SListenTo (o src : nat) (name : ename) (cb : value)
  | SListenToOnce (o src : nat) (name : ename) (cb : value)
  | SStopListening (o : nat) (src : option nat) (name : ename) (cb : value)
  | SHandleOff (h : handle)
  | SAddChannel (name : chname)
  | SRemoveChannel (name : chname)
  | SBusOn (name : string) (cb cx : value)
  | SBusOnce (name : string) (cb cx : value)
  | SBusOff (name : option string) (cb : value)
  | SEmit (name : string) (args : list value)
  | SThrow (v : value).

(** A program: a finite sequence of calls, each chosen from the state the
    previous ones left (which includes the log of every invocation so
    far). Exceptions are not caught. *)
Inductive prog :=
  | PRet
  | PDo (st : stmt) (k : state → prog).

Definition exec_stmt (callf : invoker) (st : stmt) (s : state) : outcome () :=
  match st with
  | SOn o name cb cx => ignore (on o name cb cx s)
  | SOnce o name cb cx => ignore (once o name cb cx s)
  | SOff o name cb cx => off o name cb cx s
  | STrigger o name args => trigger callf o name args s
  | STrigger0 o => trigger0 callf o s
  | SListenTo o src name cb => listenTo o src name cb s
  | SListenToOnce o src name cb => listenToOnce o src name cb s
  | SStopListening o src name cb => stopListening o src name cb s
  | SHandleOff h => handle_off h s
  | SAddChannel name => addChannel name s
  | SRemoveChannel name => ignore (removeChannel name s)
  | SBusOn name cb cx => ignore (bus_on name cb cx s)
  | SBusOnce name cb cx => ignore (bus_once name cb cx s)
  | SBusOff name cb => bus_off name cb s
  | SEmit name args => emit callf name args s
  | SThrow v => Exn (Thrown v) s
  end.

Fixpoint exec (callf : invoker) (p : prog) (s : state) : outcome () :=
  match p with
  | PRet => Ret () s
  | PDo st k => bind (exec_stmt callf st s) (λ _ s', exec callf (k s') s')
  end.

Definition log (e : event) (s : state) : state := set_calls (λ l, l ++ [e]) s.

(** The guard of [_.once] lets a first call through: the wrapper [w] is
    marked as called and the call is logged. *)
Definition fire (w : nat) (this : value) (args : list value) (s : state) : state :=
  match onces s !! w with
  | Some c =>
      log (Fire w this args)
          (set_onces <[w := OnceClosure (once_self c) (once_name c) (once_callback c) true]> s)
  | None => s
  end.

Section Calls.

(** The body of every user function. *)
Variable body : nat → value → list value → state → prog.

(** Calling a value. A user function is logged and its body run. A
    [once] wrapper does nothing when it was called before; otherwise it
    is marked as called, [self.off(name, once)] runs, and the original
    callback is applied to the [this] of the wrapper and to the same
    arguments (lines 37-40 with [_.once]). The wrapper is a function of
    lodash, in sloppy mode: its [this] is the boxed [this] of the call,
    a primitive getting a new wrapper object, told from the others by the
    length of the log, which every first call of a wrapper extends.
    Anything else is not callable. *)
Fixpoint call (fuel : nat) (f this : value) (args : list value) (s : state)
  : outcome () :=
  match fuel with
  | 0 => Fuel
  | S n =>
      match f with
      | VFn (FUser k) =>
          let s1 := log (Invoke k this args) s in
          exec (call n) (body k this args s1) s1
      | VFn (FOnce w) =>
          match onces s !! w with
          | None => Exn TypeError s
          | Some c =>
              if once_called c then Ret () s
              else
                let this' := box (length (calls s)) this in
                let s1 := fire w this' args s in
                bind (off (once_self c) (once_name c) (VFn (FOnce w)) VUndef s1)
                     (λ _ s2, call n (once_callback c) this' args s2)
          end
      | _ => Exn TypeError s
      end
  end.

(** A program of the caller, run with [fuel] for each callback chain. *)
Definition run (fuel : nat) (p : prog) (s : state) : outcome () :=
  exec (call fuel) p s.

End Calls.

(* ===================================================================== *)
(** ** Notions used by the statements *)
(* ===================================================================== *)

(** [post R s m]: the state an outcome leaves, if any, is related to [s].
    Running out of fuel leaves no state. *)
Definition post {A} (R : state → state → Prop) (s : state) (m : outcome A) : Prop :=
  match m with
  | Ret _ s' => R s s'
  | Exn _ s' => R s s'
  | Fuel => True
  end.

(** A preorder on states that the elementary steps of the library respect.
    Whatever such a relation says then holds of every method and of every
    run of callbacks. *)
Record respected (R : state → state → Prop) : Prop := Respected {
  r_refl : ∀ s, R s s;
  r_trans : ∀ s1 s2 s3, R s1 s2 → R s2 s3 → R s1 s3;
  r_on_own : ∀ o name cb cx s, R s (on_own o name cb cx s).1;
  r_on_fail : ∀ o s, R s (on_fail o s);
  r_off_own : ∀ o cb cx s e, R s (off_own o cb cx s e);
  r_clear : ∀ o s, R s (set_events o None s);
  r_new_once : ∀ o name cb s,
    R s (set_onces <[fresh (dom (onces s)) := OnceClosure o name cb false]> s);
  r_listeningTo : ∀ o lt s, R s (set_listeningTo o lt s);
  r_listenId : ∀ o i s, R s (set_listenId o i s);
  r_idCounter : ∀ s, R s (set_idCounter N.succ s);
  r_new_channel : ∀ n s,
    R s (set_channels <[n := fresh (dom (objs s))]>
           (set_objs <[fresh (dom (objs s)) := new_emitter]> s));
  r_del_channel : ∀ n s, R s (set_channels (delete n) s);
  r_invoke : ∀ k this args s, R s (log (Invoke k this args) s);
  r_fire : ∀ w c this args s,
    onces s !! w = Some c → once_called c = false → R s (fire w this args s)
}.

(** The only write to an array of listeners is the [push] of [on]: [off]
    builds a new array. So an array keeps every element it has, at the
    same index. *)
Definition extends (s s' : state) : Prop :=
  ∀ a l, arrays s !! a = Some l → ∃ l', arrays s' !! a = Some (l ++ l').

(** The invocations a dispatch over the records [l] performs with the
    arguments [args]: one for each record, in the order of the array, on
    the record's [ctx]. *)
Definition invocations (args : list value) (l : list listener)
  : list (value * value * list value) :=
  (λ ev, (callback ev, ctx ev, args)) <$> l.

(** The array that [this._events.all] is when [trigger] starts. *)
Definition all_array (s : state) (o : nat) : option nat := addr s o "all".

(** The second dispatch of [trigger]: over that array, as it is once the
    first dispatch is over, with the name put before the arguments. *)
Definition all_phase (callf : invoker) (s : state) (o : nat) (name : ename)
    (args : list value) (s1 : state) : outcome () :=
  match all_array s o with
  | Some a => invoke_all callf (invocations (name_value name :: args) (array_at s1 a)) s1
  | None => Ret () s1
  end.

(** A listener whose callback is a user function that calls nothing. *)
Definition inert (body : nat → value → list value → state → prog) (ev : listener) : Prop :=
  ∃ k, callback ev = VFn (FUser k) ∧ ∀ this args s, body k this args s = PRet.

(** The log entries of a dispatch over records with user functions. *)
Definition entries (args : list value) (l : list listener) : list event :=
  omap (λ ev, match callback ev with
              | VFn (FUser k) => Some (Invoke k (ctx ev) args)
              | _ => None
              end) l.

(** What [off] leaves alone: everything but the event tables and the
    arrays. *)
Definition off_frame (s s' : state) : Prop :=
  channels s' = channels s ∧ onces s' = onces s ∧ calls s' = calls s
  ∧ maxHashId s' = maxHashId s ∧ idCounter s' = idCounter s
  ∧ ∀ o, _listeningTo (get_obj s' o) = _listeningTo (get_obj s o)
         ∧ _listenId (get_obj s' o) = _listenId (get_obj s o).

(** No bucket of any table is empty. *)
Definition no_empty_buckets (s : state) : Prop :=
  ∀ o e a, addr s o e = Some a → array_at s a ≠ [].

(** A property of states as a relation between the state before and the
    state after. *)
Definition keeps (P : state → Prop) (s s' : state) : Prop := P s → P s'.

(** The record that [on] pushes. *)
Definition new_listener (o : nat) (cb cx : value) (s : state) : listener :=
  Listener cb cx (if truthy cx then cx else VEm o) (hash_key (maxHashId s)).

(** The records [off] keeps from the array [l]; none when neither a
    callback nor a context is given. *)
Definition remaining (s : state) (cb cx : value) (l : list listener) : list listener :=
  if negb (truthy cb) && negb (truthy cx) then []
  else filter (λ ev, off_keeps s cb cx ev = true) l.

(** The well-formed states: what every state reachable from [init]
    satisfies. No bucket is empty, no array is shared by two buckets, every
    record id is [hash_key n] for some [n] below the counter, and no id
    occurs twice, in one bucket or in two. *)
Record wf (s : state) : Prop := WF {
  wf_nonempty : no_empty_buckets s;
  wf_inj : ∀ o1 e1 o2 e2 a,
    addr s o1 e1 = Some a → addr s o2 e2 = Some a → o1 = o2 ∧ e1 = e2;
  wf_below : ∀ a l ev,
    arrays s !! a = Some l → ev ∈ l → ∃ n, id ev = hash_key n ∧ (n < maxHashId s)%N;
  wf_nodup : ∀ a l, arrays s !! a = Some l → NoDup (id <$> l);
  wf_disj : ∀ o1 e1 a1 o2 e2 a2 ev1 ev2,
    addr s o1 e1 = Some a1 → addr s o2 e2 = Some a2 →
    ev1 ∈ array_at s a1 → ev2 ∈ array_at s a2 → id ev1 = id ev2 → a1 = a2
}.

(** A property of the state an outcome leaves, if it leaves one. *)
Definition holds_after {A} (P : state → Prop) (m : outcome A) : Prop :=
  match m with
  | Ret _ s' => P s'
  | Exn _ s' => P s'
  | Fuel => True
  end.

(** How many times the wrapper [w] handed a call to its original, in a
    piece of the log. *)
Definition is_fire (w : nat) (e : event) : bool :=
  match e with
  | Fire w' _ _ => bool_decide (w' = w)
  | Invoke _ _ _ => false
  end.

Definition fires (w : nat) (l : list event) : nat :=
  length (filter (λ e, is_fire w e = true) l).

(** What any step does to a [once] wrapper [w] that exists: its closure
    keeps its captured variables, the log grows, and over the step the
    wrapper hands over at most one call, none if it was called before,
    and is marked as called when it hands one over. *)
Definition once_rel (w : nat) (s s' : state) : Prop :=
  ∀ c, onces s !! w = Some c →
    ∃ c' d,
      onces s' !! w = Some c'
      ∧ once_self c' = once_self c ∧ once_name c' = once_name c
      ∧ once_callback c' = once_callback c
      ∧ calls s' = calls s ++ d
      ∧ (once_called c = true → once_called c' = true ∧ fires w d = 0)
      ∧ fires w d ≤ 1
      ∧ (fires w d = 1 → once_called c' = true).

(** The records [off(name, cb, cx)] is aimed at when [cb] is a function:
    the callback, or the original a [once] wrapper stands for, is [cb],
    and the context is [cx] when a context is given. *)
Definition targeted (s : state) (cb cx : value) (ev : listener) : Prop :=
  (callback ev = cb ∨ _callback s (callback ev) = cb)
  ∧ (truthy cx = true → context ev = cx).

Global Instance targeted_dec s cb cx ev : Decision (targeted s cb cx ev).
Proof. unfold targeted. apply _. Defined.

(** The channel table of a well-formed router: two channels never share
    a registry, and every registry of a channel is an allocated object. *)
Definition chan_wf (s : state) : Prop :=
  (∀ c1 c2 o, channels s !! c1 = Some o → channels s !! c2 = Some o → c1 = c2)
  ∧ (∀ c o, channels s !! c = Some o → o ∈ dom (objs s)).

(** The counter of handle ids never goes down. *)
Definition counter_mono (s s' : state) : Prop := (maxHashId s ≤ maxHashId s')%N.

(** The log an outcome leaves. *)
Definition log_of {A} (m : outcome A) : option (list event) :=
  match m with
  | Ret _ s => Some (calls s)
  | Exn _ s => Some (calls s)
  | Fuel => None
  end.

(** User functions that call nothing. *)
Definition quiet : nat → value → list value → state → prog := λ _ _ _ _, PRet.


(** The state an outcome leaves, [s0] when it leaves none. *)
Definition state_of {A} (m : outcome A) (s0 : state) : state :=
  match m with
  | Ret _ s => s
  | Exn _ s => s
  | Fuel => s0
  end.

(** Whether [off(name, ...)], for a name that is a string or is omitted,
    is aimed at the bucket of [e]: every bucket when the name is omitted
    or empty or has an empty piece, otherwise the buckets of its pieces. *)
Definition aims (name : ename) (e : string) : bool :=
  match name with
  | NAbsent => true
  | NStr n =>
      if String.eqb n "" then true
      else if has_space n
           then existsb (λ p, String.eqb p "" || String.eqb p e) (split_ws n)
           else String.eqb n e
  | NMap _ => false
  end.

(* ===================================================================== *)
(** ** Notions used by the further properties *)
(* ===================================================================== *)

(** The id [_.uniqueId('l')] gives when the counter is [n]. *)
Definition listen_key (n : N) : string := "l" +:+ pretty (N.succ n).

(** A preorder on states that the elementary steps of the library respect
    where the library takes them: a push of [on] with a truthy callback and a
    name that [eventsApi] left to [on], a listen id given to an object
    that has none, an entry of [_listeningTo] written under the listen id
    of its object, a channel created under a new, non-empty name. *)
Record guarded (R : state → state → Prop) : Prop := Guarded {
  g_refl : ∀ s, R s s;
  g_trans : ∀ s1 s2 s3, R s1 s2 → R s2 s3 → R s1 s3;
  g_on_own : ∀ o name cb cx s,
    truthy cb = true → eventsApi name [cb; cx] = None → R s (on_own o name cb cx s).1;
  g_on_fail : ∀ o s, R s (on_fail o s);
  g_off_own : ∀ o cb cx s e, R s (off_own o cb cx s e);
  g_clear : ∀ o s, R s (set_events o None s);
  g_new_once : ∀ o name cb s,
    truthy cb = true →
    R s (set_onces <[fresh (dom (onces s)) := OnceClosure o name cb false]> s);
  g_listen_start : ∀ o s,
    R s (set_listeningTo o (Some (default ∅ (_listeningTo (get_obj s o)))) s);
  g_listen_id : ∀ src s,
    _listenId (get_obj s src) = None →
    R s (set_listenId src (Some (listen_key (idCounter s))) (set_idCounter N.succ s));
  g_listen_add : ∀ o src lid lt s,
    _listenId (get_obj s src) = Some lid → _listeningTo (get_obj s o) = Some lt →
    R s (set_listeningTo o (Some (<[lid := src]> lt)) s);
  g_listen_del : ∀ o lt i s,
    _listeningTo (get_obj s o) = Some lt →
    R s (set_listeningTo o (Some (delete i lt)) s);
  g_new_channel : ∀ n s,
    n ≠ "" → channels s !! n = None →
    R s (set_channels <[n := fresh (dom (objs s))]>
           (set_objs <[fresh (dom (objs s)) := new_emitter]> s));
  g_del_channel : ∀ n s, R s (set_channels (delete n) s);
  g_invoke : ∀ k this args s, R s (log (Invoke k this args) s);
  g_fire : ∀ w c this args s,
    onces s !! w = Some c → once_called c = false → R s (fire w this args s)
}.

(** Every record of every bucket has a truthy callback, and its [ctx] is
    its context when that is truthy and the emitter of the bucket
    otherwise. *)
Definition records_ok (s : state) : Prop :=
  ∀ o e ev, ev ∈ bucket s o e →
    truthy (callback ev) = true
    ∧ ctx ev = (if truthy (context ev) then context ev else VEm o).

(** No channel is named by the empty string. *)
Definition channel_names_ok (s : state) : Prop := channels s !! "" = None.


(** User functions that all trigger the event ["e"] of the emitter [0]
    again, and user functions of which the first throws. *)
Definition retrigger : nat → value → list value → state → prog :=
  λ _ _ _ _, PDo (STrigger 0 (NStr "e") []) (λ _, PRet).

Definition first_throws : nat → value → list value → state → prog :=
  λ k _ _ _,
    match k with
    | 1 => PDo (SThrow (VStr "boom")) (λ _, PRet)
    | _ => PRet
    end.

(** The bookkeeping of [listenTo]: an object is recorded in a
    [_listeningTo] table under its own [_listenId], every [_listenId] was
    drawn from the counter, and no two objects share one. *)
Definition listen_ok (s : state) : Prop :=
  (∀ o lt i src,
     _listeningTo (get_obj s o) = Some lt → lt !! i = Some src →
     _listenId (get_obj s src) = Some i)
  ∧ (∀ o i, _listenId (get_obj s o) = Some i →
       ∃ n, i = listen_key n ∧ (n < idCounter s)%N)
  ∧ (∀ o1 o2 i,
       _listenId (get_obj s o1) = Some i → _listenId (get_obj s o2) = Some i → o1 = o2).


(* ===================================================================== *)
(** ** Notions about the names of Object.prototype *)
(* ===================================================================== *)

(** The names a string stands for in [on], [once], [off] and [trigger]:
    its pieces when it has white space, itself otherwise. *)
Definition pieces (name : ename) : list string :=
  match name with
  | NStr n => if has_space n then split_ws n else [n]
  | _ => []
  end.

(** [trigger(e)] reads [events[0].callback] of a member of
    [Object.prototype]: the table exists, holds no array under [e], and
    the member of that name has a [length] of 1 at least. *)
Definition trigger_throws (s : state) (o : nat) (e : string) : bool :=
  match _events (get_obj s o) with
  | Some tbl => bool_decide (tbl !! e = None) && inherited_nonempty e
  | None => false
  end.

(** [on(e, ...)] with a callback calls [push] on a member of
    [Object.prototype]: the table holds no array under [e]. *)
Definition on_throws (s : state) (o : nat) (e : string) : bool :=
  bool_decide (addr s o e = None) && bool_decide (inherited e ≠ None).

(** No turn of [off(name, cb, cx)] can throw, whatever the table holds:
    neither a callback nor a context is given, or no piece of the name is
    a member of [Object.prototype] with a [length] of 1 at least. *)
Definition off_safe (cb cx : value) (name : ename) : Prop :=
  (truthy cb = false ∧ truthy cx = false)
  ∨ Forall (λ p, inherited_nonempty p = false) (pieces name).

(** No piece of the name is a member of [Object.prototype]. *)
Definition plain (name : ename) : Prop :=
  Forall (λ p, inherited p = None) (pieces name).
(** Projections of updated states. *)
Ltac st_simpl :=
  cbn [objs arrays maxHashId onces idCounter channels calls
       set_objs set_arrays set_maxHashId set_onces set_idCounter set_channels set_calls
       set_events set_listeningTo set_listenId log fst snd] in *.

(* ===================================================================== *)
(** ** Relations that every step respects *)
(* ===================================================================== *)

Lemma post_bind {A B} (R : state → state → Prop) (m : outcome A)
    (f : A → state → outcome B) s :
  (∀ s1 s2 s3, R s1 s2 → R s2 s3 → R s1 s3) →
  post R s m → (∀ a s', R s s' → post R s' (f a s')) → post R s (bind m f).
Proof.
  intros Htr Hm Hf. destruct m as [a s'|e s'|]; simpl in *; try done.
  specialize (Hf a s' Hm). destruct (f a s'); simpl in *; eauto.
Qed.

Section Respected.

Context (R : state → state → Prop) (HR : respected R).

Lemma r_ignore {A} (m : outcome A) s : post R s m → post R s (ignore m).
Proof using HR. destruct m; simpl; auto. Qed.

Lemma r_each {X} (f : X → state → outcome ()) (l : list X) s :
  (∀ x s, post R s (f x s)) → post R s (each f l s).
Proof using HR.
  intros Hf. revert s. induction l as [|x l IH]; intros s; simpl; [apply HR|].
  apply post_bind; [apply HR|apply Hf|]. intros; apply IH.
Qed.

Lemma r_foldl {X} (f : state → X → state) (l : list X) s :
  (∀ s x, R s (f s x)) → R s (foldl f s l).
Proof using HR.
  intros Hf. revert s. induction l as [|x l IH]; intros s; simpl.
  - apply HR.
  - eapply (r_trans R HR); [apply Hf | apply IH].
Qed.

Lemma r_on_body o name cb cx s : post R s (on_body o name cb cx s).
Proof using HR.
  unfold on_body. pose proof (r_on_own R HR o name cb cx s) as H.
  destruct (addr s o (key_of name)), (inherited (key_of name));
    destruct (on_own o name cb cx s); simpl in *; try exact H.
  apply (r_on_fail R HR).
Qed.

Lemma r_on_n k o name cb cx s : post R s (on_n k o name cb cx s).
Proof using HR.
  revert o name cb cx s. induction k as [|k IH]; intros; simpl; [apply HR|].
  destruct (eventsApi name [cb; cx]) as [plan|]; simpl.
  - apply post_bind; [apply HR| |intros; apply HR].
    apply r_each. intros. apply r_ignore, IH.
  - destruct (truthy cb); simpl; [|apply HR].
    apply post_bind; [apply HR|apply r_on_body|intros; apply HR].
Qed.

Lemma r_on o name cb cx s : post R s (on o name cb cx s).
Proof using HR. apply r_on_n. Qed.

Lemma r_off_name o cb cx e s : post R s (off_name o cb cx e s).
Proof using HR.
  unfold off_name. destruct (off_throws s o cb cx e); simpl; apply HR.
Qed.

Lemma r_off_n k o name cb cx s : post R s (off_n k o name cb cx s).
Proof using HR.
  revert o name cb cx s. induction k as [|k IH]; intros; simpl; [apply HR|].
  destruct (_events (get_obj s o)); [|apply HR].
  destruct (eventsApi name [cb; cx]) as [plan|].
  - apply r_each. intros. apply IH.
  - destruct (negb (name_truthy name) && negb (truthy cb) && negb (truthy cx)).
    + apply HR.
    + apply r_each. intros. apply r_off_name.
Qed.

Lemma r_off o name cb cx s : post R s (off o name cb cx s).
Proof using HR. apply r_off_n. Qed.

Lemma r_once_n k o name cb cx s : post R s (once_n k o name cb cx s).
Proof using HR.
  revert o name cb cx s. induction k as [|k IH]; intros; simpl; [apply HR|].
  destruct (eventsApi name [cb; cx]) as [plan|]; simpl.
  - apply post_bind; [apply HR| |intros; apply HR].
    apply r_each. intros. apply r_ignore, IH.
  - destruct (truthy cb); simpl; [|apply HR].
    pose proof (r_new_once R HR o name cb s) as H1.
    pose proof (r_on o name (VFn (FOnce (fresh (dom (onces s))))) cx
                  (set_onces <[fresh (dom (onces s)) := OnceClosure o name cb false]> s))
      as H2.
    destruct (on _ _ _ _ _); simpl in *; try done; eapply (r_trans R HR); eauto.
Qed.

Lemma r_once o name cb cx s : post R s (once o name cb cx s).
Proof using HR. apply r_once_n. Qed.

(** A call made from a state that the caller reached from [s]. *)
Lemma post_from {A} s s1 (m : outcome A) : R s s1 → post R s1 m → post R s m.
Proof using HR.
  intros H1 Hm. destruct m; simpl in *; try done; eapply (r_trans R HR); eauto.
Qed.

Lemma r_listen impl o src name cb s :
  (∀ o name cb cx s, post R s (impl o name cb cx s)) →
  post R s (listen impl o src name cb s).
Proof using HR.
  intros Himpl. unfold listen.
  set (s1 := set_listeningTo o _ s).
  assert (R s s1) as H1 by apply HR.
  destruct (_listenId (get_obj s1 src)) as [i|].
  - apply (post_from s s1); [exact H1|].
    eapply post_from; [apply (r_listeningTo R HR)|apply r_ignore, Himpl].
  - apply (post_from s s1); [exact H1|].
    eapply post_from; [apply (r_idCounter R HR)|].
    eapply post_from; [apply (r_listenId R HR)|].
    eapply post_from; [apply (r_listeningTo R HR)|apply r_ignore, Himpl].
Qed.

Lemma r_stop_one o remove name cb entry s : post R s (stop_one o remove name cb entry s).
Proof using HR.
  unfold stop_one. apply post_bind; [apply HR|apply r_off|].
  intros _ s1 _. simpl.
  destruct (remove || events_empty _ _); [|apply HR].
  destruct (_listeningTo _); apply HR.
Qed.

Lemma r_stopListening o src name cb s : post R s (stopListening o src name cb s).
Proof using HR.
  unfold stopListening. destruct (_listeningTo _); [|apply HR].
  apply r_each. intros. apply r_stop_one.
Qed.

Lemma r_addChannel name s : post R s (addChannel name s).
Proof using HR.
  unfold addChannel. destruct (no_channel_name name); simpl; [apply HR|].
  destruct (channel_at s (chkey name)); simpl; apply HR.
Qed.

Lemma r_removeChannel name s : post R s (removeChannel name s).
Proof using HR.
  unfold removeChannel. destruct (no_channel_name name); simpl; [apply HR|].
  destruct (channel_at s (chkey name)); simpl; try apply HR.
  apply post_bind; [apply HR|apply r_off|]. intros _ s1 _. apply HR.
Qed.

Lemma r_bus_register impl name cb cx s :
  (∀ o name cb cx s, post R s (impl o name cb cx s)) →
  post R s (bus_register impl name cb cx s).
Proof using HR.
  intros Himpl. unfold bus_register. destruct (resolve name) as [channel name'].
  apply post_bind; [apply HR|apply r_addChannel|].
  intros _ s1 H1. destruct (channel_at s1 channel) as [o| |]; simpl; try apply HR.
  apply Himpl.
Qed.

Lemma r_bus_off name cb s : post R s (bus_off name cb s).
Proof using HR.
  unfold bus_off. destruct name as [name|].
  - destruct (bool_decide _).
    + destruct (split_char at_sign name !! 1); simpl; [|apply HR].
      destruct (channel_at s _); simpl; try apply HR; apply r_ignore, r_removeChannel.
    + destruct (resolve name) as [channel name'].
      destruct (channel_at s channel); simpl; try apply HR.
      destruct (truthy cb); simpl; apply r_off.
  - apply r_each. intros. apply r_ignore, r_removeChannel.
Qed.

(** Everything that runs callbacks, for an invoker that respects [R]. *)
Section Invoker.

Context (callf : invoker) (Hcallf : ∀ f this args s, post R s (callf f this args s)).

Lemma r_dispatch a args i n s : post R s (dispatch callf a args i n s).
Proof using HR Hcallf.
  revert i s. induction n as [|n IH]; intros i s; simpl; [apply HR|].
  destruct (arrays s !! a ≫= _) as [ev|]; simpl; [|apply HR].
  apply post_bind; [apply HR|apply Hcallf|]. intros; apply IH.
Qed.

Lemma r_triggerEvents a args s : post R s (triggerEvents callf a args s).
Proof using HR Hcallf. apply r_dispatch. Qed.

Lemma r_trigger_events tbl k args s : post R s (trigger_events callf tbl k args s).
Proof using HR Hcallf.
  unfold trigger_events. destruct (tbl !! k); [apply r_triggerEvents|].
  destruct (inherited_nonempty k); apply HR.
Qed.

Lemma r_trigger_n k o name args s : post R s (trigger_n k callf o name args s).
Proof using HR Hcallf.
  revert o name args s. induction k as [|k IH]; intros; simpl; [apply HR|].
  destruct (_events (get_obj s o)) as [tbl|]; simpl; [|apply HR].
  destruct (eventsApi name args) as [plan|].
  - apply r_each. intros. apply IH.
  - apply post_bind; [apply HR|apply r_trigger_events|].
    intros _ s1 _. destruct (tbl !! "all"); [apply r_triggerEvents|apply HR].
Qed.

Lemma r_trigger o name args s : post R s (trigger callf o name args s).
Proof using HR Hcallf. apply r_trigger_n. Qed.

Lemma r_trigger0 o s : post R s (trigger0 callf o s).
Proof using HR Hcallf.
  unfold trigger0. destruct (_events (get_obj s o)) as [tbl|]; simpl; [|apply HR].
  apply post_bind; [apply HR|apply r_trigger_events|].
  intros _ s1 _. destruct (tbl !! "all"); [apply r_triggerEvents|apply HR].
Qed.

Lemma r_emit name args s : post R s (emit callf name args s).
Proof using HR Hcallf.
  unfold emit. destruct (resolve name) as [channel name'].
  destruct (channel_at s channel); [apply r_trigger|apply HR|apply HR].
Qed.

Lemma r_handle_off h s : post R s (handle_off h s).
Proof using HR. apply r_off. Qed.

Lemma r_exec_stmt st s : post R s (exec_stmt callf st s).
Proof using HR Hcallf.
  destruct st; simpl;
    try first [ apply r_off | apply r_trigger | apply r_trigger0
              | apply r_stopListening | apply r_addChannel | apply r_bus_off
              | apply r_emit | apply r_handle_off | apply HR ].
  - apply r_ignore, r_on.
  - apply r_ignore, r_once.
  - apply r_listen, r_on.
  - apply r_listen, r_once.
  - apply r_ignore, r_removeChannel.
  - apply r_ignore, r_bus_register, r_on.
  - apply r_ignore, r_bus_register, r_once.
Qed.

Lemma r_exec p s : post R s (exec callf p s).
Proof using HR Hcallf.
  revert s. induction p as [|st k IH]; intros s; simpl; [apply HR|].
  apply post_bind; [apply HR|apply r_exec_stmt|]. intros _ s' _. apply IH.
Qed.

End Invoker.

Variable body : nat → value → list value → state → prog.

Lemma r_call fuel f this args s : post R s (call body fuel f this args s).
Proof using HR.
  revert f this args s. induction fuel as [|n IH]; intros; simpl; [done|].
  destruct f as [| | | | |[k|w]| | | | |]; simpl; try apply HR.
  - pose proof (r_exec (call body n) IH (body k this args (log (Invoke k this args) s))
                  (log (Invoke k this args) s)) as H.
    pose proof (r_invoke R HR k this args s) as H0.
    destruct (exec _ _ _); simpl in *; try done; eapply (r_trans R HR); eauto.
  - destruct (onces s !! w) as [c|] eqn:Hw; simpl; [|apply HR].
    destruct (once_called c) eqn:Hc; simpl; [apply HR|].
    eapply post_from; [apply (r_fire R HR w c (box (length (calls s)) this) args s Hw Hc)|].
    apply post_bind; [apply HR|apply r_off|]. intros _ s2 _. apply IH.
Qed.

Lemma r_run fuel p s : post R s (run body fuel p s).
Proof using HR. apply r_exec. intros. apply r_call. Qed.

End Respected.

(* ===================================================================== *)
(** ** Arrays only grow at their end *)
(* ===================================================================== *)

Lemma extends_refl s : extends s s.
Proof. intros a l H. exists []. by rewrite app_nil_r. Qed.

Lemma extends_trans s1 s2 s3 : extends s1 s2 → extends s2 s3 → extends s1 s3.
Proof.
  intros H12 H23 a l H. destruct (H12 a l H) as [l1 H1].
  destruct (H23 a _ H1) as [l2 H2]. exists (l1 ++ l2). by rewrite app_assoc.
Qed.

Lemma extends_same s s' : arrays s' = arrays s → extends s s'.
Proof. intros E a l H. exists []. by rewrite E, app_nil_r. Qed.

Lemma fresh_array_ne (s : state) a l : arrays s !! a = Some l → a ≠ fresh (dom (arrays s)).
Proof.
  intros H ->. apply (is_fresh (dom (arrays s))). apply elem_of_dom. eauto.
Qed.

Lemma extends_alloc s l : extends s (set_arrays <[fresh (dom (arrays s)) := l]> s).
Proof.
  intros a l0 H. exists []. st_simpl. rewrite app_nil_r.
  rewrite lookup_insert_ne; [done|]. intros E. by apply (fresh_array_ne s a l0 H).
Qed.

Lemma extends_on_own o name cb cx s : extends s (on_own o name cb cx s).1.
Proof.
  unfold on_own. destruct (default ∅ (_events (get_obj s o)) !! key_of name) as [a|]; st_simpl.
  - intros a0 l H. st_simpl. destruct (decide (a0 = a)) as [->|Hne].
    + exists [Listener cb cx (if truthy cx then cx else VEm o) (hash_key (maxHashId s))].
      rewrite lookup_insert_eq. unfold array_at; st_simpl. by rewrite H.
    + exists []. rewrite lookup_insert_ne by done. by rewrite app_nil_r.
  - intros a0 l H. st_simpl. exists []. rewrite app_nil_r.
    pose proof (fresh_array_ne s a0 l H) as Hne.
    rewrite !lookup_insert_ne by done. done.
Qed.

Lemma arrays_delete_bucket o e s : arrays (delete_bucket o e s) = arrays s.
Proof. unfold delete_bucket. by destruct (_events (get_obj s o)). Qed.

Lemma extends_off_own o cb cx s e : extends s (off_own o cb cx s e).
Proof.
  unfold off_own. destruct (_events (get_obj s o)) as [tbl|]; [|apply extends_refl].
  destruct (tbl !! e) as [a|]; [|apply extends_refl].
  destruct (negb (truthy cb) && negb (truthy cx)).
  { apply extends_same, arrays_delete_bucket. }
  destruct (filter _ _) as [|r rem].
  { apply extends_same, arrays_delete_bucket. }
  eapply extends_trans; [apply (extends_alloc s (r :: rem))|]. by apply extends_same.
Qed.

Lemma arrays_fire w this args s : arrays (fire w this args s) = arrays s.
Proof. unfold fire. by destruct (onces s !! w). Qed.

Lemma extends_respected : respected extends.
Proof.
  constructor; intros;
    first [ by eapply extends_trans | apply extends_on_own | apply extends_off_own
          | by apply extends_same | apply extends_same, arrays_fire ].
Qed.

Section Dispatch.

Context (callf : invoker) (Hcallf : ∀ f this args s, post extends s (callf f this args s)).

Lemma dispatch_frozen a args l pre more s :
  arrays s !! a = Some (pre ++ l ++ more) →
  dispatch callf a args (length pre) (length l) s
  = invoke_all callf (invocations args l) s.
Proof using Hcallf.
  revert pre more s. induction l as [|ev l IH]; intros pre more s Ha; simpl; [done|].
  rewrite Ha; simpl.
  rewrite (list_lookup_middle pre (l ++ more) ev (length pre) eq_refl).
  pose proof (Hcallf (callback ev) (ctx ev) args s) as Hp.
  destruct (callf (callback ev) (ctx ev) args s) as [[] s'|e s'|]; simpl in *; try done.
  destruct (Hp a _ Ha) as [l' Hl'].
  replace (S (length pre)) with (length (pre ++ [ev])) by (rewrite length_app; simpl; lia).
  apply (IH (pre ++ [ev]) (more ++ l')).
  rewrite Hl'. f_equal. rewrite <- !app_assoc. simpl. by rewrite <- ?app_assoc.
Qed.

(** [triggerEvents] invokes the records the array holds when the
    dispatch starts, whatever the callbacks do to the registry. *)
Lemma triggerEvents_frozen a args s :
  triggerEvents callf a args s = invoke_all callf (invocations args (array_at s a)) s.
Proof using Hcallf.
  unfold triggerEvents, array_at. destruct (arrays s !! a) as [l|] eqn:Ha; simpl; [|done].
  apply (dispatch_frozen a args l [] []). by rewrite app_nil_r.
Qed.

End Dispatch.

(* ===================================================================== *)
(** ** What one trigger does *)
(* ===================================================================== *)

Lemma eventsApi_single e rest : has_space e = false → eventsApi (NStr e) rest = None.
Proof. intros H. unfold eventsApi. rewrite H. by destruct (String.eqb e ""). Qed.

Lemma trigger_throws_own s o e : addr s o e ≠ None → trigger_throws s o e = false.
Proof.
  unfold trigger_throws, addr. destruct (_events (get_obj s o)) as [tbl|]; [|done].
  cbn [mbind option_bind]. intros H. by rewrite bool_decide_eq_false_2.
Qed.

Lemma trigger_throws_bucket s o e : bucket s o e ≠ [] → trigger_throws s o e = false.
Proof.
  intros H. apply trigger_throws_own. intros E. unfold bucket in H. by rewrite E in H.
Qed.


Lemma inherited_nonempty_plain e : inherited e = None → inherited_nonempty e = false.
Proof. unfold inherited_nonempty. by intros ->. Qed.

(** [trigger] under a single name: a throw on a member of
    [Object.prototype], or the dispatch over the bucket of the name
    followed by the one over the bucket ["all"]. *)
Lemma trigger_single_cases (callf : invoker) o e args s :
  (∀ f this args s, post extends s (callf f this args s)) →
  has_space e = false →
  trigger callf o (NStr e) args s
  = if trigger_throws s o e then Exn TypeError s
    else bind (invoke_all callf (invocations args (bucket s o e)) s)
              (λ _ s1, all_phase callf s o (NStr e) args s1).
Proof.
  intros Hcallf He. unfold trigger, all_phase, all_array, bucket, addr, trigger_throws.
  cbn [trigger_n].
  destruct (_events (get_obj s o)) as [tbl|]; cbn [mbind option_bind]; [|done].
  rewrite (eventsApi_single e args He). cbn [key_of name_value]. unfold trigger_events.
  destruct (tbl !! e) as [a|]; cbn [bind].
  - rewrite bool_decide_eq_false_2 by done. cbn [andb].
    rewrite (triggerEvents_frozen callf Hcallf).
    destruct (invoke_all callf _ s) as [[] s1|ex s1|]; simpl; try done.
    destruct (tbl !! "all") as [a'|]; [|done].
    apply (triggerEvents_frozen callf Hcallf).
  - rewrite bool_decide_eq_true_2 by done. cbn [andb].
    destruct (inherited_nonempty e); [done|]. cbn [bind invocations fmap list_fmap invoke_all].
    destruct (tbl !! "all") as [a'|]; [|done].
    apply (triggerEvents_frozen callf Hcallf).
Qed.

Lemma trigger_single (callf : invoker) o e args s :
  (∀ f this args s, post extends s (callf f this args s)) →
  has_space e = false → trigger_throws s o e = false →
  trigger callf o (NStr e) args s
  = bind (invoke_all callf (invocations args (bucket s o e)) s)
         (λ _ s1, all_phase callf s o (NStr e) args s1).
Proof. intros Hcallf He Ht. by rewrite trigger_single_cases, Ht. Qed.

Lemma bucket_on_own o name cb cx s :
  bucket (on_own o name cb cx s).1 o (key_of name)
  = bucket s o (key_of name)
    ++ [Listener cb cx (if truthy cx then cx else VEm o) (hash_key (maxHashId s))].
Proof.
  unfold on_own, bucket, addr.
  destruct (_events (get_obj s o)) as [tbl|] eqn:Hev; simpl.
  - destruct (tbl !! key_of name) as [a|] eqn:Ha; st_simpl;
      unfold get_obj, array_at; st_simpl; rewrite lookup_insert_eq; simpl.
    + by rewrite Ha, lookup_insert_eq.
    + by rewrite !lookup_insert_eq.
  - rewrite lookup_empty; st_simpl.
    unfold get_obj, array_at; st_simpl. rewrite lookup_insert_eq; simpl.
    by rewrite !lookup_insert_eq.
Qed.

Lemma on_throws_own s o e : addr s o e ≠ None → on_throws s o e = false.
Proof. intros H. unfold on_throws. by rewrite bool_decide_eq_false_2. Qed.

Lemma on_throws_plain s o e : inherited e = None → on_throws s o e = false.
Proof.
  intros H. unfold on_throws. rewrite (bool_decide_eq_false_2 (inherited e ≠ None)) by tauto.
  apply andb_false_r.
Qed.

(** The body of [on]: a throw on a member of [Object.prototype], or the
    push. *)
Lemma on_body_cases o name cb cx s :
  on_body o name cb cx s
  = if on_throws s o (key_of name) then Exn TypeError (on_fail o s)
    else Ret (on_own o name cb cx s).2 (on_own o name cb cx s).1.
Proof.
  unfold on_body, on_throws.
  destruct (addr s o (key_of name)) as [a|] eqn:Ha.
  - rewrite bool_decide_eq_false_2 by done. cbn [andb].
    by destruct (on_own o name cb cx s).
  - rewrite bool_decide_eq_true_2 by done. cbn [andb].
    destruct (inherited (key_of name)) as [l|] eqn:Hi.
    + by rewrite bool_decide_eq_true_2.
    + rewrite bool_decide_eq_false_2 by tauto. by destruct (on_own o name cb cx s).
Qed.

Lemma on_single_cases o e cb cx s :
  has_space e = false → truthy cb = true →
  on o (NStr e) cb cx s
  = if on_throws s o e then Exn TypeError (on_fail o s)
    else Ret (Some (on_own o (NStr e) cb cx s).2) (on_own o (NStr e) cb cx s).1.
Proof.
  intros He Hcb. unfold on; cbn [on_n]. rewrite (eventsApi_single e _ He), Hcb.
  rewrite on_body_cases. cbn [key_of]. by destruct (on_throws s o e).
Qed.

Lemma on_single o e cb cx s :
  has_space e = false → truthy cb = true → on_throws s o e = false →
  on o (NStr e) cb cx s
  = Ret (Some (on_own o (NStr e) cb cx s).2) (on_own o (NStr e) cb cx s).1.
Proof. intros He Hcb Ht. by rewrite on_single_cases, Ht. Qed.

Lemma set_calls_nil s : set_calls (λ c, c ++ []) s = s.
Proof. destruct s; unfold set_calls; simpl. by rewrite app_nil_r. Qed.

Lemma set_calls_log e es s :
  set_calls (λ c, c ++ es) (log e s) = set_calls (λ c, c ++ e :: es) s.
Proof. destruct s; unfold log, set_calls; simpl. by rewrite <- app_assoc. Qed.

Lemma set_calls_app es1 es2 s :
  set_calls (λ c, c ++ es2) (set_calls (λ c, c ++ es1) s) = set_calls (λ c, c ++ es1 ++ es2) s.
Proof. destruct s; unfold set_calls; simpl. by rewrite <- app_assoc. Qed.

Lemma invoke_all_inert body fuel args l s :
  Forall (inert body) l →
  invoke_all (call body (S fuel)) (invocations args l) s
  = Ret () (set_calls (λ c, c ++ entries args l) s).
Proof.
  intros H. revert s. induction H as [|ev l [k [Hk Hb]] _ IH]; intros s.
  - simpl. by rewrite set_calls_nil.
  - cbn [invocations fmap list_fmap invoke_all entries omap list_omap].
    rewrite Hk. cbn [call]. rewrite Hb. cbn [exec bind].
    unfold invocations in IH. rewrite IH. by rewrite set_calls_log.
Qed.


Lemma all_phase_inert body fuel o name args f s :
  Forall (inert body) (bucket s o "all") →
  all_phase (call body (S fuel)) s o name args (set_calls f s)
  = Ret () (set_calls (λ c, c ++ entries (name_value name :: args) (bucket s o "all"))
              (set_calls f s)).
Proof.
  unfold all_phase, all_array, bucket, addr. intros H.
  destruct (_events (get_obj s o)) as [tbl|]; cbn [mbind option_bind] in *.
  - destruct (tbl !! "all") as [a|].
    + change (array_at (set_calls f s) a) with (array_at s a).
      by rewrite invoke_all_inert.
    + cbn [entries omap list_omap]. by rewrite set_calls_nil.
  - cbn [entries omap list_omap]. by rewrite set_calls_nil.
Qed.

Lemma trigger_inert body fuel o e args s :
  has_space e = false → trigger_throws s o e = false →
  Forall (inert body) (bucket s o e) → Forall (inert body) (bucket s o "all") →
  trigger (call body (S fuel)) o (NStr e) args s
  = Ret () (set_calls (λ c, c ++ entries args (bucket s o e)
                              ++ entries (VStr e :: args) (bucket s o "all")) s).
Proof.
  intros He Ht H1 H2. rewrite trigger_single; [|apply r_call, extends_respected|done|done].
  rewrite invoke_all_inert by done. cbn [bind].
  rewrite all_phase_inert by done. by rewrite set_calls_app.
Qed.

(* ===================================================================== *)
(** ** What off leaves alone *)
(* ===================================================================== *)

Lemma get_obj_set_events o ev s o' :
  get_obj (set_events o ev s) o'
  = if decide (o = o') then Emitter ev (_listeningTo (get_obj s o)) (_listenId (get_obj s o))
    else get_obj s o'.
Proof.
  unfold get_obj at 1; st_simpl. rewrite lookup_insert. by destruct (decide (o = o')).
Qed.

Lemma get_obj_set_arrays f s o : get_obj (set_arrays f s) o = get_obj s o.
Proof. done. Qed.

Lemma off_frame_refl s : off_frame s s.
Proof. by repeat split. Qed.

Lemma off_frame_trans s1 s2 s3 : off_frame s1 s2 → off_frame s2 s3 → off_frame s1 s3.
Proof.
  intros (A1 & A2 & A3 & A4 & A5 & A6) (B1 & B2 & B3 & B4 & B5 & B6).
  repeat split; try congruence.
  - destruct (A6 o), (B6 o). congruence.
  - destruct (A6 o), (B6 o). congruence.
Qed.

Lemma off_frame_set_events o ev s : off_frame s (set_events o ev s).
Proof.
  repeat split; try done; rewrite get_obj_set_events;
    destruct (decide (o = o0)) as [->|]; done.
Qed.

Lemma off_frame_name o cb cx s e : off_frame s (off_own o cb cx s e).
Proof.
  unfold off_own, delete_bucket.
  destruct (_events (get_obj s o)) as [tbl|]; [|apply off_frame_refl].
  destruct (tbl !! e) as [a|]; [|apply off_frame_refl].
  destruct (negb (truthy cb) && negb (truthy cx)); [apply off_frame_set_events|].
  destruct (filter _ _); [apply off_frame_set_events|].
  eapply off_frame_trans; [|apply off_frame_set_events]. by repeat split.
Qed.

Lemma foldl_preorder {X} (R : state → state → Prop) (f : state → X → state) l s :
  (∀ s, R s s) → (∀ s1 s2 s3, R s1 s2 → R s2 s3 → R s1 s3) →
  (∀ s x, R s (f s x)) → R s (foldl f s l).
Proof.
  intros Hr Ht Hf. revert s. induction l as [|x l IH]; intros s; simpl; [apply Hr|].
  eapply Ht; [apply Hf|apply IH].
Qed.

Lemma each_preorder {X} (R : state → state → Prop) (f : X → state → outcome ()) l s :
  (∀ s, R s s) → (∀ s1 s2 s3, R s1 s2 → R s2 s3 → R s1 s3) →
  (∀ x s, post R s (f x s)) → post R s (each f l s).
Proof.
  intros Hr Ht Hf. revert s. induction l as [|x l IH]; intros s; simpl; [apply Hr|].
  apply post_bind; [exact Ht|apply Hf|]. intros; apply IH.
Qed.

Lemma off_frame_off_name o cb cx e s : post off_frame s (off_name o cb cx e s).
Proof.
  unfold off_name. destruct (off_throws s o cb cx e); simpl;
    [apply off_frame_refl|apply off_frame_name].
Qed.

Lemma off_frame_off_n k o name cb cx s : post off_frame s (off_n k o name cb cx s).
Proof.
  revert o name cb cx s. induction k as [|k IH]; intros; cbn [off_n];
    [apply off_frame_refl|].
  destruct (_events (get_obj s o)); [|apply off_frame_refl].
  destruct (eventsApi name [cb; cx]) as [plan|].
  - apply each_preorder; [apply off_frame_refl|apply off_frame_trans|]. intros; apply IH.
  - destruct (negb (name_truthy name) && negb (truthy cb) && negb (truthy cx)).
    + apply off_frame_set_events.
    + apply each_preorder; [apply off_frame_refl|apply off_frame_trans|].
      intros; apply off_frame_off_name.
Qed.

Lemma off_frame_off o name cb cx s : post off_frame s (off o name cb cx s).
Proof. apply off_frame_off_n. Qed.

(** [off] invokes nothing: it never runs out of fuel. *)
Lemma each_total {X} (f : X → state → outcome ()) l s :
  (∀ x s, f x s ≠ Fuel) → each f l s ≠ Fuel.
Proof.
  intros Hf. revert s. induction l as [|x l IH]; intros s; simpl; [done|].
  pose proof (Hf x s). destruct (f x s) as [[] s'|ex s'|]; simpl; [apply IH|done|done].
Qed.

Lemma off_n_total k o name cb cx s : off_n k o name cb cx s ≠ Fuel.
Proof.
  revert o name cb cx s. induction k as [|k IH]; intros; cbn [off_n]; [done|].
  destruct (_events (get_obj s o)); [|done].
  destruct (eventsApi name [cb; cx]) as [plan|].
  - apply each_total. intros; apply IH.
  - destruct (negb (name_truthy name) && negb (truthy cb) && negb (truthy cx)); [done|].
    apply each_total. intros x s'. unfold off_name. by destruct (off_throws s' o cb cx x).
Qed.

Lemma off_total o name cb cx s : off o name cb cx s ≠ Fuel.
Proof. apply off_n_total. Qed.

Lemma on_n_total k o name cb cx s : on_n k o name cb cx s ≠ Fuel.
Proof.
  revert o name cb cx s. induction k as [|k IH]; intros; cbn [on_n]; [done|].
  destruct (eventsApi name [cb; cx]) as [plan|].
  - assert (each (λ c s, ignore (on_n k o c.1 (arg 0 c.2) (arg 1 c.2) s)) plan s ≠ Fuel)
      as H.
    { apply each_total. intros c s'. pose proof (IH o c.1 (arg 0 c.2) (arg 1 c.2) s').
      by destruct (on_n k o c.1 (arg 0 c.2) (arg 1 c.2) s'). }
    by destruct (each _ plan s).
  - destruct (truthy cb); [|done]. rewrite on_body_cases.
    by destruct (on_throws s o (key_of name)).
Qed.

Lemma on_total o name cb cx s : on o name cb cx s ≠ Fuel.
Proof. apply on_n_total. Qed.

Lemma once_n_total k o name cb cx s : once_n k o name cb cx s ≠ Fuel.
Proof.
  revert o name cb cx s. induction k as [|k IH]; intros; cbn [once_n]; [done|].
  destruct (eventsApi name [cb; cx]) as [plan|].
  - assert (each (λ c s, ignore (once_n k o c.1 (arg 0 c.2) (arg 1 c.2) s)) plan s ≠ Fuel)
      as H.
    { apply each_total. intros c s'. pose proof (IH o c.1 (arg 0 c.2) (arg 1 c.2) s').
      by destruct (once_n k o c.1 (arg 0 c.2) (arg 1 c.2) s'). }
    by destruct (each _ plan s).
  - destruct (truthy cb); [|done]. apply on_total.
Qed.

Lemma once_total o name cb cx s : once o name cb cx s ≠ Fuel.
Proof. apply once_n_total. Qed.

(* ===================================================================== *)
(** ** The elementary steps, on tables and arrays *)
(* ===================================================================== *)

Lemma addr_set_events o ev s o' e' :
  addr (set_events o ev s) o' e' = if decide (o = o') then ev ≫= (.!! e') else addr s o' e'.
Proof.
  unfold addr. rewrite get_obj_set_events. by destruct (decide (o = o')).
Qed.

Lemma get_obj_set_listeningTo o lt s o' :
  _events (get_obj (set_listeningTo o lt s) o') = _events (get_obj s o').
Proof.
  unfold get_obj at 1; st_simpl. rewrite lookup_insert.
  by destruct (decide (o = o')) as [->|].
Qed.

Lemma get_obj_set_listenId o i s o' :
  _events (get_obj (set_listenId o i s) o') = _events (get_obj s o').
Proof.
  unfold get_obj at 1; st_simpl. rewrite lookup_insert.
  by destruct (decide (o = o')) as [->|].
Qed.

Lemma get_obj_new_emitter s o' :
  get_obj (set_objs <[fresh (dom (objs s)) := new_emitter]> s) o' = get_obj s o'.
Proof.
  unfold get_obj; st_simpl. rewrite lookup_insert.
  destruct (decide (fresh (dom (objs s)) = o')) as [<-|]; [|done].
  assert (objs s !! fresh (dom (objs s)) = None) as ->; [|done].
  apply not_elem_of_dom, is_fresh.
Qed.

Lemma array_at_fresh s : array_at s (fresh (dom (arrays s))) = [].
Proof.
  unfold array_at. assert (arrays s !! fresh (dom (arrays s)) = None) as ->; [|done].
  apply not_elem_of_dom, is_fresh.
Qed.

Lemma array_at_ne_fresh s a : array_at s a ≠ [] → a ≠ fresh (dom (arrays s)).
Proof. intros H ->. by rewrite array_at_fresh in H. Qed.

Lemma bucket_addr s o e a : addr s o e = Some a → bucket s o e = array_at s a.
Proof. unfold bucket. by intros ->. Qed.

Lemma table_lookup s o e : default ∅ (_events (get_obj s o)) !! e = addr s o e.
Proof. unfold addr. destruct (_events (get_obj s o)); [done|apply lookup_empty]. Qed.

Lemma addr_set_arrays f s o e : addr (set_arrays f s) o e = addr s o e.
Proof. done. Qed.

Lemma addr_set_maxHashId f s o e : addr (set_maxHashId f s) o e = addr s o e.
Proof. done. Qed.

(** What [on_own] does to the tables, the arrays and the counter. *)
Lemma on_own_spec o name cb cx s :
  (∀ o' e', addr (on_own o name cb cx s).1 o' e'
            = if decide (o' = o ∧ e' = key_of name)
              then Some (default (fresh (dom (arrays s))) (addr s o (key_of name)))
              else addr s o' e')
  ∧ arrays (on_own o name cb cx s).1
    = <[default (fresh (dom (arrays s))) (addr s o (key_of name))
        := bucket s o (key_of name) ++ [new_listener o cb cx s]]> (arrays s)
  ∧ maxHashId (on_own o name cb cx s).1 = N.succ (maxHashId s)
  ∧ onces (on_own o name cb cx s).1 = onces s
  ∧ calls (on_own o name cb cx s).1 = calls s
  ∧ channels (on_own o name cb cx s).1 = channels s.
Proof.
  unfold on_own, bucket. rewrite table_lookup.
  destruct (addr s o (key_of name)) as [a|] eqn:Ha; cbn [default fst].
  - repeat split; try done.
    intros o' e'. rewrite addr_set_arrays, addr_set_maxHashId, addr_set_events.
    destruct (decide (o = o')) as [<-|Hne].
    + cbn [mbind option_bind]. rewrite table_lookup.
      destruct (decide (e' = key_of name)) as [->|].
      * by rewrite decide_True.
      * by rewrite decide_False by (intros [_ ?]; done).
    + by rewrite decide_False by (intros [? _]; done).
  - repeat split; try done.
    + intros o' e'. rewrite addr_set_arrays, addr_set_maxHashId, addr_set_events.
      destruct (decide (o = o')) as [<-|Hne].
      * cbn [mbind option_bind]. rewrite lookup_insert.
        destruct (decide (key_of name = e')) as [<-|].
        -- by rewrite decide_True.
        -- rewrite decide_False by (intros [_ ?]; done).
           by rewrite table_lookup.
      * by rewrite decide_False by (intros [? _]; done).
    + st_simpl. unfold array_at; st_simpl. rewrite lookup_insert_eq. simpl.
      by rewrite insert_insert_eq.
Qed.

(** What one turn of the loop of [off] does. *)
Lemma off_own_spec o cb cx s e :
  let s' := off_own o cb cx s e in
  match addr s o e with
  | None => s' = s
  | Some a =>
      match remaining s cb cx (array_at s a) with
      | [] =>
          (∀ o' e', addr s' o' e' = if decide (o' = o ∧ e' = e) then None else addr s o' e')
          ∧ arrays s' = arrays s
      | r :: rem =>
          (∀ o' e', addr s' o' e'
                    = if decide (o' = o ∧ e' = e) then Some (fresh (dom (arrays s)))
                      else addr s o' e')
          ∧ arrays s' = <[fresh (dom (arrays s)) := r :: rem]> (arrays s)
      end
  end.
Proof.
  unfold off_own, remaining, delete_bucket, addr at 1.
  destruct (_events (get_obj s o)) as [tbl|] eqn:Hev; cbn [mbind option_bind]; [|done].
  destruct (tbl !! e) as [a|] eqn:Ha; [|done].
  assert (∀ s0 tbl' (v : option nat),
            (∀ o' e', addr s0 o' e' = addr s o' e') → tbl' !! e = v →
            (∀ e', e' ≠ e → tbl' !! e' = tbl !! e') →
            ∀ o' e', addr (set_events o (Some tbl') s0) o' e'
                     = if decide (o' = o ∧ e' = e) then v else addr s o' e') as Haddr.
  { intros s0 tbl' v H0 Hv Hother o' e'. rewrite addr_set_events.
    destruct (decide (o = o')) as [<-|Hne].
    - cbn [mbind option_bind]. destruct (decide (e' = e)) as [->|Hne].
      + rewrite decide_True by done. done.
      + rewrite decide_False by (intros [_ ?]; done).
        rewrite Hother by done. unfold addr. by rewrite Hev.
    - rewrite decide_False by (intros [? _]; done). apply H0. }
  destruct (negb (truthy cb) && negb (truthy cx)).
  { split; [|done]. apply Haddr; [done|apply lookup_delete_eq|].
    intros e' Hne. by apply lookup_delete_ne. }
  destruct (filter _ _) as [|r rem].
  { split; [|done]. apply Haddr; [done|apply lookup_delete_eq|].
    intros e' Hne. by apply lookup_delete_ne. }
  split; [|done]. apply Haddr; [done|apply lookup_insert_eq|].
  intros e' Hne. by apply lookup_insert_ne.
Qed.

Lemma addr_clear o s o' e' :
  addr (set_events o None s) o' e' = if decide (o' = o) then None else addr s o' e'.
Proof.
  rewrite addr_set_events. destruct (decide (o = o')) as [<-|].
  - by rewrite decide_True.
  - by rewrite decide_False.
Qed.

Lemma addr_fire w this args s o e : addr (fire w this args s) o e = addr s o e.
Proof. unfold fire. by destruct (onces s !! w). Qed.

(* ===================================================================== *)
(** ** No empty bucket *)
(* ===================================================================== *)

Lemma no_empty_shrink s s' :
  (∀ o e, addr s' o e = addr s o e ∨ addr s' o e = None) → arrays s' = arrays s →
  no_empty_buckets s → no_empty_buckets s'.
Proof.
  intros Ha Hs H o e a Hl. unfold array_at. rewrite Hs.
  destruct (Ha o e) as [E|E]; rewrite E in Hl; [|done]. by apply (H o e a).
Qed.

Lemma no_empty_on_own o name cb cx s :
  no_empty_buckets s → no_empty_buckets (on_own o name cb cx s).1.
Proof.
  intros H. destruct (on_own_spec o name cb cx s) as (Haddr & Harr & _).
  intros o' e' a' Hl. rewrite Haddr in Hl. unfold array_at. rewrite Harr.
  destruct (decide (o' = o ∧ e' = key_of name)) as [_|_].
  - injection Hl as <-. rewrite lookup_insert_eq. simpl. by destruct (bucket s o (key_of name)).
  - rewrite lookup_insert. destruct (decide _) as [|]; simpl.
    + by destruct (bucket s o (key_of name)).
    + by apply (H o' e' a').
Qed.

Lemma no_empty_off_own o cb cx s e :
  no_empty_buckets s → no_empty_buckets (off_own o cb cx s e).
Proof.
  intros H. pose proof (off_own_spec o cb cx s e) as Hs. cbn zeta in Hs.
  destruct (addr s o e) as [a|]; [|by rewrite Hs].
  destruct (remaining s cb cx (array_at s a)) as [|r rem].
  - destruct Hs as [Haddr Harr]. apply (no_empty_shrink s); [|done|done].
    intros o' e'. rewrite Haddr. destruct (decide _); auto.
  - destruct Hs as [Haddr Harr]. intros o' e' a' Hl. rewrite Haddr in Hl.
    unfold array_at. rewrite Harr. destruct (decide (o' = o ∧ e' = e)) as [_|_].
    + injection Hl as <-. by rewrite lookup_insert_eq.
    + rewrite lookup_insert_ne; [by apply (H o' e' a')|].
      intros <-. by apply (array_at_ne_fresh s _ (H o' e' _ Hl)).
Qed.

Lemma addr_on_fail o s o' e' : addr (on_fail o s) o' e' = addr s o' e'.
Proof.
  unfold on_fail. rewrite addr_set_maxHashId, addr_set_events.
  destruct (decide (o = o')) as [<-|]; [|done]. cbn [mbind option_bind].
  apply table_lookup.
Qed.

Lemma bucket_on_fail o s o' e' : bucket (on_fail o s) o' e' = bucket s o' e'.
Proof. unfold bucket. by rewrite addr_on_fail. Qed.

Lemma no_empty_on_fail o s : no_empty_buckets s → no_empty_buckets (on_fail o s).
Proof.
  apply no_empty_shrink; [|done]. intros o' e'. left. apply addr_on_fail.
Qed.

Lemma no_empty_respected : respected (keeps no_empty_buckets).
Proof.
  constructor; unfold keeps.
  - done.
  - auto.
  - intros. by apply no_empty_on_own.
  - intros. by apply no_empty_on_fail.
  - intros. by apply no_empty_off_own.
  - intros o s. apply no_empty_shrink; [|done]. intros o' e'. rewrite addr_clear.
    destruct (decide _); auto.
  - intros. by eapply no_empty_shrink; [| |eassumption]; auto.
  - intros o lt s. apply no_empty_shrink; [|done]. intros o' e'. left.
    unfold addr. by rewrite get_obj_set_listeningTo.
  - intros o i s. apply no_empty_shrink; [|done]. intros o' e'. left.
    unfold addr. by rewrite get_obj_set_listenId.
  - intros. by eapply no_empty_shrink; [| |eassumption]; auto.
  - intros n s. apply no_empty_shrink; [|done]. intros o' e'. left.
    unfold addr.
    change (get_obj (set_channels ?f ?x) o') with (get_obj x o').
    by rewrite get_obj_new_emitter.
  - intros. by eapply no_empty_shrink; [| |eassumption]; auto.
  - intros. by eapply no_empty_shrink; [| |eassumption]; auto.
  - intros w c this args s _ _. apply no_empty_shrink.
    + intros. left. apply addr_fire.
    + apply arrays_fire.
Qed.

(* ===================================================================== *)
(** ** What off does to the buckets *)
(* ===================================================================== *)

Lemma remaining_nil s cb cx : remaining s cb cx [] = [].
Proof. unfold remaining. by destruct (negb (truthy cb) && negb (truthy cx)). Qed.

Lemma remaining_sublist s cb cx l : remaining s cb cx l `sublist_of` l.
Proof.
  unfold remaining. destruct (negb (truthy cb) && negb (truthy cx)).
  - apply sublist_nil_l.
  - apply sublist_filter.
Qed.

Lemma remaining_onces s s' cb cx l : onces s' = onces s → remaining s' cb cx l = remaining s cb cx l.
Proof.
  intros E. unfold remaining. destruct (negb (truthy cb) && negb (truthy cx)); [done|].
  apply list_filter_iff. intros ev. unfold off_keeps, _callback. by rewrite E.
Qed.

Lemma array_at_insert s a l a' :
  array_at (set_arrays <[a := l]> s) a' = if decide (a = a') then l else array_at s a'.
Proof.
  unfold array_at; st_simpl. rewrite lookup_insert. by destruct (decide (a = a')).
Qed.

Lemma off_own_bucket o cb cx s e o' e' :
  no_empty_buckets s →
  bucket (off_own o cb cx s e) o' e'
  = if decide (o' = o ∧ e' = e) then remaining s cb cx (bucket s o e) else bucket s o' e'.
Proof.
  intros Hne. pose proof (off_own_spec o cb cx s e) as Hs. cbn zeta in Hs.
  unfold bucket at 1 2. destruct (addr s o e) as [a|] eqn:Ha.
  - destruct (remaining s cb cx (array_at s a)) as [|r rem] eqn:Hrem.
    + destruct Hs as [Haddr Harr]. rewrite Haddr.
      destruct (decide (o' = o ∧ e' = e)); [done|].
      unfold bucket, array_at. by rewrite Harr.
    + destruct Hs as [Haddr Harr]. rewrite Haddr.
      destruct (decide (o' = o ∧ e' = e)).
      * unfold array_at. by rewrite Harr, lookup_insert_eq.
      * unfold bucket. destruct (addr s o' e') as [a'|] eqn:Ha'; [|done].
        unfold array_at. rewrite Harr. rewrite lookup_insert_ne; [done|].
        intros <-. by apply (array_at_ne_fresh s _ (Hne o' e' _ Ha')).
  - rewrite Hs. rewrite remaining_nil. unfold bucket.
    destruct (decide (o' = o ∧ e' = e)) as [[-> ->]|]; [by rewrite Ha|done].
Qed.

Lemma onces_off_own o cb cx s e : onces (off_own o cb cx s e) = onces s.
Proof. apply off_frame_name. Qed.

Lemma off_loop_bucket o cb cx names s :
  NoDup names → no_empty_buckets s →
  no_empty_buckets (foldl (off_own o cb cx) s names)
  ∧ ∀ o' e', bucket (foldl (off_own o cb cx) s names) o' e'
             = if decide (o' = o ∧ e' ∈ names) then remaining s cb cx (bucket s o' e')
               else bucket s o' e'.
Proof.
  intros Hnd. revert s. induction Hnd as [|x names Hx Hnd IH]; intros s Hne; simpl.
  - split; [done|]. intros o' e'. rewrite decide_False; [done|].
    intros [_ H]. by apply not_elem_of_nil in H.
  - destruct (IH (off_own o cb cx s x) (no_empty_off_own o cb cx s x Hne)) as [Hne' Hb].
    split; [done|]. intros o' e'. rewrite Hb.
    rewrite (remaining_onces s _ cb cx _ (onces_off_own o cb cx s x)).
    rewrite !off_own_bucket by done.
    destruct (decide (o' = o)) as [->|Ho].
    + destruct (decide (e' = x)) as [->|Hex].
      * rewrite decide_False by (intros [_ ?]; done).
        rewrite decide_True by done.
        rewrite decide_True by (split; [done|apply list_elem_of_here]). done.
      * destruct (decide (e' ∈ names)) as [Hin|Hin].
        -- rewrite decide_True by done. rewrite decide_False by (intros [_ ?]; done).
           rewrite decide_True by (split; [done|by apply list_elem_of_further]). done.
        -- rewrite decide_False by (intros [_ ?]; done).
           rewrite decide_False by (intros [_ ?]; done).
           rewrite decide_False; [done|].
           intros [_ H]. apply elem_of_cons in H as [?|?]; done.
    + rewrite decide_False by (intros [? _]; done).
      rewrite decide_False by (intros [? _]; done).
      rewrite decide_False by (intros [? _]; done). done.
Qed.

Lemma event_names_spec s o e : e ∈ event_names s o ↔ is_Some (addr s o e).
Proof.
  unfold event_names, addr. destruct (_events (get_obj s o)) as [tbl|]; simpl.
  - rewrite list_elem_of_fmap. split.
    + intros [[k a] [-> H]]. apply elem_of_map_to_list in H. simpl. eauto.
    + intros [a H]. exists (e, a). split; [done|]. by apply elem_of_map_to_list.
  - split; [intros H; by apply not_elem_of_nil in H|intros [? ?]; done].
Qed.

Lemma event_names_NoDup s o : NoDup (event_names s o).
Proof.
  unfold event_names. destruct (_events (get_obj s o)); [|constructor].
  apply NoDup_fst_map_to_list.
Qed.

Lemma bind_ret_unit (m : outcome ()) : bind m (λ _ s, Ret () s) = m.
Proof. by destruct m as [[] s| |]. Qed.

Lemma each_one {X} (f : X → state → outcome ()) x s : each f [x] s = f x s.
Proof. cbn [each]. apply bind_ret_unit. Qed.

Lemma off_throws_own s o cb cx e : addr s o e ≠ None → off_throws s o cb cx e = false.
Proof. intros H. unfold off_throws. by rewrite bool_decide_eq_false_2. Qed.

Lemma off_throws_plain s o cb cx e :
  inherited_nonempty e = false → off_throws s o cb cx e = false.
Proof. intros H. unfold off_throws. rewrite H. by rewrite andb_false_r. Qed.

Lemma off_throws_none s o cb cx e :
  truthy cb = false → truthy cx = false → off_throws s o cb cx e = false.
Proof. intros H1 H2. unfold off_throws. rewrite H1, H2. apply andb_false_r. Qed.

Lemma off_name_ret o cb cx e s :
  off_throws s o cb cx e = false → off_name o cb cx e s = Ret () (off_own o cb cx s e).
Proof. intros H. unfold off_name. by rewrite H. Qed.

Lemma off_name_throw o cb cx e s :
  off_throws s o cb cx e = true → off_name o cb cx e s = Exn TypeError s.
Proof. intros H. unfold off_name. by rewrite H. Qed.

(** A throw of [off] leaves the bucket it was reading, and every other, as
    it was: the turn that throws has written nothing. *)
Lemma off_throws_bucket s o cb cx e : off_throws s o cb cx e = true → bucket s o e = [].
Proof.
  unfold off_throws. intros H. apply andb_true_iff in H as [H _].
  apply andb_true_iff in H as [H _]. apply bool_decide_eq_true in H.
  unfold bucket. by rewrite H.
Qed.

(** The loop of [off] over names none of which makes it throw whatever
    the state: the turns of [off_own]. *)
Lemma each_off_safe o cb cx names s :
  Forall (λ e, inherited_nonempty e = false ∨ (truthy cb = false ∧ truthy cx = false)) names →
  each (off_name o cb cx) names s = Ret () (foldl (off_own o cb cx) s names).
Proof.
  intros H. revert s. induction H as [|e names He _ IH]; intros s; cbn [each foldl]; [done|].
  rewrite off_name_ret; [apply IH|].
  destruct He as [He|[H1 H2]]; [by apply off_throws_plain|by apply off_throws_none].
Qed.

Lemma addr_off_own_ne o cb cx s e o' e' :
  (o', e') ≠ (o, e) → is_Some (addr (off_own o cb cx s e) o' e') ↔ is_Some (addr s o' e').
Proof.
  intros Hne. pose proof (off_own_spec o cb cx s e) as Hs. cbn zeta in Hs.
  destruct (addr s o e) as [a|] eqn:Ha; [|by rewrite Hs].
  destruct (remaining s cb cx (array_at s a)) as [|r rem]; destruct Hs as [Haddr _];
    rewrite Haddr; (rewrite decide_False; [done|]); intros [-> ->]; done.
Qed.

(** The loop of [off] over names that the table holds. *)
Lemma each_off_own o cb cx names s :
  NoDup names → (∀ e, e ∈ names → addr s o e ≠ None) →
  each (off_name o cb cx) names s = Ret () (foldl (off_own o cb cx) s names).
Proof.
  intros Hnd. revert s. induction Hnd as [|e names He Hnd IH]; intros s Hown;
    cbn [each foldl]; [done|].
  rewrite off_name_ret by (apply off_throws_own, Hown, list_elem_of_here). cbn [bind].
  apply IH. intros e' He' Hnone.
  apply (Hown e'); [by apply list_elem_of_further|].
  destruct (addr s o e') as [a|] eqn:Ha; [|done].
  assert (is_Some (addr (off_own o cb cx s e) o e')) as [a' Ha']; [|congruence].
  apply addr_off_own_ne; [|eauto]. intros [= ->]. done.
Qed.

Lemma off_unfold o name cb cx s :
  eventsApi name [cb; cx] = None →
  off o name cb cx s
  = match _events (get_obj s o) with
    | None => Ret () s
    | Some _ =>
        if negb (name_truthy name) && negb (truthy cb) && negb (truthy cx)
        then Ret () (set_events o None s)
        else each (off_name o cb cx)
               (if name_truthy name then [key_of name] else event_names s o) s
    end.
Proof. intros H. unfold off; cbn [off_n]. by rewrite H. Qed.

(** [off] under a name that [eventsApi] leaves to it, when the name is
    given: a throw on a member of [Object.prototype], which changes
    nothing, or one turn of [off_own]. *)
Lemma off_single_cases o name cb cx s :
  eventsApi name [cb; cx] = None → name_truthy name = true →
  off o name cb cx s
  = match _events (get_obj s o) with
    | None => Ret () s
    | Some _ =>
        if off_throws s o cb cx (key_of name) then Exn TypeError s
        else Ret () (off_own o cb cx s (key_of name))
    end.
Proof.
  intros Hapi Hn. rewrite off_unfold by done. destruct (_events (get_obj s o)); [|done].
  rewrite Hn. cbn [negb andb]. by rewrite each_one.
Qed.

(** What [off] leaves when no turn of its loop throws. *)
Lemma off_returns o name cb cx s :
  eventsApi name [cb; cx] = None →
  (name_truthy name = true → off_throws s o cb cx (key_of name) = false) →
  off o name cb cx s
  = Ret () (match _events (get_obj s o) with
            | None => s
            | Some _ =>
                if negb (name_truthy name) && negb (truthy cb) && negb (truthy cx)
                then set_events o None s
                else foldl (off_own o cb cx) s
                       (if name_truthy name then [key_of name] else event_names s o)
            end).
Proof.
  intros Hapi Hsafe. rewrite off_unfold by done.
  destruct (_events (get_obj s o)) as [tbl|] eqn:Hev; [|done].
  destruct (negb (name_truthy name) && negb (truthy cb) && negb (truthy cx)); [done|].
  destruct (name_truthy name).
  - rewrite each_one. by rewrite off_name_ret by auto.
  - apply each_off_own; [apply event_names_NoDup|].
    intros e He. apply event_names_spec in He as [a Ha]. congruence.
Qed.

(** [off] for a name that [eventsApi] leaves to it: the buckets it is
    aimed at keep the records [remaining] keeps, in their order; the
    others keep everything. *)
Lemma off_bucket o name cb cx s :
  eventsApi name [cb; cx] = None → no_empty_buckets s →
  (name_truthy name = true → off_throws s o cb cx (key_of name) = false) →
  ∃ s',
    off o name cb cx s = Ret () s'
    ∧ ∀ o' e',
        bucket s' o' e'
        = if decide (o' = o ∧ (name_truthy name = false ∨ e' = key_of name))
          then remaining s cb cx (bucket s o' e')
          else bucket s o' e'.
Proof.
  intros Hapi Hne Hsafe. eexists. split; [by apply off_returns|]. intros o' e'.
  destruct (_events (get_obj s o)) as [tbl|] eqn:Hev.
  - destruct (name_truthy name) eqn:Hn; cbn [negb andb].
    + simpl. rewrite off_own_bucket by done.
      destruct (decide (o' = o ∧ e' = key_of name)) as [[-> ->]|Hno].
      * rewrite decide_True; [done|]. split; [done|by right].
      * rewrite decide_False; [done|]. intros [? [?|?]]; [done|]. by apply Hno.
    + destruct (negb (truthy cb) && negb (truthy cx)) eqn:Hcc.
      * unfold bucket at 1. rewrite addr_clear. unfold remaining. rewrite Hcc.
        destruct (decide (o' = o)) as [->|].
        -- rewrite decide_True; [done|]. split; [done|by left].
        -- rewrite decide_False; [done|]. intros [? _]; done.
      * destruct (off_loop_bucket o cb cx (event_names s o) s
                    (event_names_NoDup s o) Hne) as [_ Hb].
        rewrite Hb. destruct (decide (o' = o)) as [->|].
        -- rewrite (decide_True (P := o = o ∧ (false = false ∨ e' = key_of name)))
             by (split; [done|by left]).
           destruct (decide (e' ∈ event_names s o)) as [Hin|Hin].
           ++ by rewrite (decide_True (P := o = o ∧ e' ∈ event_names s o)).
           ++ rewrite (decide_False (P := o = o ∧ e' ∈ event_names s o))
                by (intros [_ ?]; done).
              unfold bucket. rewrite event_names_spec in Hin.
              destruct (addr s o e') as [a|]; [by destruct Hin; eauto|].
              by rewrite remaining_nil.
        -- rewrite !decide_False; try done; intros [? _]; done.
  - destruct (decide _) as [[-> _]|]; [|done].
    unfold bucket, addr. rewrite Hev. simpl. by rewrite remaining_nil.
Qed.

(* ===================================================================== *)
(** ** Well-formed states *)
(* ===================================================================== *)

Lemma hash_key_inj n m : hash_key n = hash_key m → n = m.
Proof. unfold hash_key. intros H. injection H as H. by apply (inj pretty). Qed.

Lemma array_at_lookup s a l : arrays s !! a = Some l → array_at s a = l.
Proof. unfold array_at. by intros ->. Qed.

Lemma array_at_elem s a ev : ev ∈ array_at s a → ∃ l, arrays s !! a = Some l ∧ ev ∈ l.
Proof.
  unfold array_at. destruct (arrays s !! a) as [l|]; simpl; [eauto|].
  intros H. by apply not_elem_of_nil in H.
Qed.

Lemma wf_init : wf init.
Proof. by constructor. Qed.

Lemma wf_shrink s s' :
  (∀ o e, addr s' o e = addr s o e ∨ addr s' o e = None) →
  arrays s' = arrays s → maxHashId s' = maxHashId s → wf s → wf s'.
Proof.
  intros Ha Harr Hmax [W1 W2 W3 W4 W5].
  assert (∀ o e a, addr s' o e = Some a → addr s o e = Some a) as Hold.
  { intros o e a H. destruct (Ha o e) as [E|E]; rewrite E in H; done. }
  assert (∀ a, array_at s' a = array_at s a) as Hat.
  { intros a. unfold array_at. by rewrite Harr. }
  constructor.
  - by apply (no_empty_shrink s).
  - intros o1 e1 o2 e2 a H1 H2. apply (W2 o1 e1 o2 e2 a); auto.
  - intros a l ev. rewrite Harr, Hmax. apply W3.
  - intros a l. rewrite Harr. apply W4.
  - intros o1 e1 a1 o2 e2 a2 ev1 ev2 H1 H2. rewrite !Hat. apply (W5 o1 e1 a1 o2 e2 a2); auto.
Qed.

Lemma wf_on_fail o s : wf s → wf (on_fail o s).
Proof.
  intros [W1 W2 W3 W4 W5].
  assert (∀ a, array_at (on_fail o s) a = array_at s a) as Hat by done.
  constructor.
  - by apply no_empty_on_fail.
  - intros o1 e1 o2 e2 a. rewrite !addr_on_fail. apply W2.
  - intros a l ev Hl Hev. destruct (W3 a l ev Hl Hev) as (n & Hn & Hlt).
    exists n. split; [done|]. unfold on_fail. st_simpl. lia.
  - intros a l. apply W4.
  - intros o1 e1 a1 o2 e2 a2 ev1 ev2. rewrite !addr_on_fail, !Hat. apply W5.
Qed.

Lemma wf_on_own o name cb cx s : wf s → wf (on_own o name cb cx s).1.
Proof.
  intros [W1 W2 W3 W4 W5].
  destruct (on_own_spec o name cb cx s) as (Haddr & Harr & Hmax & _).
  set (s' := (on_own o name cb cx s).1) in *.
  set (k := key_of name) in *.
  set (a := default (fresh (dom (arrays s))) (addr s o k)) in *.
  set (r := new_listener o cb cx s) in *.
  set (B := bucket s o k) in *.
  (* the array the record is pushed to *)
  assert (∀ ev, ev ∈ B → addr s o k = Some a ∧ arrays s !! a = Some B) as HB.
  { intros ev Hev. subst B a. unfold bucket in *. destruct (addr s o k) as [a0|] eqn:E.
    - split; [done|]. simpl. unfold array_at in *.
      destruct (arrays s !! a0); [done|]. by apply not_elem_of_nil in Hev.
    - by apply not_elem_of_nil in Hev. }
  assert (∀ o' e', addr s o' e' = Some a → o' = o ∧ e' = k) as Ha.
  { intros o' e' H. subst a. destruct (addr s o k) as [a0|] eqn:E; simpl in H.
    - apply (W2 o' e' o k a0); done.
    - pose proof (W1 o' e' _ H) as Hn. by rewrite array_at_fresh in Hn. }
  assert (∀ x, array_at s' x = if decide (a = x) then B ++ [r] else array_at s x) as Hat.
  { intros x. unfold array_at. rewrite Harr, lookup_insert. by destruct (decide (a = x)). }
  assert (∀ ev n, ev ∈ B → id ev = hash_key n → (n < maxHashId s)%N) as Hlt.
  { intros ev n Hev Hid. destruct (HB ev Hev) as [_ HB'].
    destruct (W3 a B ev HB' Hev) as (m & Hm & Hlt). rewrite Hm in Hid.
    by apply hash_key_inj in Hid as ->. }
  assert (∀ o' e' x, addr s' o' e' = Some x → x ≠ a → addr s o' e' = Some x) as Hother.
  { intros o' e' x H Hx. rewrite Haddr in H. destruct (decide _); [|done]. congruence. }
  assert (∀ x ev, x ≠ a → ev ∈ array_at s x → id ev ≠ id r) as Hfresh.
  { intros x ev Hx Hev Hid. apply array_at_elem in Hev as (l & Hl & Hev).
    destruct (W3 x l ev Hl Hev) as (m & Hm & Hlt'). rewrite Hm in Hid.
    apply hash_key_inj in Hid. lia. }
  constructor.
  - by apply no_empty_on_own.
  - intros o1 e1 o2 e2 x H1 H2. rewrite Haddr in H1, H2.
    destruct (decide (o1 = o ∧ e1 = k)) as [[-> ->]|N1];
      destruct (decide (o2 = o ∧ e2 = k)) as [[-> ->]|N2]; try done.
    + injection H1 as <-. by destruct (Ha o2 e2 H2).
    + injection H2 as <-. by destruct (Ha o1 e1 H1).
    + by apply (W2 o1 e1 o2 e2 x).
  - intros x l ev Hl Hev. rewrite Harr, lookup_insert in Hl. rewrite Hmax.
    destruct (decide (a = x)) as [<-|Hx].
    + injection Hl as <-. apply elem_of_app in Hev as [Hev|Hev].
      * destruct (HB ev Hev) as [_ HB']. destruct (W3 a B ev HB' Hev) as (n & Hn & Hlt').
        exists n. split; [done|lia].
      * apply list_elem_of_singleton in Hev as ->. exists (maxHashId s). split; [done|lia].
    + destruct (W3 x l ev Hl Hev) as (n & Hn & Hlt'). exists n. split; [done|lia].
  - intros x l Hl. rewrite Harr, lookup_insert in Hl.
    destruct (decide (a = x)) as [<-|Hx]; [|by apply (W4 x)].
    injection Hl as <-. rewrite fmap_app. apply NoDup_app. split; [|split].
    + destruct B as [|ev B'] eqn:EB; [constructor|].
      destruct (HB ev) as [_ HB']; [apply list_elem_of_here|]. by apply (W4 a).
    + intros i Hi Hr. apply list_elem_of_fmap in Hi as (ev & -> & Hev).
      simpl in Hr. apply list_elem_of_singleton in Hr.
      pose proof (Hlt ev (maxHashId s) Hev Hr). lia.
    + apply NoDup_singleton.
  - intros o1 e1 a1 o2 e2 a2 ev1 ev2 H1 H2 Hev1 Hev2 Hid.
    destruct (decide (a1 = a2)) as [|Hne]; [done|exfalso].
    rewrite Hat in Hev1, Hev2.
    destruct (decide (a = a1)) as [<-|N1]; destruct (decide (a = a2)) as [<-|N2]; try done.
    + pose proof (Hother o2 e2 a2 H2 (not_eq_sym N2)) as H2'.
      apply elem_of_app in Hev1 as [Hev1|Hev1].
      * destruct (HB ev1 Hev1) as [Hk HB'].
        apply N2. apply (W5 o k a o2 e2 a2 ev1 ev2); try done.
        by rewrite (array_at_lookup s a B HB').
      * apply list_elem_of_singleton in Hev1 as ->.
        by apply (Hfresh a2 ev2 (not_eq_sym N2) Hev2).
    + pose proof (Hother o1 e1 a1 H1 (not_eq_sym N1)) as H1'.
      apply elem_of_app in Hev2 as [Hev2|Hev2].
      * destruct (HB ev2 Hev2) as [Hk HB'].
        apply N1. symmetry. apply (W5 o1 e1 a1 o k a ev1 ev2); try done.
        by rewrite (array_at_lookup s a B HB').
      * apply list_elem_of_singleton in Hev2 as ->.
        by apply (Hfresh a1 ev1 (not_eq_sym N1) Hev1).
    + apply Hne. apply (W5 o1 e1 a1 o2 e2 a2 ev1 ev2); try done.
      * by apply Hother; [|apply not_eq_sym].
      * by apply Hother; [|apply not_eq_sym].
Qed.

Lemma wf_off_own o cb cx s e : wf s → wf (off_own o cb cx s e).
Proof.
  intros Hwf. pose proof (off_own_spec o cb cx s e) as Hs. cbn zeta in Hs.
  destruct (addr s o e) as [a0|] eqn:Ha0; [|by rewrite Hs].
  destruct (remaining s cb cx (array_at s a0)) as [|r0 rem] eqn:Hrem.
  { destruct Hs as [Haddr Harr]. apply (wf_shrink s); try done.
    - intros o' e'. rewrite Haddr. destruct (decide _); auto.
    - unfold off_own. apply off_frame_name. }
  destruct Hs as [Haddr Harr]. destruct Hwf as [W1 W2 W3 W4 W5].
  set (s' := off_own o cb cx s e) in *.
  set (a := fresh (dom (arrays s))) in *.
  set (R := r0 :: rem) in *.
  assert (R `sublist_of` array_at s a0) as Hsub.
  { subst R. rewrite <- Hrem. apply remaining_sublist. }
  destruct (arrays s !! a0) as [l0|] eqn:Hl0.
  2:{ pose proof (W1 o e a0 Ha0) as Hn. unfold array_at in Hn. by rewrite Hl0 in Hn. }
  rewrite (array_at_lookup s a0 l0 Hl0) in Hsub.
  assert (∀ o' e', addr s o' e' ≠ Some a) as Hnot.
  { intros o' e' H. pose proof (W1 o' e' _ H) as Hn. subst a. by rewrite array_at_fresh in Hn. }
  assert (∀ x, array_at s' x = if decide (a = x) then R else array_at s x) as Hat.
  { intros x. unfold array_at. rewrite Harr, lookup_insert. by destruct (decide (a = x)). }
  assert (maxHashId s' = maxHashId s) as Hmax by apply off_frame_name.
  assert (∀ o' e' x, addr s' o' e' = Some x → x ≠ a →
                     addr s o' e' = Some x ∧ ¬ (o' = o ∧ e' = e)) as Hother.
  { intros o' e' x H Hx. rewrite Haddr in H. destruct (decide _); [congruence|done]. }
  constructor.
  - by apply no_empty_off_own.
  - intros o1 e1 o2 e2 x H1 H2. rewrite Haddr in H1, H2.
    destruct (decide (o1 = o ∧ e1 = e)) as [[-> ->]|N1];
      destruct (decide (o2 = o ∧ e2 = e)) as [[-> ->]|N2]; try done.
    + injection H1 as <-. by destruct (Hnot o2 e2).
    + injection H2 as <-. by destruct (Hnot o1 e1).
    + by apply (W2 o1 e1 o2 e2 x).
  - intros x l ev Hl Hev. rewrite Harr, lookup_insert in Hl. rewrite Hmax.
    destruct (decide (a = x)) as [<-|Hx].
    + injection Hl as <-. apply (W3 a0 l0 ev Hl0). by eapply elem_of_sublist.
    + by apply (W3 x l ev).
  - intros x l Hl. rewrite Harr, lookup_insert in Hl.
    destruct (decide (a = x)) as [<-|Hx]; [|by apply (W4 x)].
    injection Hl as <-. apply (sublist_NoDup _ (id <$> l0)); [by apply (W4 a0)|].
    by apply fmap_sublist.
  - intros o1 e1 a1 o2 e2 a2 ev1 ev2 H1 H2 Hev1 Hev2 Hid.
    destruct (decide (a1 = a2)) as [|Hne]; [done|exfalso].
    rewrite Hat in Hev1, Hev2.
    destruct (decide (a = a1)) as [<-|N1]; destruct (decide (a = a2)) as [<-|N2]; try done.
    + destruct (Hother o2 e2 a2 H2 (not_eq_sym N2)) as [H2' Hno].
      assert (a0 = a2) as <-.
      { apply (W5 o e a0 o2 e2 a2 ev1 ev2); try done.
        rewrite (array_at_lookup s a0 l0 Hl0). by eapply elem_of_sublist. }
      apply Hno. apply (W2 o2 e2 o e a0); done.
    + destruct (Hother o1 e1 a1 H1 (not_eq_sym N1)) as [H1' Hno].
      assert (a1 = a0) as ->.
      { apply (W5 o1 e1 a1 o e a0 ev1 ev2); try done.
        rewrite (array_at_lookup s a0 l0 Hl0). by eapply elem_of_sublist. }
      apply Hno. apply (W2 o1 e1 o e a0); done.
    + apply Hne. apply (W5 o1 e1 a1 o2 e2 a2 ev1 ev2); try done.
      * by apply Hother; [|apply not_eq_sym].
      * by apply Hother; [|apply not_eq_sym].
Qed.

Lemma wf_respected : respected (keeps wf).
Proof.
  constructor; unfold keeps.
  - done.
  - auto.
  - intros. by apply wf_on_own.
  - intros. by apply wf_on_fail.
  - intros. by apply wf_off_own.
  - intros o s. apply wf_shrink; try done. intros o' e'. rewrite addr_clear.
    destruct (decide _); auto.
  - intros. by eapply wf_shrink; [| | |eassumption]; auto.
  - intros o lt s. apply wf_shrink; try done. intros o' e'. left.
    unfold addr. by rewrite get_obj_set_listeningTo.
  - intros o i s. apply wf_shrink; try done. intros o' e'. left.
    unfold addr. by rewrite get_obj_set_listenId.
  - intros. by eapply wf_shrink; [| | |eassumption]; auto.
  - intros n s. apply wf_shrink; try done. intros o' e'. left.
    unfold addr.
    change (get_obj (set_channels ?f ?x) o') with (get_obj x o').
    by rewrite get_obj_new_emitter.
  - intros. by eapply wf_shrink; [| | |eassumption]; auto.
  - intros. by eapply wf_shrink; [| | |eassumption]; auto.
  - intros w c this args s _ _. apply wf_shrink.
    + intros. left. apply addr_fire.
    + apply arrays_fire.
    + unfold fire. by destruct (onces s !! w).
Qed.

(* ===================================================================== *)
(** ** The wrappers of once *)
(* ===================================================================== *)

Lemma fires_app w l1 l2 : fires w (l1 ++ l2) = fires w l1 + fires w l2.
Proof. unfold fires. by rewrite filter_app, length_app. Qed.

Lemma once_rel_refl w s : once_rel w s s.
Proof.
  intros c Hc. exists c, []. rewrite app_nil_r. repeat split; try done. unfold fires; simpl; lia.
Qed.

Lemma once_rel_trans w s1 s2 s3 : once_rel w s1 s2 → once_rel w s2 s3 → once_rel w s1 s3.
Proof.
  intros H12 H23 c Hc.
  destruct (H12 c Hc) as (c1 & d1 & Hc1 & A1 & A2 & A3 & A4 & A5 & A6 & A7).
  destruct (H23 c1 Hc1) as (c2 & d2 & Hc2 & B1 & B2 & B3 & B4 & B5 & B6 & B7).
  exists c2, (d1 ++ d2). rewrite fires_app. rewrite B4, A4, app_assoc.
  split; [done|]. split; [congruence|]. split; [congruence|]. split; [congruence|].
  split; [done|]. split; [|split].
  - intros H. destruct (A5 H) as [H1 H2]. destruct (B5 H1) as [H3 H4]. split; [done|lia].
  - destruct (decide (fires w d1 = 0)) as [E|E]; [lia|].
    assert (fires w d1 = 1) as E1 by lia. destruct (B5 (A7 E1)). lia.
  - intros H. destruct (decide (fires w d1 = 0)) as [E|E].
    + apply B7. lia.
    + assert (fires w d1 = 1) as E1 by lia. by destruct (B5 (A7 E1)).
Qed.

Lemma once_rel_same w s s' : onces s' = onces s → calls s' = calls s → once_rel w s s'.
Proof. intros E1 E2 c Hc. rewrite E1, E2. by apply once_rel_refl. Qed.

Lemma once_rel_respected w : respected (once_rel w).
Proof.
  constructor.
  - apply once_rel_refl.
  - apply once_rel_trans.
  - intros. destruct (on_own_spec o name cb cx s) as (_ & _ & _ & H1 & H2 & _).
    by apply once_rel_same.
  - intros. by apply once_rel_same.
  - intros. apply once_rel_same; apply off_frame_name.
  - intros. by apply once_rel_same.
  - intros o name cb s c Hc. exists c, []. rewrite app_nil_r. st_simpl.
    rewrite lookup_insert_ne.
    + repeat split; try done. unfold fires; simpl; lia.
    + intros <-. apply (is_fresh (dom (onces s))). apply elem_of_dom. eauto.
  - intros. by apply once_rel_same.
  - intros. by apply once_rel_same.
  - intros. by apply once_rel_same.
  - intros. by apply once_rel_same.
  - intros. by apply once_rel_same.
  - intros k this args s c Hc. exists c, [Invoke k this args].
    repeat split; try done; unfold fires; simpl; lia.
  - intros w0 c0 this args s Hw0 Hc0 c Hc. unfold fire. rewrite Hw0. st_simpl.
    destruct (decide (w0 = w)) as [->|Hne].
    + rewrite lookup_insert_eq. eexists _, [Fire w this args]. split; [done|].
      assert (c0 = c) as -> by congruence.
      assert (fires w [Fire w this args] = 1) as Hf.
      { unfold fires. rewrite filter_cons_True; [done|]. simpl. by apply bool_decide_eq_true. }
      rewrite Hf. repeat split; try done. congruence.
    + rewrite lookup_insert_ne by done. exists c, [Fire w0 this args]. split; [done|].
      assert (fires w [Fire w0 this args] = 0) as Hf.
      { unfold fires. rewrite filter_cons_False; [done|]. simpl.
        rewrite bool_decide_eq_true. done. }
      rewrite Hf. repeat split; try done. lia.
Qed.

(** [off] with a function keeps exactly the records it is not aimed at. *)
Lemma remaining_targeted s f cx l :
  remaining s (VFn f) cx l = filter (λ ev, ¬ targeted s (VFn f) cx ev) l.
Proof.
  unfold remaining. cbn [truthy negb andb]. apply list_filter_iff. intros ev.
  unfold off_keeps, targeted. cbn [isString truthy andb].
  rewrite orb_true_iff, !andb_true_iff, !bool_decide_eq_true.
  destruct (decide (callback ev = VFn f)) as [E1|E1];
    destruct (decide (_callback s (callback ev) = VFn f)) as [E2|E2];
    destruct (decide (context ev = cx)) as [E3|E3];
    destruct (truthy cx); intuition congruence.
Qed.

(** [off] with a handle id keeps exactly the records with another id. *)
Lemma remaining_id s i cx l :
  remaining s (VStr i) cx l = if String.eqb i "" && negb (truthy cx) then []
                              else filter (λ ev, id ev ≠ i) l.
Proof.
  unfold remaining. cbn [truthy]. rewrite negb_involutive.
  destruct (String.eqb i "" && negb (truthy cx)); [done|].
  apply list_filter_iff. intros ev. unfold off_keeps. cbn [isString].
  rewrite bool_decide_eq_true. split; intros H E; apply H; congruence.
Qed.

Lemma filter_id_middle (l1 l2 : list listener) r :
  NoDup (id <$> (l1 ++ r :: l2)) →
  filter (λ ev, id ev ≠ id r) (l1 ++ r :: l2) = l1 ++ l2.
Proof.
  intros Hnd. rewrite fmap_app, fmap_cons in Hnd.
  apply NoDup_app in Hnd as (_ & H1 & H2). apply NoDup_cons in H2 as [H2 _].
  assert (∀ l : list listener,
            id r ∉ id <$> l → filter (λ ev, id ev ≠ id r) l = l) as Hkeep.
  { induction l as [|x l IH]; intros Hn; [done|].
    rewrite fmap_cons in Hn. apply not_elem_of_cons in Hn as [Hx Hl].
    rewrite filter_cons_True by done. by rewrite IH. }
  rewrite filter_app, filter_cons_False by (intros H; by apply H).
  rewrite !Hkeep; [done|done|].
  intros Hin. apply (H1 _ Hin). apply list_elem_of_here.
Qed.

(* ===================================================================== *)
(** ** The channel table and the counter *)
(* ===================================================================== *)

Lemma chan_wf_grow s s' :
  channels s' = channels s → dom (objs s) ⊆ dom (objs s') → chan_wf s → chan_wf s'.
Proof.
  intros Hc Hd [H1 H2]. split; rewrite Hc; [done|].
  intros c o H. apply Hd. by apply (H2 c).
Qed.

Lemma dom_set_events o ev s : dom (objs s) ⊆ dom (objs (set_events o ev s)).
Proof. st_simpl. rewrite dom_insert_L. set_solver. Qed.

Lemma dom_on_own o name cb cx s : dom (objs s) ⊆ dom (objs (on_own o name cb cx s).1).
Proof.
  unfold on_own. destruct (default ∅ (_events (get_obj s o)) !! key_of name);
    st_simpl; rewrite dom_insert_L; set_solver.
Qed.

Lemma dom_off_own o cb cx s e : dom (objs s) ⊆ dom (objs (off_own o cb cx s e)).
Proof.
  unfold off_own, delete_bucket. destruct (_events (get_obj s o)) as [tbl|]; [|done].
  destruct (tbl !! e); [|done].
  destruct (negb (truthy cb) && negb (truthy cx)); [apply dom_set_events|].
  destruct (filter _ _); [apply dom_set_events|].
  st_simpl. rewrite dom_insert_L. set_solver.
Qed.

Lemma chan_wf_init : chan_wf init.
Proof. split; intros * H; cbn in H; by rewrite lookup_empty in H. Qed.

Lemma chan_wf_respected : respected (keeps chan_wf).
Proof.
  constructor; unfold keeps.
  - done.
  - auto.
  - intros o name cb cx s. apply chan_wf_grow; [|apply dom_on_own].
    apply (on_own_spec o name cb cx s).
  - intros o s. apply chan_wf_grow; [done|]. unfold on_fail. st_simpl.
    rewrite dom_insert_L. set_solver.
  - intros o cb cx s e. apply chan_wf_grow; [apply off_frame_name|apply dom_off_own].
  - intros o s. apply chan_wf_grow; [done|apply dom_set_events].
  - intros. by eapply chan_wf_grow; [| |eassumption].
  - intros o lt s. apply chan_wf_grow; [done|]. st_simpl. rewrite dom_insert_L. set_solver.
  - intros o i s. apply chan_wf_grow; [done|]. st_simpl. rewrite dom_insert_L. set_solver.
  - intros. by eapply chan_wf_grow; [| |eassumption].
  - intros n s [H1 H2]. st_simpl. split; st_simpl.
    + intros c1 c2 o. rewrite !lookup_insert.
      destruct (decide (n = c1)) as [<-|N1]; destruct (decide (n = c2)) as [<-|N2];
        try done.
      * intros [= <-] H. apply H2 in H. by apply is_fresh in H.
      * intros H [= <-]. apply H2 in H. by apply is_fresh in H.
      * apply H1.
    + intros c o. rewrite lookup_insert, dom_insert_L.
      destruct (decide (n = c)) as [<-|N].
      * intros [= <-]. set_solver.
      * intros H. apply H2 in H. set_solver.
  - intros n s [H1 H2]. split; st_simpl.
    + intros c1 c2 o Hc1 Hc2. apply lookup_delete_Some in Hc1 as [_ Hc1].
      apply lookup_delete_Some in Hc2 as [_ Hc2]. by apply (H1 c1 c2 o).
    + intros c o Hc. apply lookup_delete_Some in Hc as [_ Hc]. by apply (H2 c).
  - intros. by eapply chan_wf_grow; [| |eassumption].
  - intros w c this args s _ _. apply chan_wf_grow; unfold fire; by destruct (onces s !! w).
Qed.

Lemma counter_mono_respected : respected counter_mono.
Proof.
  constructor; unfold counter_mono; intros; try (unfold on_fail; st_simpl; lia).
  - destruct (on_own_spec o name cb cx s) as (_ & _ & -> & _). lia.
  - destruct (off_frame_name o cb cx s e) as (_ & _ & _ & -> & _). lia.
  - unfold fire. destruct (onces s !! w); st_simpl; lia.
Qed.

(* ===================================================================== *)
(** ** Helpers for the claims *)
(* ===================================================================== *)

Lemma post_keeps {A} (P : state → Prop) s (m : outcome A) :
  P s → post (keeps P) s m → holds_after P m.
Proof. intros HP. destruct m; simpl; unfold keeps; auto. Qed.

Lemma bind_assoc {A B C} (m : outcome A) (f : A → state → outcome B)
    (g : B → state → outcome C) :
  bind (bind m f) g = bind m (λ a s, bind (f a s) g).
Proof. by destruct m. Qed.

Lemma invoke_all_app callf l1 l2 s :
  invoke_all callf (l1 ++ l2) s = bind (invoke_all callf l1 s) (λ _ s', invoke_all callf l2 s').
Proof.
  revert s. induction l1 as [|[[f this] args] l1 IH]; intros s; simpl; [done|].
  rewrite bind_assoc. destruct (callf f this args s); simpl; [apply IH|done|done].
Qed.

Lemma post_invoke_all (R : state → state → Prop) callf l s :
  respected R → (∀ f this args s, post R s (callf f this args s)) →
  post R s (invoke_all callf l s).
Proof.
  intros HR Hc. revert s. induction l as [|[[f this] args] l IH]; intros s; simpl.
  - apply HR.
  - apply post_bind; [apply HR|apply Hc|]. intros; apply IH.
Qed.

Lemma eventsApi_None_rest name r r' : eventsApi name r = None → eventsApi name r' = None.
Proof.
  destruct name as [|n|m]; simpl; try done.
  destruct (String.eqb n ""); [done|]. by destruct (has_space n).
Qed.

Lemma on_unfold o name cb cx s :
  eventsApi name [cb; cx] = None → truthy cb = true →
  on o name cb cx s
  = if on_throws s o (key_of name) then Exn TypeError (on_fail o s)
    else Ret (Some (on_own o name cb cx s).2) (on_own o name cb cx s).1.
Proof.
  intros Hapi Hcb. unfold on; cbn [on_n]. rewrite Hapi, Hcb, on_body_cases.
  by destruct (on_throws s o (key_of name)).
Qed.

Lemma bucket_elem s o e ev :
  ev ∈ bucket s o e → ∃ a, addr s o e = Some a ∧ ev ∈ array_at s a.
Proof.
  unfold bucket. destruct (addr s o e) as [a|]; [eauto|].
  intros H. by apply not_elem_of_nil in H.
Qed.

Lemma bucket_lookup s o e ev :
  no_empty_buckets s → ev ∈ bucket s o e →
  ∃ a l, addr s o e = Some a ∧ arrays s !! a = Some l ∧ bucket s o e = l.
Proof.
  intros Hne Hev. apply bucket_elem in Hev as (a & Ha & Hev).
  apply array_at_elem in Hev as (l & Hl & _). exists a, l.
  split; [done|]. split; [done|]. rewrite (bucket_addr s o e a Ha). by apply array_at_lookup.
Qed.

(** In a well-formed state an id names one record of one bucket. *)
Lemma wf_id_bucket s o1 e1 o2 e2 ev1 ev2 :
  wf s → ev1 ∈ bucket s o1 e1 → ev2 ∈ bucket s o2 e2 → id ev1 = id ev2 →
  o1 = o2 ∧ e1 = e2.
Proof.
  intros Hwf H1 H2 Hid.
  apply bucket_elem in H1 as (a1 & Ha1 & H1). apply bucket_elem in H2 as (a2 & Ha2 & H2).
  assert (a1 = a2) as -> by (by apply (wf_disj s Hwf o1 e1 a1 o2 e2 a2 ev1 ev2)).
  by apply (wf_inj s Hwf o1 e1 o2 e2 a2).
Qed.

Lemma wf_bucket_NoDup s o e : wf s → NoDup (id <$> bucket s o e).
Proof.
  intros Hwf. unfold bucket. destruct (addr s o e) as [a|]; [|constructor].
  unfold array_at. destruct (arrays s !! a) as [l|] eqn:Hl; [|constructor].
  by apply (wf_nodup s Hwf a).
Qed.

Lemma wf_bucket_below s o e ev :
  wf s → ev ∈ bucket s o e → ∃ n, id ev = hash_key n ∧ (n < maxHashId s)%N.
Proof.
  intros Hwf Hev. apply bucket_elem in Hev as (a & _ & Hev).
  apply array_at_elem in Hev as (l & Hl & Hev). by apply (wf_below s Hwf a l).
Qed.

Lemma filter_id_absent (l : list listener) i :
  (∀ ev, ev ∈ l → id ev ≠ i) → filter (λ ev, id ev ≠ i) l = l.
Proof.
  induction l as [|x l IH]; intros H; [done|].
  rewrite filter_cons_True by (apply H, list_elem_of_here).
  rewrite IH; [done|]. intros ev Hev. apply H. by apply list_elem_of_further.
Qed.

Lemma hash_key_nonempty n : String.eqb (hash_key n) "" = false.
Proof. done. Qed.

Lemma once_unfold o e cb cx s :
  has_space e = false → truthy cb = true →
  once o (NStr e) cb cx s
  = on o (NStr e) (VFn (FOnce (fresh (dom (onces s))))) cx
      (set_onces <[fresh (dom (onces s)) := OnceClosure o (NStr e) cb false]> s).
Proof.
  intros He Hcb. unfold once; cbn [once_n]. by rewrite (eventsApi_single e _ He), Hcb.
Qed.

(* ===================================================================== *)
(** ** The splitters *)
(* ===================================================================== *)

Lemma append_cons x (a b : string) : String x a +:+ b = String x (a +:+ b).
Proof. reflexivity. Qed.

Lemma append_assoc (a b c : string) : (a +:+ b) +:+ c = a +:+ b +:+ c.
Proof. induction a as [|x a IH]; [done|]. by rewrite !append_cons, IH. Qed.

Lemma append_nil_r (a : string) : a +:+ "" = a.
Proof. induction a as [|x a IH]; [done|]. by rewrite append_cons, IH. Qed.

Lemma split_char_go_none c s acc :
  has_char c s = false → split_char_go c s acc = [acc +:+ s].
Proof.
  revert acc. induction s as [|a s IH]; intros acc H; simpl in *.
  - by rewrite append_nil_r.
  - apply orb_false_elim in H as [Ha Hs]. rewrite Ha.
    rewrite IH by done. by rewrite append_assoc.
Qed.

(** A string with an occurrence of [c] is cut at the first one. *)
Lemma split_char_go_first c s acc :
  has_char c s = true →
  ∃ pre post, s = pre +:+ String c post ∧ has_char c pre = false
              ∧ split_char_go c s acc = (acc +:+ pre) :: split_char_go c post "".
Proof.
  revert acc. induction s as [|a s IH]; intros acc H; simpl in *; [done|].
  destruct (bool_decide (a = c)) eqn:Ha.
  - apply bool_decide_eq_true in Ha as ->. exists "", s. by rewrite append_nil_r.
  - simpl in H. destruct (IH (acc +:+ String a "") H) as (pre & post & -> & Hpre & Hs).
    exists (String a pre), post. simpl. rewrite Ha. simpl.
    split; [done|]. split; [done|]. by rewrite Hs, append_assoc.
Qed.




Lemma post_state_of {A} (P : state → Prop) s (m : outcome A) :
  P s → post (keeps P) s m → P (state_of m s).
Proof. intros HP. destruct m; simpl; unfold keeps; auto. Qed.

Lemma on_own_handle o name cb cx s :
  (on_own o name cb cx s).2 = Handle (hash_key (maxHashId s)) name o.
Proof.
  unfold on_own. by destruct (default ∅ (_events (get_obj s o)) !! key_of name).
Qed.

(* ===================================================================== *)
(** ** Lists of names *)
(* ===================================================================== *)

Lemma has_space_snoc acc a :
  has_space acc = false → is_space a = false → has_space (acc +:+ String a "") = false.
Proof.
  induction acc as [|x acc IH]; intros H Ha; simpl in *.
  - by rewrite Ha.
  - apply orb_false_elim in H as [Hx Hacc]. rewrite ?append_cons. simpl.
    by rewrite Hx, IH.
Qed.

(** The pieces of a split hold no white space. *)
Lemma split_ws_go_pieces s acc in_ws :
  has_space acc = false → Forall (λ p, has_space p = false) (split_ws_go s acc in_ws).
Proof.
  revert acc in_ws. induction s as [|a s IH]; intros acc in_ws Hacc; simpl.
  - by constructor.
  - destruct (is_space a) eqn:Ha.
    + destruct in_ws; [by apply IH|]. constructor; [done|by apply IH].
    + apply IH. by apply has_space_snoc.
Qed.

Lemma split_ws_pieces s : Forall (λ p, has_space p = false) (split_ws s).
Proof. by apply split_ws_go_pieces. Qed.

Lemma foldl_ext_Forall {X} (P : X → Prop) (f g : state → X → state) l s :
  Forall P l → (∀ s x, P x → f s x = g s x) → foldl f s l = foldl g s l.
Proof.
  intros Hl Hfg. revert s. induction Hl as [|x l Hx Hl IH]; intros s; simpl; [done|].
  by rewrite Hfg, IH.
Qed.

Lemma each_ext_Forall {X} (P : X → Prop) (f g : X → state → outcome ()) l s :
  Forall P l → (∀ x s, P x → f x s = g x s) → each f l s = each g l s.
Proof.
  intros Hl Hfg. revert s. induction Hl as [|x l Hx Hl IH]; intros s; simpl; [done|].
  rewrite Hfg by done. destruct (g x s); simpl; [apply IH|done|done].
Qed.

Lemma on_n_S k o name cb cx s :
  on_n (S k) o name cb cx s
  = match eventsApi name [cb; cx] with
    | Some plan =>
        bind (each (λ c s, ignore (on_n k o c.1 (arg 0 c.2) (arg 1 c.2) s)) plan s)
             (λ _ s', Ret None s')
    | None =>
        if truthy cb then bind (on_body o name cb cx s) (λ h s', Ret (Some h) s')
        else Ret None s
    end.
Proof. done. Qed.

Lemma once_n_S k o name cb cx s :
  once_n (S k) o name cb cx s
  = match eventsApi name [cb; cx] with
    | Some plan =>
        bind (each (λ c s, ignore (once_n k o c.1 (arg 0 c.2) (arg 1 c.2) s)) plan s)
             (λ _ s', Ret None s')
    | None =>
        if truthy cb then
          on o name (VFn (FOnce (fresh (dom (onces s))))) cx
            (set_onces <[fresh (dom (onces s)) := OnceClosure o name cb false]> s)
        else Ret None s
    end.
Proof. done. Qed.

Lemma off_n_S k o name cb cx s :
  off_n (S k) o name cb cx s
  = match _events (get_obj s o) with
    | None => Ret () s
    | Some _ =>
        match eventsApi name [cb; cx] with
        | Some plan => each (λ c, off_n k o c.1 (arg 0 c.2) (arg 1 c.2)) plan s
        | None =>
            if negb (name_truthy name) && negb (truthy cb) && negb (truthy cx)
            then Ret () (set_events o None s)
            else each (off_name o cb cx)
                   (if name_truthy name then [key_of name] else event_names s o) s
        end
    end.
Proof. done. Qed.

(** Three levels are enough for the calls through [eventsApi]: an event
    map calls the method on strings, a list of names on single names, and
    a single name calls nothing. *)
Lemma on_n_single k o e cb cx s :
  has_space e = false → on_n (S k) o (NStr e) cb cx s = on_n 1 o (NStr e) cb cx s.
Proof. intros He. rewrite !on_n_S. by rewrite (eventsApi_single e _ He). Qed.

Lemma plan_of_list n rest plan :
  eventsApi (NStr n) rest = Some plan →
  Forall (λ c, ∃ p, c = (NStr p, rest) ∧ has_space p = false) plan.
Proof.
  unfold eventsApi. destruct (String.eqb n ""); [done|].
  destruct (has_space n); [|done]. intros [= <-].
  apply Forall_fmap. eapply Forall_impl; [apply split_ws_pieces|]. simpl. eauto.
Qed.

Lemma on_n_string k o n cb cx s :
  on_n (S (S k)) o (NStr n) cb cx s = on_n 2 o (NStr n) cb cx s.
Proof.
  rewrite (on_n_S (S k)), (on_n_S 1).
  destruct (eventsApi (NStr n) [cb; cx]) as [plan|] eqn:E; [|done]. f_equal.
  apply (each_ext_Forall _ _ _ _ _ (plan_of_list _ _ _ E)).
  intros c s' (p & -> & Hp). cbn [fst snd]. by rewrite (on_n_single k).
Qed.

Lemma on_n_enough k o name cb cx s : on_n (3 + k) o name cb cx s = on o name cb cx s.
Proof.
  unfold on. change (3 + k) with (S (S (S k))). destruct name as [|n|m];
    [done|by rewrite (on_n_string (S k)), (on_n_string 1)|].
  rewrite (on_n_S (S (S k))), (on_n_S 2). cbn [eventsApi]. f_equal.
  apply (each_ext_Forall (λ c, ∃ p, c.1 = NStr p)).
  - apply Forall_fmap, Forall_forall. simpl. eauto.
  - intros [c1 c2] s' [p Hp]. simpl in Hp. subst c1. cbn [fst snd].
    by rewrite (on_n_string k).
Qed.

Lemma once_n_single k o e cb cx s :
  has_space e = false → once_n (S k) o (NStr e) cb cx s = once_n 1 o (NStr e) cb cx s.
Proof. intros He. rewrite !once_n_S. by rewrite (eventsApi_single e _ He). Qed.

Lemma once_n_string k o n cb cx s :
  once_n (S (S k)) o (NStr n) cb cx s = once_n 2 o (NStr n) cb cx s.
Proof.
  rewrite (once_n_S (S k)), (once_n_S 1).
  destruct (eventsApi (NStr n) [cb; cx]) as [plan|] eqn:E; [|done]. f_equal.
  apply (each_ext_Forall _ _ _ _ _ (plan_of_list _ _ _ E)).
  intros c s' (p & -> & Hp). cbn [fst snd]. by rewrite (once_n_single k).
Qed.

Lemma once_n_enough k o name cb cx s : once_n (3 + k) o name cb cx s = once o name cb cx s.
Proof.
  unfold once. change (3 + k) with (S (S (S k))). destruct name as [|n|m];
    [done|by rewrite (once_n_string (S k)), (once_n_string 1)|].
  rewrite (once_n_S (S (S k))), (once_n_S 2). cbn [eventsApi]. f_equal.
  apply (each_ext_Forall (λ c, ∃ p, c.1 = NStr p)).
  - apply Forall_fmap, Forall_forall. simpl. eauto.
  - intros [c1 c2] s' [p Hp]. simpl in Hp. subst c1. cbn [fst snd].
    by rewrite (once_n_string k).
Qed.

Lemma off_n_single k o e cb cx s :
  has_space e = false → off_n (S k) o (NStr e) cb cx s = off o (NStr e) cb cx s.
Proof. intros He. unfold off. rewrite !off_n_S. by rewrite (eventsApi_single e _ He). Qed.

Lemma off_n_string k o n cb cx s :
  off_n (S (S k)) o (NStr n) cb cx s = off_n 2 o (NStr n) cb cx s.
Proof.
  rewrite (off_n_S (S k)), (off_n_S 1). destruct (_events (get_obj s o)); [|done].
  destruct (eventsApi (NStr n) [cb; cx]) as [plan|] eqn:E; [|done].
  apply (each_ext_Forall _ _ _ _ _ (plan_of_list _ _ _ E)).
  intros c s' (p & -> & Hp). cbn [fst snd].
  by rewrite (off_n_single k), (off_n_single 0).
Qed.

Lemma off_n_enough k o name cb cx s : off_n (3 + k) o name cb cx s = off o name cb cx s.
Proof.
  unfold off. change (3 + k) with (S (S (S k))). destruct name as [|n|m];
    [done|by rewrite (off_n_string (S k)), (off_n_string 1)|].
  rewrite (off_n_S (S (S k))), (off_n_S 2). destruct (_events (get_obj s o)); [|done].
  cbn [eventsApi].
  apply (each_ext_Forall (λ c, ∃ p, c.1 = NStr p)).
  - apply Forall_fmap, Forall_forall. simpl. eauto.
  - intros [c1 c2] s' [p Hp]. simpl in Hp. subst c1. cbn [fst snd].
    by rewrite (off_n_string k).
Qed.

Lemma trigger_n_S k callf o name args s :
  trigger_n (S k) callf o name args s
  = match _events (get_obj s o) with
    | None => Ret () s
    | Some tbl =>
        match eventsApi name args with
        | Some plan => each (λ c, trigger_n k callf o c.1 c.2) plan s
        | None =>
            bind (trigger_events callf tbl (key_of name) args s)
                 (λ _ s1,
                    match tbl !! "all" with
                    | Some a => triggerEvents callf a (name_value name :: args) s1
                    | None => Ret () s1
                    end)
        end
    end.
Proof. done. Qed.

Lemma trigger_n_single k callf o e args s :
  has_space e = false →
  trigger_n (S k) callf o (NStr e) args s = trigger_n 1 callf o (NStr e) args s.
Proof. intros He. rewrite !trigger_n_S. by rewrite (eventsApi_single e _ He). Qed.

Lemma trigger_n_string k callf o n args s :
  trigger_n (S (S k)) callf o (NStr n) args s = trigger_n 2 callf o (NStr n) args s.
Proof.
  rewrite (trigger_n_S (S k)), (trigger_n_S 1). destruct (_events (get_obj s o)); [|done].
  destruct (eventsApi (NStr n) args) as [plan|] eqn:E; [|done].
  apply (each_ext_Forall _ _ _ _ _ (plan_of_list _ _ _ E)).
  intros c s' (p & -> & Hp). cbn [fst snd]. by rewrite (trigger_n_single k).
Qed.

Lemma trigger_n_enough k callf o name args s :
  trigger_n (3 + k) callf o name args s = trigger callf o name args s.
Proof.
  unfold trigger. change (3 + k) with (S (S (S k))). destruct name as [|n|m];
    [done|by rewrite (trigger_n_string (S k)), (trigger_n_string 1)|].
  rewrite (trigger_n_S (S (S k))), (trigger_n_S 2). destruct (_events (get_obj s o)); [|done].
  cbn [eventsApi].
  apply (each_ext_Forall (λ c, ∃ p, c.1 = NStr p)).
  - apply Forall_fmap, Forall_forall. simpl. eauto.
  - intros [c1 c2] s' [p Hp]. simpl in Hp. subst c1. cbn [fst snd].
    by rewrite (trigger_n_string k).
Qed.

(* ===================================================================== *)
(** ** off with a list of names *)
(* ===================================================================== *)

Lemma foldl_fmap_state {X Y} (f : state → Y → state) (g : X → Y) (l : list X) s :
  foldl f s (g <$> l) = foldl (λ s x, f s (g x)) s l.
Proof. revert s. induction l as [|x l IH]; intros s; simpl; [done|]. apply IH. Qed.

Lemma each_fmap {X Y} (f : Y → state → outcome ()) (g : X → Y) (l : list X) s :
  each f (g <$> l) s = each (λ x, f (g x)) l s.
Proof.
  revert s. induction l as [|x l IH]; intros s; simpl; [done|].
  destruct (f (g x) s); simpl; [apply IH|done|done].
Qed.

Lemma off_multi o n cb cx s :
  has_space n = true →
  off o (NStr n) cb cx s
  = match _events (get_obj s o) with
    | None => Ret () s
    | Some _ => each (λ p, off o (NStr p) cb cx) (split_ws n) s
    end.
Proof.
  intros Hn. unfold off at 1. rewrite off_n_S. destruct (_events (get_obj s o)); [|done].
  unfold eventsApi. rewrite Hn.
  destruct (String.eqb_spec n "") as [->|_]; [done|].
  rewrite each_fmap. cbn [fst snd].
  apply (each_ext_Forall (λ p, has_space p = false)); [apply split_ws_pieces|].
  intros p s' Hp. by apply (off_n_single 1).
Qed.

Lemma post_ret {A} (R : state → state → Prop) s (m : outcome A) a s' :
  m = Ret a s' → post R s m → R s s'.
Proof. by intros ->. Qed.

Lemma post_exn {A} (R : state → state → Prop) s (m : outcome A) ex s' :
  m = Exn ex s' → post R s m → R s s'.
Proof. by intros ->. Qed.

Lemma remaining_idem s cb cx l :
  remaining s cb cx (remaining s cb cx l) = remaining s cb cx l.
Proof.
  unfold remaining. destruct (negb (truthy cb) && negb (truthy cx)); [done|].
  rewrite list_filter_filter. apply list_filter_iff. tauto.
Qed.

Lemma aims_single name r e' :
  eventsApi name r = None →
  aims name e' = true ↔ name_truthy name = false ∨ e' = key_of name.
Proof.
  destruct name as [|n|m]; simpl; [tauto| |done].
  destruct (String.eqb n "") eqn:En; simpl; [tauto|].
  destruct (has_space n); [done|]. intros _.
  rewrite String.eqb_eq. split; [by right; subst|]. by intros [|]; subst.
Qed.

Lemma off_pieces_bucket o cb cx ps s :
  Forall (λ p, has_space p = false) ps → no_empty_buckets s →
  Forall (λ p, inherited_nonempty p = false ∨ (truthy cb = false ∧ truthy cx = false)) ps →
  ∃ s',
    each (λ p, off o (NStr p) cb cx) ps s = Ret () s'
    ∧ ∀ o' e',
        bucket s' o' e'
        = if bool_decide (o' = o) && existsb (λ p, String.eqb p "" || String.eqb p e') ps
          then remaining s cb cx (bucket s o' e')
          else bucket s o' e'.
Proof.
  intros Hps. revert s. induction Hps as [|p ps Hp Hps IH]; intros s Hne Hsafe.
  - exists s. split; [done|]. intros o' e'. cbn [existsb]. by rewrite andb_false_r.
  - apply Forall_cons in Hsafe as [Hsafe1 Hsafe].
    destruct (off_bucket o (NStr p) cb cx s) as (s1 & Hoff & Hb1);
      [by apply eventsApi_single|done| |].
    { intros _. cbn [key_of].
      destruct Hsafe1 as [H|[H1 H2]]; [by apply off_throws_plain|by apply off_throws_none]. }
    pose proof (post_ret _ s _ _ _ Hoff (r_off _ no_empty_respected o (NStr p) cb cx s) Hne)
      as Hne1.
    pose proof (post_ret _ s _ _ _ Hoff (off_frame_off o (NStr p) cb cx s))
      as (_ & Honces & _).
    destruct (IH s1 Hne1 Hsafe) as (s' & Hrun & Hb).
    exists s'. split; [cbn [each]; by rewrite Hoff|].
    intros o' e'. rewrite Hb. rewrite (remaining_onces s s1 cb cx _ Honces). rewrite Hb1.
    cbn [existsb key_of name_truthy].
    destruct (bool_decide (o' = o)) eqn:Ho; simpl.
    2:{ apply bool_decide_eq_false in Ho. rewrite decide_False by (intros [? _]; done). done. }
    apply bool_decide_eq_true in Ho as ->.
    destruct (String.eqb p "" || String.eqb p e') eqn:Hpe; simpl.
    + rewrite decide_True.
      * destruct (existsb _ ps); [apply remaining_idem|done].
      * split; [done|]. apply orb_true_iff in Hpe as [H|H]; apply String.eqb_eq in H.
        -- left. subst p. done.
        -- right. done.
    + rewrite decide_False; [done|]. apply orb_false_elim in Hpe as [H1 H2].
      apply String.eqb_neq in H1, H2. intros [_ [H|H]].
      * simpl in H. apply negb_false_iff, String.eqb_eq in H. done.
      * simpl in H. done.
Qed.

Lemma off_safe_pieces cb cx name :
  off_safe cb cx name →
  Forall (λ p, inherited_nonempty p = false ∨ (truthy cb = false ∧ truthy cx = false))
         (pieces name).
Proof.
  intros [H|H].
  - apply Forall_forall. auto.
  - eapply Forall_impl; [exact H|]. auto.
Qed.

(** [off] for any name that is not an event map, when no turn throws. *)
Lemma off_bucket_names o name cb cx s :
  isMap name = false → no_empty_buckets s → off_safe cb cx name →
  ∃ s',
    off o name cb cx s = Ret () s'
    ∧ ∀ o' e',
        bucket s' o' e'
        = if bool_decide (o' = o) && aims name e'
          then remaining s cb cx (bucket s o' e')
          else bucket s o' e'.
Proof.
  intros Hm Hne Hsafe%off_safe_pieces.
  destruct (eventsApi name [cb; cx]) as [plan|] eqn:Hapi.
  - destruct name as [|n|m]; [done| |done]. unfold eventsApi in Hapi.
    destruct (String.eqb n "") eqn:En; [done|]. destruct (has_space n) eqn:Hn; [|done].
    rewrite off_multi by done. cbn [aims pieces] in *. rewrite En, Hn in *.
    destruct (_events (get_obj s o)) eqn:Hev.
    + apply off_pieces_bucket; [apply split_ws_pieces|done|done].
    + exists s. split; [done|]. intros o' e'.
      destruct (bool_decide (o' = o)) eqn:Ho; [|done]. apply bool_decide_eq_true in Ho as ->.
      assert (bucket s o e' = []) as ->; [by unfold bucket, addr; rewrite Hev|].
      rewrite remaining_nil. by destruct (existsb _ _).
  - destruct (off_bucket o name cb cx s Hapi Hne) as (s' & Hoff & Hb).
    { intros Hn. destruct name as [|n|m]; [done| |done]. cbn [key_of pieces] in *.
      unfold eventsApi in Hapi. cbn [name_truthy] in Hn.
      destruct (String.eqb n ""); [done|]. destruct (has_space n); [done|].
      apply Forall_cons in Hsafe as [[H|[H1 H2]] _];
        [by apply off_throws_plain|by apply off_throws_none]. }
    exists s'. split; [done|]. intros o' e'. rewrite Hb.
    pose proof (aims_single name [cb; cx] e' Hapi) as Ha.
    destruct (decide (o' = o ∧ (name_truthy name = false ∨ e' = key_of name))) as [[-> H]|N].
    + rewrite bool_decide_eq_true_2 by done. apply Ha in H. by rewrite H.
    + destruct (bool_decide (o' = o)) eqn:Ho; [|done]. apply bool_decide_eq_true in Ho.
      destruct (aims name e') eqn:Hae; [|done]. exfalso. apply N. split; [done|]. by apply Ha.
Qed.

(* ===================================================================== *)
(** ** Reachable states *)
(* ===================================================================== *)

(** Whatever program the caller runs from the state at load time, with
    whatever callbacks, the state it leaves is well formed. *)
Lemma reachable_wf body fuel p : holds_after wf (run body fuel p init).
Proof. apply (post_keeps wf init); [apply wf_init|apply (r_run _ wf_respected)]. Qed.

Lemma reachable_chan_wf body fuel p : holds_after chan_wf (run body fuel p init).
Proof.
  apply (post_keeps chan_wf init); [apply chan_wf_init|apply (r_run _ chan_wf_respected)].
Qed.

(* ===================================================================== *)
(** ** The embedding at work *)
(* ===================================================================== *)

(** [on("load:success", cb, ctx)] then [emit("load:success", 42)] invokes
    [cb] on [ctx] with [42]. *)
Example emit_end_to_end :
  log_of (bind (bus_on "load:success" (VFn (FUser 1)) (VObj 3) init)
               (λ _ s, emit (call quiet 1) "load:success" [VNum 42] s))
  = Some [Invoke 1 (VObj 3) [VNum 42]].
Proof. vm_compute. reflexivity. Qed.

(** A listener on ["all"] receives the name of the event before the
    arguments. *)
Example all_listener_gets_name :
  log_of (trigger (call quiet 1) 0 (NStr "change") [VNum 1; VNum 2]
            (state_of (on 0 (NStr "all") (VFn (FUser 1)) VUndef init) init))
  = Some [Invoke 1 (VEm 0) [VStr "change"; VNum 1; VNum 2]].
Proof. vm_compute. reflexivity. Qed.

(** A list of names registers under each name; a leading space also
    registers under the empty name. *)
Example on_list_of_names :
  let s := state_of (on 0 (NStr " a b") (VFn (FUser 1)) VUndef init) init in
  id <$> bucket s 0 "" = ["#1000"] ∧ id <$> bucket s 0 "a" = ["#1001"]
  ∧ id <$> bucket s 0 "b" = ["#1002"].
Proof. vm_compute. repeat split; reflexivity. Qed.

(** An event map registers each callback under its key, the second
    argument being the context. *)
Example on_event_map :
  let s := state_of (on 0 (NMap [("a", VFn (FUser 1)); ("b", VFn (FUser 2))])
                       (VObj 7) VUndef init) init in
  bucket s 0 "a" = [Listener (VFn (FUser 1)) (VObj 7) (VObj 7) "#1000"]
  ∧ bucket s 0 "b" = [Listener (VFn (FUser 2)) (VObj 7) (VObj 7) "#1001"].
Proof. vm_compute. split; reflexivity. Qed.

(** [off()] empties the registry; [emit] to a channel that was never
    created, or was removed, does nothing. *)
Example off_without_arguments :
  let s := state_of (on 0 (NStr "a b") (VFn (FUser 1)) VUndef init) init in
  _events (get_obj (state_of (off 0 NAbsent VUndef VUndef s) s) 0) = None.
Proof. vm_compute. reflexivity. Qed.

Example emit_to_removed_channel :
  log_of (bind (bus_on "chanA:evt" (VFn (FUser 1)) VUndef init)
               (λ _ s, bind (removeChannel (ChStr "chanA") s)
                            (λ _ s, emit (call quiet 1) "chanA:evt" [] s)))
  = Some [].
Proof. vm_compute. reflexivity. Qed.

(** [addChannel] on an existing channel keeps its listeners. *)
Example addChannel_idempotent :
  log_of (bind (bus_on "chanA:evt" (VFn (FUser 1)) VUndef init)
               (λ _ s, bind (addChannel (ChStr "chanA") s)
                            (λ _ s, emit (call quiet 1) "chanA:evt" [] s)))
  = Some [Invoke 1 VBus []].
Proof. vm_compute. reflexivity. Qed.

(** [listenTo] registers on the source with the listener as context and
    [stopListening] removes what it registered. *)
Example listenTo_then_stop :
  let s := state_of (listenTo 1 0 (NStr "evt") (VFn (FUser 1)) init) init in
  let s' := state_of (stopListening 1 None NAbsent VUndef s) s in
  bucket s 0 "evt" = [Listener (VFn (FUser 1)) (VEm 1) (VEm 1) "#1000"]
  ∧ _listeningTo (get_obj s 1) = Some {["l1" := 0]}
  ∧ bucket s' 0 "evt" = []
  ∧ _listeningTo (get_obj s' 1) = Some ∅.
Proof. vm_compute. repeat split; reflexivity. Qed.

(** A callback that throws stops the dispatch; the exception reaches the
    caller of [trigger]. *)
Example throwing_listener :
  let body := λ k (_ : value) (_ : list value) (_ : state),
                match k with 1 => PDo (SThrow (VStr "boom")) (λ _, PRet) | _ => PRet end in
  let s := state_of (on 0 (NStr "e") (VFn (FUser 2)) VUndef
              (state_of (on 0 (NStr "e") (VFn (FUser 1)) VUndef init) init)) init in
  ∃ s', trigger (call body 2) 0 (NStr "e") [] s = Exn (Thrown (VStr "boom")) s'
        ∧ calls s' = [Invoke 1 (VEm 0) []].
Proof. eexists. vm_compute. split; reflexivity. Qed.

(** The names of [Object.prototype]: [on] finds a function where it
    expects an array and throws after it has moved the counter; [trigger]
    and [off] with a callback throw on a member that takes a parameter and
    do nothing on one that takes none; the router finds a channel that is
    no registry. *)
Example inherited_names :
  let s := state_of (on 0 (NStr "x") (VFn (FUser 1)) VUndef init) init in
  (∃ s', on 0 (NStr "toString") (VFn (FUser 1)) VUndef init = Exn TypeError s'
         ∧ maxHashId s' = 1001%N ∧ bucket s' 0 "toString" = [])
  ∧ trigger (call quiet 1) 0 (NStr "constructor") [] s = Exn TypeError s
  ∧ trigger (call quiet 1) 0 (NStr "toString") [] s = Ret () s
  ∧ off 0 (NStr "constructor x") (VFn (FUser 1)) VUndef s = Exn TypeError s
  ∧ off 0 (NStr "constructor") VUndef VUndef s = Ret () s
  ∧ addChannel (ChStr "constructor") init = Ret () init
  ∧ removeChannel (ChStr "toString") init = Exn TypeError init
  ∧ bus_on "constructor:x" (VFn (FUser 1)) VUndef init = Exn TypeError init
  ∧ emit (call quiet 1) "constructor:x" [] init = Exn TypeError init.
Proof. split; [eexists|]; vm_compute; repeat split; reflexivity. Qed.

(** A [once] wrapper hands a boxed [this] to the original when the
    context is a primitive. *)
Example once_boxes_this :
  log_of (trigger (call quiet 2) 0 (NStr "e") []
            (state_of (once 0 (NStr "e") (VFn (FUser 1)) (VNum 5) init) init))
  = Some [Fire 0 (VBox 0 (PNum 5)) []; Invoke 1 (VBox 0 (PNum 5)) []].
Proof. vm_compute. reflexivity. Qed.

(** [listenTo], [listenToOnce] and [stopListening] need no fuel. *)
Lemma ignore_total {A} (m : outcome A) : m ≠ Fuel → ignore m ≠ Fuel.
Proof. by destruct m. Qed.

Lemma listen_total impl o src name cb s :
  (∀ o name cb cx s, impl o name cb cx s ≠ Fuel) →
  listen impl o src name cb s ≠ Fuel.
Proof.
  intros H. unfold listen.
  destruct (_listenId _); apply ignore_total, H.
Qed.

Lemma stop_one_total o remove name cb entry s : stop_one o remove name cb entry s ≠ Fuel.
Proof.
  unfold stop_one. pose proof (off_total entry.2 name cb (VEm o) s) as H.
  by destruct (off entry.2 name cb (VEm o) s).
Qed.

Lemma stopListening_total o src name cb s : stopListening o src name cb s ≠ Fuel.
Proof.
  unfold stopListening. destruct (_listeningTo _); [|done].
  apply each_total. intros. apply stop_one_total.
Qed.


Lemma channel_at_missing s c :
  channel_at s c = ChanMissing ↔ channels s !! c = None ∧ inherited c = None.
Proof.
  unfold channel_at. destruct (channels s !! c); [|destruct (inherited c)];
    split; intros; destruct_and?; simplify_eq; done.
Qed.

Lemma channel_at_inherited s c :
  channel_at s c = ChanInherited ↔ channels s !! c = None ∧ inherited c ≠ None.
Proof.
  unfold channel_at. destruct (channels s !! c); [|destruct (inherited c)];
    split; intros; destruct_and?; simplify_eq; done.
Qed.

Lemma bucket_nonempty_addr s o e : bucket s o e ≠ [] → addr s o e ≠ None.
Proof. unfold bucket. by destruct (addr s o e). Qed.

(* ===================================================================== *)
(** ** The claims of the specification *)
(* ===================================================================== *)

(** C5, as stated, fails: the compound name is cut at every colon and the
    event name is the second piece, so the router's [on("a:b:c", f)]
    registers in the channel ["a"] under the event ["b"], not ["b:c"]. *)
Lemma C5_counterexample :
  ∃ h s',
    bus_on "a:b:c" (VFn (FUser 1)) VUndef init = Ret (Some h) s'
    ∧ channels s' !! "a" = Some 0
    ∧ h_name h = NStr "b"
    ∧ bucket s' 0 "b" = [Listener (VFn (FUser 1)) VBus VBus "#1000"]
    ∧ bucket s' 0 "b:c" = [].
Proof. eexists _, _. split; [vm_compute; reflexivity|]. vm_compute. by repeat split. Qed.

(** C5, amended: for a name with a colon, the router's [on], [once] and
    [emit], and [off] when the name does not start with ["@"], address the
    channel named by the text before the first colon and the event named
    by the text between the first colon and the next one, or by the whole
    remainder when there is no other colon; what follows a second colon is
    dropped. [off] tests the leading ["@"] first: such a name addresses the
    channel named by the text between that ["@"] and the next one, colons
    included, and removes it. *)
Theorem C5_compound_name (name : string) :
  has_char colon name = true →
  ∃ channel ev,
    has_char colon channel = false
    ∧ has_char colon ev = false
    ∧ (name = channel +:+ ":" +:+ ev
       ∨ ∃ dropped, name = channel +:+ ":" +:+ ev +:+ ":" +:+ dropped)
    ∧ (∀ cb cx s,
         bus_on name cb cx s
         = bind (addChannel (ChStr channel) s)
                (λ _ s1, match channel_at s1 channel with
                         | ChanRegistry o =>
                             on o (NStr ev) cb (if truthy cx then cx else VBus) s1
                         | ChanInherited | ChanMissing => Exn TypeError s1
                         end))
    ∧ (∀ cb cx s,
         bus_once name cb cx s
         = bind (addChannel (ChStr channel) s)
                (λ _ s1, match channel_at s1 channel with
                         | ChanRegistry o =>
                             once o (NStr ev) cb (if truthy cx then cx else VBus) s1
                         | ChanInherited | ChanMissing => Exn TypeError s1
                         end))
    ∧ (∀ callf args s,
         emit callf name args s
         = match channel_at s channel with
           | ChanRegistry o => trigger callf o (NStr ev) args s
           | ChanInherited => Exn TypeError s
           | ChanMissing => Ret () s
           end)
    ∧ (∀ cb s,
         String.get 0 name ≠ Some at_sign →
         bus_off (Some name) cb s
         = match channel_at s channel with
           | ChanRegistry o => off o (NStr ev) (if truthy cb then cb else VUndef) VUndef s
           | ChanInherited => Exn TypeError s
           | ChanMissing => Ret () s
           end)
    ∧ (String.get 0 name = Some at_sign →
       ∃ target,
         has_char at_sign target = false
         ∧ (name = "@" +:+ target ∨ ∃ rest, name = "@" +:+ target +:+ "@" +:+ rest)
         ∧ ∀ cb s,
             bus_off (Some name) cb s
             = match channel_at s target with
               | ChanRegistry _ | ChanInherited => ignore (removeChannel (ChStr target) s)
               | ChanMissing => Ret () s
               end).
Proof.
  intros H.
  assert (∃ channel ev,
            resolve name = (channel, NStr ev)
            ∧ has_char colon channel = false ∧ has_char colon ev = false
            ∧ (name = channel +:+ ":" +:+ ev
               ∨ ∃ dropped, name = channel +:+ ":" +:+ ev +:+ ":" +:+ dropped))
    as (channel & ev & Hres & Hc & He & Hname).
  { unfold resolve, split_char. rewrite H.
    destruct (split_char_go_first colon name "" H) as (pre & post & -> & Hpre & Hs).
    rewrite Hs. simpl. exists pre.
    destruct (has_char colon post) eqn:Hpost.
    - destruct (split_char_go_first colon post "" Hpost) as (ev & rest & -> & Hev & Hs').
      rewrite Hs'. simpl. exists ev. repeat split; try done. right. by exists rest.
    - rewrite (split_char_go_none colon post "" Hpost). simpl.
      exists post. repeat split; try done. by left. }
  exists channel, ev. do 3 (split; [done|]).
  split; [|split; [|split; [|split]]].
  - intros cb cx s. unfold bus_on, bus_register. by rewrite Hres.
  - intros cb cx s. unfold bus_once, bus_register. by rewrite Hres.
  - intros callf args s. unfold emit. by rewrite Hres.
  - intros cb s Hat. unfold bus_off. rewrite bool_decide_eq_false_2 by done.
    rewrite Hres. destruct (channel_at s channel); try done. by destruct (truthy cb).
  - intros Hat. destruct name as [|a rest]; [done|]. simpl in Hat.
    injection Hat as ->.
    assert (∃ target, has_char at_sign target = false
                      ∧ (rest = target ∨ ∃ more, rest = target +:+ "@" +:+ more)
                      ∧ split_char at_sign (String at_sign rest) !! 1 = Some target)
      as (target & Ht & Hrest & Hsp).
    { unfold split_char. simpl. destruct (has_char at_sign rest) eqn:Hr.
      - destruct (split_char_go_first at_sign rest "" Hr) as (pre & post & -> & Hpre & Hs).
        rewrite Hs. exists pre. split; [done|]. split; [|done]. right. by exists post.
      - rewrite (split_char_go_none at_sign rest "" Hr). exists rest. by repeat split; try left. }
    exists target. split; [done|]. split.
    + destruct Hrest as [->|[more ->]]; [by left|right; by exists more].
    + intros cb s. unfold bus_off. rewrite bool_decide_eq_true_2 by done. by rewrite Hsp.
Qed.

Lemma C5_compound_name_witness :
  ∃ channel ev,
    has_char colon channel = false
    ∧ has_char colon ev = false
    ∧ ("load:success" = channel +:+ ":" +:+ ev
       ∨ ∃ dropped, "load:success" = channel +:+ ":" +:+ ev +:+ ":" +:+ dropped)
    ∧ (∀ callf args s,
         emit callf "load:success" args s
         = match channel_at s channel with
           | ChanRegistry o => trigger callf o (NStr ev) args s
           | ChanInherited => Exn TypeError s
           | ChanMissing => Ret () s
           end).
Proof.
  destruct (C5_compound_name "load:success" eq_refl)
    as (channel & ev & H1 & H2 & H3 & _ & _ & H4 & _).
  by exists channel, ev.
Defined.




(** C9: in a state where no bucket is empty, [on], [once], [off],
    [listenTo], [stopListening], [trigger] and any program of calls,
    callbacks included, leave a state where no bucket is empty, whether
    they return or throw: a bucket whose last record goes is deleted from
    the table. The first five always return or throw. The state at load
    time has no bucket at all. *)
Theorem C9_no_empty_bucket body (s : state) :
  no_empty_buckets s →
  (∀ o name cb cx,
     holds_after no_empty_buckets (on o name cb cx s) ∧ on o name cb cx s ≠ Fuel)
  ∧ (∀ o name cb cx,
       holds_after no_empty_buckets (once o name cb cx s) ∧ once o name cb cx s ≠ Fuel)
  ∧ (∀ o name cb cx,
       holds_after no_empty_buckets (off o name cb cx s) ∧ off o name cb cx s ≠ Fuel)
  ∧ (∀ o src name cb,
       holds_after no_empty_buckets (listenTo o src name cb s)
       ∧ listenTo o src name cb s ≠ Fuel)
  ∧ (∀ o src name cb,
       holds_after no_empty_buckets (stopListening o src name cb s)
       ∧ stopListening o src name cb s ≠ Fuel)
  ∧ (∀ fuel o name args,
       holds_after no_empty_buckets (trigger (call body fuel) o name args s))
  ∧ (∀ fuel p, holds_after no_empty_buckets (run body fuel p s)).
Proof.
  intros H. pose proof no_empty_respected as HR.
  split; [|split; [|split; [|split; [|split; [|split]]]]]; intros.
  - split; [|apply on_total]. apply (post_keeps _ s); [done|]. apply (r_on _ HR).
  - split; [|apply once_total]. apply (post_keeps _ s); [done|]. apply (r_once _ HR).
  - split; [|apply off_total]. apply (post_keeps _ s); [done|]. apply (r_off _ HR).
  - split; [|apply listen_total, on_total]. apply (post_keeps _ s); [done|].
    apply (r_listen _ HR on). apply (r_on _ HR).
  - split; [|apply stopListening_total]. apply (post_keeps _ s); [done|].
    apply (r_stopListening _ HR).
  - apply (post_keeps _ s); [done|]. apply (r_trigger _ HR). intros. apply (r_call _ HR).
  - apply (post_keeps _ s); [done|]. apply (r_run _ HR).
Qed.

Lemma C9_no_empty_bucket_witness :
  let s := state_of (on 0 (NStr "evt") (VFn (FUser 1)) VUndef init) init in
  no_empty_buckets init
  ∧ no_empty_buckets s
  ∧ holds_after no_empty_buckets (off 0 (NStr "evt") (VFn (FUser 1)) VUndef s).
Proof.
  intros s.
  assert (no_empty_buckets init) as H0 by done.
  split; [exact H0|].
  destruct (C9_no_empty_bucket quiet init H0) as (Hon & _).
  assert (no_empty_buckets s) as Hs by exact (proj1 (Hon 0 (NStr "evt") (VFn (FUser 1)) VUndef)).
  split; [exact Hs|].
  destruct (C9_no_empty_bucket quiet s Hs) as (_ & _ & Hoff & _).
  apply Hoff.
Defined.

(** C3, as stated, fails: a context argument that is given but falsy, such
    as [0], is not compared: [off("e", f, 0)] removes the record that
    [on("e", f, ctx)] registered with another context. *)
Lemma C3_counterexample :
  let s := state_of (on 0 (NStr "e") (VFn (FUser 1)) (VObj 5) init) init in
  bucket s 0 "e" = [Listener (VFn (FUser 1)) (VObj 5) (VObj 5) "#1000"]
  ∧ ∃ s', off 0 (NStr "e") (VFn (FUser 1)) (VNum 0) s = Ret () s'
          ∧ bucket s' 0 "e" = [].
Proof. split; [vm_compute; reflexivity|]. eexists. split; vm_compute; reflexivity. Qed.

(** C3, amended: [off(name, cb, context)] with a function [cb] and a name
    that is a single name, a list of names or omitted, no piece of which
    names a member of [Object.prototype] that takes a parameter, returns,
    and in every bucket it is aimed at (those of the names, or all of them
    when the name is omitted or has an empty piece) it removes exactly the
    records whose callback is [cb] or is a [once] wrapper of [cb] and,
    when the context is truthy, whose context is that one; the other
    records stay, in their order, and so does every other bucket. *)
Theorem C3_off_removes_targeted (o : nat) (name : ename) (f : fn) (cx : value) (s : state) :
  isMap name = false → no_empty_buckets s →
  Forall (λ p, inherited_nonempty p = false) (pieces name) →
  ∃ s',
    off o name (VFn f) cx s = Ret () s'
    ∧ ∀ o' e',
        bucket s' o' e'
        = if bool_decide (o' = o) && aims name e'
          then filter (λ ev, ¬ targeted s (VFn f) cx ev) (bucket s o' e')
          else bucket s o' e'.
Proof.
  intros Hm Hne Hp.
  destruct (off_bucket_names o name (VFn f) cx s Hm Hne) as (s' & Hoff & Hb);
    [by right|].
  exists s'. split; [done|]. intros o' e'. rewrite Hb.
  destruct (bool_decide (o' = o) && aims name e'); [|done]. apply remaining_targeted.
Qed.

Lemma C3_off_removes_targeted_witness :
  let s0 := state_of (on 0 (NStr "evt") (VFn (FUser 1)) (VObj 5) init) init in
  let s1 := state_of (on 0 (NStr "evt") (VFn (FUser 2)) VUndef s0) s0 in
  let s := state_of (once 0 (NStr "evt") (VFn (FUser 1)) VUndef s1) s1 in
  bucket s 0 "evt"
  = [Listener (VFn (FUser 1)) (VObj 5) (VObj 5) "#1000";
     Listener (VFn (FUser 2)) VUndef (VEm 0) "#1001";
     Listener (VFn (FOnce 0)) VUndef (VEm 0) "#1002"]
  ∧ ∃ s', off 0 (NStr "evt") (VFn (FUser 1)) VUndef s = Ret () s'
          ∧ bucket s' 0 "evt" = [Listener (VFn (FUser 2)) VUndef (VEm 0) "#1001"].
Proof.
  intros s0 s1 s. split; [vm_compute; reflexivity|].
  destruct (C3_off_removes_targeted 0 (NStr "evt") (FUser 1) VUndef s) as (s' & Hoff & Hb).
  - reflexivity.
  - apply post_state_of; [apply post_state_of; [apply post_state_of; [done|]|]|].
    + apply (r_on _ no_empty_respected).
    + apply (r_on _ no_empty_respected).
    + apply (r_once _ no_empty_respected).
  - vm_compute. by repeat constructor.
  - exists s'. split; [exact Hoff|]. rewrite Hb. vm_compute. reflexivity.
Defined.

(** C1, as stated, fails for the event ["all"]: the bucket of ["all"] is
    dispatched a second time by the same call, so a listener registered on
    ["all"] is invoked twice by [trigger("all", 7)]. *)
Lemma C1_counterexample :
  let s := state_of (on 0 (NStr "all") (VFn (FUser 1)) VUndef init) init in
  bucket s 0 "all" = [Listener (VFn (FUser 1)) VUndef (VEm 0) "#1000"]
  ∧ log_of (trigger (call quiet 1) 0 (NStr "all") [VNum 7] s)
    = Some [Invoke 1 (VEm 0) [VNum 7]; Invoke 1 (VEm 0) [VStr "all"; VNum 7]]
  ∧ log_of (trigger (call quiet 1) 0 (NStr "all") [VNum 7] s)
    ≠ Some [Invoke 1 (VEm 0) [VNum 7]].
Proof. vm_compute. split; [reflexivity|]. split; [reflexivity|discriminate]. Qed.

(** C1, amended: for a single event name [e] other than ["all"], [on]
    with a callback puts a new record at the end of the bucket, unless the
    table has no bucket of [e] and [e] names a member of
    [Object.prototype]: then it throws a [TypeError]. One
    [trigger(e, args...)] on a table that has a bucket of [e], or whose
    [e] names no member of [Object.prototype] that takes a parameter,
    invokes the callback of each record the bucket holds when the call
    starts exactly once, in that order, on the record's [ctx] and with
    exactly [args], whatever the callbacks do to the registry; after them
    it invokes only the listeners of the bucket ["all"], a different
    array, with [e] put before [args]. With callbacks that call nothing
    the call returns and the log grows by exactly these invocations. On a
    table without a bucket of [e], where [e] names a member of
    [Object.prototype] that takes a parameter, [trigger] throws a
    [TypeError] and invokes nothing. *)
Theorem C1_trigger_in_registration_order body fuel (o : nat) (e : string)
    (args : list value) (s : state) :
  has_space e = false → e ≠ "all" → wf s →
  (∀ cb cx, truthy cb = true →
     if on_throws s o e then on o (NStr e) cb cx s = Exn TypeError (on_fail o s)
     else ∃ h s', on o (NStr e) cb cx s = Ret (Some h) s'
                  ∧ bucket s' o e = bucket s o e ++ [new_listener o cb cx s])
  ∧ (if trigger_throws s o e
     then bucket s o e = []
          ∧ trigger (call body fuel) o (NStr e) args s = Exn TypeError s
     else trigger (call body fuel) o (NStr e) args s
          = bind (invoke_all (call body fuel) (invocations args (bucket s o e)) s)
                 (λ _ s1, all_phase (call body fuel) s o (NStr e) args s1))
  ∧ (∀ a, addr s o e = Some a → all_array s o ≠ Some a)
  ∧ (trigger_throws s o e = false →
     Forall (inert body) (bucket s o e) → Forall (inert body) (bucket s o "all") →
     trigger (call body (S fuel)) o (NStr e) args s
     = Ret () (set_calls (λ c, c ++ entries args (bucket s o e)
                                 ++ entries (VStr e :: args) (bucket s o "all")) s)).
Proof.
  intros He Hall Hwf. split; [|split; [|split]].
  - intros cb cx Hcb. rewrite (on_single_cases o e cb cx s He Hcb).
    destruct (on_throws s o e); [done|]. eexists _, _. split; [done|].
    apply (bucket_on_own o (NStr e)).
  - rewrite (trigger_single_cases (call body fuel) o e args s);
      [|intros; apply r_call, extends_respected|done].
    destruct (trigger_throws s o e) eqn:Ht; [|done]. split; [|done].
    destruct (bucket s o e) eqn:Hb; [done|].
    rewrite trigger_throws_bucket in Ht; [done|by rewrite Hb].
  - intros a Ha Ha'. destruct (wf_inj s Hwf o e o "all" a Ha Ha') as [_ E]. done.
  - intros Ht H1 H2. by apply trigger_inert.
Qed.

Lemma C1_trigger_in_registration_order_witness :
  let s0 := state_of (on 0 (NStr "evt") (VFn (FUser 1)) VUndef init) init in
  let s := state_of (on 0 (NStr "evt") (VFn (FUser 2)) (VObj 9) s0) s0 in
  log_of (trigger (call quiet 1) 0 (NStr "evt") [VNum 7; VStr "x"] s)
  = Some [Invoke 1 (VEm 0) [VNum 7; VStr "x"]; Invoke 2 (VObj 9) [VNum 7; VStr "x"]].
Proof.
  intros s0 s.
  assert (wf s) as Hwf.
  { apply post_state_of; [apply post_state_of; [apply wf_init|]|];
      apply (r_on _ wf_respected). }
  destruct (C1_trigger_in_registration_order quiet 0 0 "evt" [VNum 7; VStr "x"] s)
    as (_ & _ & _ & H); [reflexivity|discriminate|exact Hwf|].
  rewrite H.
  - vm_compute. reflexivity.
  - vm_compute. reflexivity.
  - vm_compute. repeat constructor; eexists; (split; [reflexivity|reflexivity]).
  - vm_compute. constructor.
Defined.

(** C10: when the table has a bucket ["all"], [trigger("all", args...)]
    dispatches the array of that bucket twice: first the records it holds
    when the call starts, with [args], then the array again, as it is by
    then, with ["all"] put before [args]. The array then still starts
    with the records of the first dispatch, so each of them is invoked
    twice. *)
Theorem C10_trigger_all_twice body fuel (o a : nat) (args : list value) (s : state) :
  addr s o "all" = Some a →
  trigger (call body fuel) o (NStr "all") args s
  = bind (invoke_all (call body fuel) (invocations args (array_at s a)) s)
         (λ _ s1, invoke_all (call body fuel)
                    (invocations (VStr "all" :: args) (array_at s1 a)) s1)
  ∧ bucket s o "all" = array_at s a
  ∧ (∀ s1, invoke_all (call body fuel) (invocations args (array_at s a)) s = Ret () s1 →
           ∃ more, array_at s1 a = array_at s a ++ more)
  ∧ (Forall (inert body) (array_at s a) →
     trigger (call body (S fuel)) o (NStr "all") args s
     = Ret () (set_calls (λ c, c ++ entries args (array_at s a)
                                 ++ entries (VStr "all" :: args) (array_at s a)) s)).
Proof.
  intros Ha.
  assert (bucket s o "all" = array_at s a) as Hb by (by apply bucket_addr).
  assert (trigger_throws s o "all" = false) as Ht
    by (apply trigger_throws_own; by rewrite Ha).
  split; [|split; [done|split]].
  - rewrite trigger_single; [|intros; apply r_call, extends_respected|done|done].
    rewrite Hb. unfold all_phase, all_array. by rewrite Ha.
  - intros s1 H1.
    pose proof (post_invoke_all extends (call body fuel) (invocations args (array_at s a)) s
                  extends_respected (r_call _ extends_respected body fuel)) as Hp.
    rewrite H1 in Hp. simpl in Hp. unfold array_at in *.
    destruct (arrays s !! a) as [l|] eqn:Hl; [|by eexists].
    destruct (Hp a l Hl) as [more Hm]. exists more. by rewrite Hm.
  - intros Hin. rewrite trigger_inert; rewrite ?Hb; done.
Qed.

Lemma C10_trigger_all_twice_witness :
  let s := state_of (on 0 (NStr "all") (VFn (FUser 1)) VUndef init) init in
  log_of (trigger (call quiet 1) 0 (NStr "all") [VNum 7] s)
  = Some [Invoke 1 (VEm 0) [VNum 7]; Invoke 1 (VEm 0) [VStr "all"; VNum 7]].
Proof.
  intros s.
  destruct (C10_trigger_all_twice quiet 0 0 0 [VNum 7] s) as (_ & _ & _ & H);
    [reflexivity|].
  rewrite H.
  - vm_compute. reflexivity.
  - vm_compute. repeat constructor; eexists; (split; [reflexivity|reflexivity]).
Defined.






(** C4: an [on] that registers (a callback is given, and the table has a
    bucket of the name or the name is not that of a member of
    [Object.prototype]) returns a handle whose id it takes from the
    counter [maxHashId], which it increments and which nothing ever
    decrements, so the id differs from the id of every record registered
    before and from the id any later [on] will take; and in any later
    state where the bucket still holds the record with that id, the
    handle's [off()] returns and removes that record only: the bucket
    keeps all its other records in their order, those with the same
    callback and context included, and no other bucket changes. *)
Theorem C4_handle_off_removes_its_record body (o : nat) (name : ename) (cb cx : value)
    (s : state) :
  eventsApi name [cb; cx] = None → truthy cb = true → wf s →
  on_throws s o (key_of name) = false →
  let h := Handle (hash_key (maxHashId s)) name o in
  ∃ s1,
    on o name cb cx s = Ret (Some h) s1
    ∧ bucket s1 o (key_of name) = bucket s o (key_of name) ++ [new_listener o cb cx s]
    ∧ id (new_listener o cb cx s) = h_id h
    ∧ maxHashId s1 = N.succ (maxHashId s)
    ∧ (∀ n m, hash_key n = hash_key m → n = m)
    ∧ (∀ o' e' ev, ev ∈ bucket s o' e' → id ev ≠ h_id h)
    ∧ (∀ fuel p,
         holds_after (λ s2, (maxHashId s1 ≤ maxHashId s2)%N ∧ wf s2
                            ∧ hash_key (maxHashId s2) ≠ h_id h)
                     (run body fuel p s1))
    ∧ (∀ s2 l1 r l2,
         wf s2 → bucket s2 o (key_of name) = l1 ++ r :: l2 → id r = h_id h →
         ∃ s3,
           handle_off h s2 = Ret () s3
           ∧ ∀ o' e', bucket s3 o' e'
                      = if decide (o' = o ∧ e' = key_of name) then l1 ++ l2
                        else bucket s2 o' e').
Proof.
  intros Hapi Hcb Hwf Hplain h.
  exists (on_own o name cb cx s).1.
  set (s1 := (on_own o name cb cx s).1).
  split.
  { rewrite (on_unfold o name cb cx s Hapi Hcb), Hplain. by rewrite on_own_handle. }
  split; [apply bucket_on_own|]. split; [done|].
  split; [apply (on_own_spec o name cb cx s)|].
  split; [apply hash_key_inj|]. split; [|split].
  - intros o' e' ev Hev Hid. destruct (wf_bucket_below s o' e' ev Hwf Hev) as (n & Hn & Hlt).
    rewrite Hn in Hid. apply hash_key_inj in Hid. lia.
  - intros fuel p.
    assert (wf s1) as Hwf1 by (by apply wf_on_own).
    assert (maxHashId s1 = N.succ (maxHashId s)) as Hmax
      by apply (on_own_spec o name cb cx s).
    pose proof (r_run _ counter_mono_respected body fuel p s1) as H1.
    pose proof (r_run _ wf_respected body fuel p s1) as H2.
    unfold counter_mono in H1.
    destruct (run body fuel p s1) as [[] s2|ex s2|]; simpl in *; try done;
      (split; [done|]; split; [by apply H2|]; intros E; apply hash_key_inj in E; lia).
  - intros s2 l1 r l2 Hwf2 Hb Hid. unfold handle_off. cbn [h_self h_name h_id h].
    destruct (off_bucket o name (VStr (hash_key (maxHashId s))) VUndef s2)
      as (s3 & Hoff & Hb3);
      [by apply (eventsApi_None_rest name [cb; cx])|apply (wf_nonempty s2 Hwf2)| |].
    { intros _. apply off_throws_own, bucket_nonempty_addr. rewrite Hb. by destruct l1. }
    exists s3. split; [done|]. intros o' e'. rewrite Hb3.
    rewrite remaining_id, hash_key_nonempty. cbn [andb].
    cbn [h_id h] in Hid. rewrite <- Hid.
    assert (filter (λ ev, id ev ≠ id r) (bucket s2 o (key_of name)) = l1 ++ l2) as Hmid.
    { rewrite Hb. apply filter_id_middle. rewrite <- Hb. by apply wf_bucket_NoDup. }
    assert (r ∈ bucket s2 o (key_of name)) as Hr.
    { rewrite Hb. apply elem_of_app. right. apply list_elem_of_here. }
    destruct (decide (o' = o ∧ e' = key_of name)) as [[-> ->]|Hno].
    + rewrite decide_True by (split; [done|by right]). exact Hmid.
    + destruct (decide (o' = o ∧ (name_truthy name = false ∨ e' = key_of name)))
        as [[-> [Hn|He]]|]; [|by destruct Hno|done].
      apply filter_id_absent. intros ev Hev Hid'.
      destruct (wf_id_bucket s2 _ _ _ _ ev r Hwf2 Hev Hr Hid') as [_ E]. by apply Hno.
Qed.

Lemma C4_handle_off_removes_its_record_witness :
  let s := state_of (on 0 (NStr "evt") (VFn (FUser 1)) (VObj 5) init) init in
  let s1 := state_of (on 0 (NStr "evt") (VFn (FUser 1)) (VObj 5) s) s in
  let s2 := state_of (on 0 (NStr "evt") (VFn (FUser 1)) (VObj 5) s1) s1 in
  on 0 (NStr "evt") (VFn (FUser 1)) (VObj 5) s = Ret (Some (Handle "#1001" (NStr "evt") 0)) s1
  ∧ ∃ s3, handle_off (Handle "#1001" (NStr "evt") 0) s2 = Ret () s3
          ∧ bucket s3 0 "evt"
            = [Listener (VFn (FUser 1)) (VObj 5) (VObj 5) "#1000";
               Listener (VFn (FUser 1)) (VObj 5) (VObj 5) "#1002"].
Proof.
  intros s s1 s2. split; [vm_compute; reflexivity|].
  assert (wf s) as Hwf by (apply post_state_of; [apply wf_init|apply (r_on _ wf_respected)]).
  assert (wf s2) as Hwf2.
  { apply post_state_of; [apply post_state_of; [exact Hwf|]|]; apply (r_on _ wf_respected). }
  destruct (C4_handle_off_removes_its_record quiet 0 (NStr "evt") (VFn (FUser 1)) (VObj 5) s
              eq_refl eq_refl Hwf eq_refl) as (s1' & _ & _ & _ & _ & _ & _ & _ & H).
  destruct (H s2 [Listener (VFn (FUser 1)) (VObj 5) (VObj 5) "#1000"]
              (Listener (VFn (FUser 1)) (VObj 5) (VObj 5) "#1001")
              [Listener (VFn (FUser 1)) (VObj 5) (VObj 5) "#1002"] Hwf2)
    as (s3 & Hoff & Hb); [vm_compute; reflexivity|vm_compute; reflexivity|].
  exists s3. split; [exact Hoff|]. rewrite Hb.
  rewrite decide_True by done. reflexivity.
Defined.

(** C2, as stated, fails when [once] is given a list of names: it wraps
    the callback once for each name, so after [once("a b", f)] one
    [trigger("a b", 7)] runs [f] twice. *)
Lemma C2_counterexample :
  let s := state_of (once 0 (NStr "a b") (VFn (FUser 1)) VUndef init) init in
  log_of (trigger (call quiet 2) 0 (NStr "a b") [VNum 7] s)
  = Some [Fire 0 (VEm 0) [VNum 7]; Invoke 1 (VEm 0) [VNum 7];
          Fire 1 (VEm 0) [VNum 7]; Invoke 1 (VEm 0) [VNum 7]].
Proof. vm_compute. reflexivity. Qed.

(** C2, amended: for a single event name that is not the name of a member
    of [Object.prototype], [once(name, cb, context)] registers one wrapper
    at the end of the bucket. Over any run of calls and callbacks the
    wrapper hands at most one call over to [cb]: a call of the wrapper
    that was called before returns at once; the first call marks it,
    removes its registration with [off], so that the bucket holds no
    record of the wrapper when [cb] starts, and then applies [cb] to the
    same arguments and to the [this] of the wrapper, which is the [this]
    of the call made into an object when it is a primitive. *)
Theorem C2_once_runs_at_most_once body (o : nat) (e : string) (cb cx : value) (s : state) :
  has_space e = false → truthy cb = true → inherited e = None →
  let w := fresh (dom (onces s)) in
  ∃ h s1,
    once o (NStr e) cb cx s = Ret (Some h) s1
    ∧ onces s1 !! w = Some (OnceClosure o (NStr e) cb false)
    ∧ bucket s1 o e = bucket s o e ++ [new_listener o (VFn (FOnce w)) cx s]
    ∧ (∀ fuel p,
         holds_after (λ s2, ∃ d, calls s2 = calls s1 ++ d ∧ fires w d ≤ 1)
                     (run body fuel p s1))
    ∧ (∀ fuel this args s2 c,
         onces s2 !! w = Some c → once_called c = true →
         call body (S fuel) (VFn (FOnce w)) this args s2 = Ret () s2)
    ∧ (∀ fuel this args s2,
         onces s2 !! w = Some (OnceClosure o (NStr e) cb false) → no_empty_buckets s2 →
         let this' := box (length (calls s2)) this in
         ∃ s3,
           off o (NStr e) (VFn (FOnce w)) VUndef (fire w this' args s2) = Ret () s3
           ∧ call body (S fuel) (VFn (FOnce w)) this args s2 = call body fuel cb this' args s3
           ∧ (∀ ev, ev ∈ bucket s3 o e → callback ev ≠ VFn (FOnce w))
           ∧ calls s3 = calls s2 ++ [Fire w this' args]).
Proof.
  intros He Hcb Hplain w.
  set (s0 := set_onces <[w := OnceClosure o (NStr e) cb false]> s).
  exists (on_own o (NStr e) (VFn (FOnce w)) cx s0).2, (on_own o (NStr e) (VFn (FOnce w)) cx s0).1.
  set (s1 := (on_own o (NStr e) (VFn (FOnce w)) cx s0).1).
  assert (onces s1 !! w = Some (OnceClosure o (NStr e) cb false)) as Hw.
  { destruct (on_own_spec o (NStr e) (VFn (FOnce w)) cx s0) as (_ & _ & _ & E & _).
    unfold s1. rewrite E. unfold s0. st_simpl. apply lookup_insert_eq. }
  split.
  { rewrite (once_unfold o e cb cx s He Hcb). fold w s0.
    rewrite on_single; [done|done|done|by apply on_throws_plain]. }
  split; [done|]. split; [|split; [|split]].
  - unfold s1. rewrite (bucket_on_own o (NStr e)). done.
  - intros fuel p. pose proof (r_run _ (once_rel_respected w) body fuel p s1) as H.
    destruct (run body fuel p s1) as [[] s2|ex s2|]; simpl in *; try done;
      destruct (H _ Hw) as (c' & d & _ & _ & _ & _ & Hd & _ & Hle & _); eauto.
  - intros fuel this args s2 c Hc Hcalled. cbn [call]. by rewrite Hc, Hcalled.
  - intros fuel this args s2 Hc Hne this'.
    destruct (off_bucket o (NStr e) (VFn (FOnce w)) VUndef (fire w this' args s2))
      as (s3 & Hoff & Hb3).
    { by apply eventsApi_single. }
    { apply (r_fire _ no_empty_respected w _ this' args s2 Hc); done. }
    { intros _. by apply off_throws_plain, inherited_nonempty_plain. }
    exists s3. split; [done|]. split; [|split].
    + cbn [call]. rewrite Hc. cbn [once_called once_self once_name once_callback].
      fold this'. by rewrite Hoff.
    + intros ev Hev. rewrite Hb3 in Hev.
      rewrite decide_True in Hev by (split; [done|by right]).
      rewrite remaining_targeted in Hev. apply list_elem_of_filter in Hev as [Hn _].
      intros E. apply Hn. split; [by left|done].
    + pose proof (off_frame_off o (NStr e) (VFn (FOnce w)) VUndef (fire w this' args s2)) as HF.
      rewrite Hoff in HF. destruct HF as (_ & _ & -> & _).
      unfold fire. by rewrite Hc.
Qed.

Lemma C2_once_runs_at_most_once_witness :
  let s1 := state_of (once 0 (NStr "evt") (VFn (FUser 1)) VUndef init) init in
  log_of (bind (trigger (call quiet 2) 0 (NStr "evt") [VNum 7] s1)
               (λ _ s2, trigger (call quiet 2) 0 (NStr "evt") [VNum 8] s2))
  = Some [Fire 0 (VEm 0) [VNum 7]; Invoke 1 (VEm 0) [VNum 7]]
  ∧ ∀ fuel p,
      holds_after (λ s2, ∃ d, calls s2 = calls s1 ++ d ∧ fires 0 d ≤ 1)
                  (run quiet fuel p s1).
Proof.
  intros s1. split; [vm_compute; reflexivity|].
  destruct (C2_once_runs_at_most_once quiet 0 "evt" (VFn (FUser 1)) VUndef init
              eq_refl eq_refl eq_refl) as (h & s1' & Honce & _ & _ & H & _).
  assert (s1 = s1') as -> by (unfold s1; by rewrite Honce).
  exact H.
Defined.

(* ===================================================================== *)
(** ** Further properties: names *)
(* ===================================================================== *)

Lemma on_multi o n cb cx s :
  has_space n = true →
  on o (NStr n) cb cx s
  = bind (each (λ p s, ignore (on o (NStr p) cb cx s)) (split_ws n) s)
         (λ _ s', Ret None s').
Proof.
  intros Hn. unfold on at 1. rewrite on_n_S. unfold eventsApi. rewrite Hn.
  destruct (String.eqb_spec n "") as [->|_]; [done|].
  rewrite each_fmap. cbn [fst snd]. f_equal.
  apply (each_ext_Forall (λ p, has_space p = false)); [apply split_ws_pieces|].
  intros p s' Hp. unfold on. by rewrite (on_n_single 1), (on_n_single 2).
Qed.

Lemma once_multi o n cb cx s :
  has_space n = true →
  once o (NStr n) cb cx s
  = bind (each (λ p s, ignore (once o (NStr p) cb cx s)) (split_ws n) s)
         (λ _ s', Ret None s').
Proof.
  intros Hn. unfold once at 1. rewrite once_n_S. unfold eventsApi. rewrite Hn.
  destruct (String.eqb_spec n "") as [->|_]; [done|].
  rewrite each_fmap. cbn [fst snd]. f_equal.
  apply (each_ext_Forall (λ p, has_space p = false)); [apply split_ws_pieces|].
  intros p s' Hp. unfold once. by rewrite (once_n_single 1), (once_n_single 2).
Qed.

(** X1: [on] with a list of names is [on] with each piece of the list, in
    order, each piece being a single name, up to the first that throws;
    it returns [this], not a handle. *)
Theorem X1_on_list_of_names (o : nat) (n : string) (cb cx : value) (s : state) :
  has_space n = true →
  on o (NStr n) cb cx s
  = bind (each (λ p s, ignore (on o (NStr p) cb cx s)) (split_ws n) s)
         (λ _ s', Ret None s')
  ∧ Forall (λ p, has_space p = false) (split_ws n).
Proof. intros Hn. split; [by apply on_multi|apply split_ws_pieces]. Qed.

Lemma X1_on_list_of_names_witness :
  let s1 := state_of (on 0 (NStr "change") (VFn (FUser 1)) VUndef init) init in
  on 0 (NStr "change  blur") (VFn (FUser 1)) VUndef init
  = Ret None (state_of (on 0 (NStr "blur") (VFn (FUser 1)) VUndef s1) s1).
Proof.
  intros s1.
  destruct (X1_on_list_of_names 0 "change  blur" (VFn (FUser 1)) VUndef init eq_refl)
    as [H _].
  rewrite H. vm_compute. reflexivity.
Defined.

(** X2: [on] with an event map registers, for each entry in order, the
    value of the entry as the callback under the key of the entry, with
    the second argument of the call as the context, up to the first entry
    that throws; the third argument is not used. It returns [this]. *)
Theorem X2_on_event_map (o : nat) (m : list (string * value)) (cb cx : value) (s : state) :
  on o (NMap m) cb cx s
  = bind (each (λ kv s, ignore (on o (NStr kv.1) kv.2 cb s)) m s) (λ _ s', Ret None s').
Proof.
  unfold on at 1. rewrite on_n_S. cbn [eventsApi]. rewrite each_fmap. f_equal.
  apply (each_ext_Forall (λ _, True)); [by apply Forall_forall|].
  intros [k v] s' _. cbn [fst snd].
  change (arg 0 (v :: [cb; cx])) with v. change (arg 1 (v :: [cb; cx])) with cb.
  unfold on. by rewrite (on_n_string 1).
Qed.

(** X3: [trigger] with a list of names, on a registry that has a table,
    is [trigger] with each piece in order, so that a listener on ["all"]
    is told the name of the piece, not the list; a throw in one stops the
    rest. On a registry without table it does nothing. *)
Theorem X3_trigger_list_of_names (callf : invoker) (o : nat) (n : string)
    (args : list value) (s : state) :
  has_space n = true →
  trigger callf o (NStr n) args s
  = match _events (get_obj s o) with
    | None => Ret () s
    | Some _ => each (λ p, trigger callf o (NStr p) args) (split_ws n) s
    end.
Proof.
  intros Hn. unfold trigger at 1. rewrite trigger_n_S.
  destruct (_events (get_obj s o)); [|done].
  unfold eventsApi. rewrite Hn. destruct (String.eqb_spec n "") as [->|_]; [done|].
  rewrite each_fmap. cbn [fst snd].
  apply (each_ext_Forall (λ p, has_space p = false)); [apply split_ws_pieces|].
  intros p s' Hp. unfold trigger. by rewrite (trigger_n_single 1), (trigger_n_single 2).
Qed.

Lemma X3_trigger_list_of_names_witness :
  log_of (trigger (call quiet 1) 0 (NStr "a b") [VNum 7]
            (state_of (on 0 (NStr "all") (VFn (FUser 1)) VUndef init) init))
  = Some [Invoke 1 (VEm 0) [VStr "a"; VNum 7]; Invoke 1 (VEm 0) [VStr "b"; VNum 7]].
Proof.
  rewrite (X3_trigger_list_of_names (call quiet 1) 0 "a b" [VNum 7] _ eq_refl).
  vm_compute. reflexivity.
Defined.
(* ===================================================================== *)
(** ** Relations respected where the library takes its steps *)
(* ===================================================================== *)

Lemma get_obj_set_listeningTo_eq o lt s :
  get_obj (set_listeningTo o lt s) o
  = Emitter (_events (get_obj s o)) lt (_listenId (get_obj s o)).
Proof. unfold get_obj at 1; st_simpl. by rewrite lookup_insert_eq. Qed.

Lemma get_obj_set_listeningTo_ne o lt s o' :
  o ≠ o' → get_obj (set_listeningTo o lt s) o' = get_obj s o'.
Proof. intros H. unfold get_obj at 1; st_simpl. by rewrite lookup_insert_ne. Qed.

Lemma get_obj_set_listenId_eq o i s :
  get_obj (set_listenId o i s) o
  = Emitter (_events (get_obj s o)) (_listeningTo (get_obj s o)) i.
Proof. unfold get_obj at 1; st_simpl. by rewrite lookup_insert_eq. Qed.

Lemma get_obj_set_listenId_ne o i s o' :
  o ≠ o' → get_obj (set_listenId o i s) o' = get_obj s o'.
Proof. intros H. unfold get_obj at 1; st_simpl. by rewrite lookup_insert_ne. Qed.

Lemma listenId_set_listeningTo o lt s o' :
  _listenId (get_obj (set_listeningTo o lt s) o') = _listenId (get_obj s o').
Proof.
  destruct (decide (o = o')) as [<-|N].
  - by rewrite get_obj_set_listeningTo_eq.
  - by rewrite get_obj_set_listeningTo_ne.
Qed.

Lemma listeningTo_set_listenId o i s o' :
  _listeningTo (get_obj (set_listenId o i s) o') = _listeningTo (get_obj s o').
Proof.
  destruct (decide (o = o')) as [<-|N].
  - by rewrite get_obj_set_listenId_eq.
  - by rewrite get_obj_set_listenId_ne.
Qed.

Section Guarded.

Context (R : state → state → Prop) (HR : guarded R).

Lemma g_ignore {A} (m : outcome A) s : post R s m → post R s (ignore m).
Proof using HR. destruct m; simpl; auto. Qed.

Lemma g_each {X} (f : X → state → outcome ()) (l : list X) s :
  (∀ x s, post R s (f x s)) → post R s (each f l s).
Proof using HR.
  intros Hf. revert s. induction l as [|x l IH]; intros s; simpl; [apply HR|].
  apply post_bind; [apply HR|apply Hf|]. intros; apply IH.
Qed.

Lemma g_post_from {A} s s1 (m : outcome A) : R s s1 → post R s1 m → post R s m.
Proof using HR.
  intros H1 Hm. destruct m; simpl in *; try done; eapply (g_trans R HR); eauto.
Qed.

Lemma g_on_body o name cb cx s :
  truthy cb = true → eventsApi name [cb; cx] = None →
  post R s (on_body o name cb cx s).
Proof using HR.
  intros Hcb Hapi. rewrite on_body_cases.
  destruct (on_throws s o (key_of name)); simpl;
    [apply (g_on_fail R HR)|by apply (g_on_own R HR)].
Qed.

Lemma g_on_n k o name cb cx s : post R s (on_n k o name cb cx s).
Proof using HR.
  revert o name cb cx s. induction k as [|k IH]; intros; [apply HR|]. rewrite on_n_S.
  destruct (eventsApi name [cb; cx]) as [plan|] eqn:Hapi.
  - apply post_bind; [apply HR| |intros; apply HR].
    apply g_each. intros. apply g_ignore, IH.
  - destruct (truthy cb) eqn:Hcb; [|apply HR].
    apply post_bind; [apply HR|by apply g_on_body|intros; apply HR].
Qed.

Lemma g_on o name cb cx s : post R s (on o name cb cx s).
Proof using HR. apply g_on_n. Qed.

Lemma g_off_name o cb cx e s : post R s (off_name o cb cx e s).
Proof using HR.
  unfold off_name. destruct (off_throws s o cb cx e); simpl; apply HR.
Qed.

Lemma g_off_n k o name cb cx s : post R s (off_n k o name cb cx s).
Proof using HR.
  revert o name cb cx s. induction k as [|k IH]; intros; [apply HR|]. rewrite off_n_S.
  destruct (_events (get_obj s o)); [|apply HR].
  destruct (eventsApi name [cb; cx]) as [plan|].
  - apply g_each. intros. apply IH.
  - destruct (negb (name_truthy name) && negb (truthy cb) && negb (truthy cx)).
    + apply HR.
    + apply g_each. intros. apply g_off_name.
Qed.

Lemma g_off o name cb cx s : post R s (off o name cb cx s).
Proof using HR. apply g_off_n. Qed.

Lemma g_once_n k o name cb cx s : post R s (once_n k o name cb cx s).
Proof using HR.
  revert o name cb cx s. induction k as [|k IH]; intros; [apply HR|]. rewrite once_n_S.
  destruct (eventsApi name [cb; cx]) as [plan|].
  - apply post_bind; [apply HR| |intros; apply HR].
    apply g_each. intros. apply g_ignore, IH.
  - destruct (truthy cb) eqn:Hcb; [|apply HR].
    eapply g_post_from; [apply (g_new_once R HR o name cb s Hcb)|apply g_on].
Qed.

Lemma g_once o name cb cx s : post R s (once o name cb cx s).
Proof using HR. apply g_once_n. Qed.

Lemma g_listen impl o src name cb s :
  (∀ o name cb cx s, post R s (impl o name cb cx s)) →
  post R s (listen impl o src name cb s).
Proof using HR.
  intros Himpl. unfold listen.
  set (lt := default ∅ (_listeningTo (get_obj s o))).
  set (s1 := set_listeningTo o (Some lt) s).
  assert (R s s1) as H1 by apply HR.
  assert (_listeningTo (get_obj s1 o) = Some lt) as Hlt.
  { subst s1. by rewrite get_obj_set_listeningTo_eq. }
  destruct (_listenId (get_obj s1 src)) as [i|] eqn:Hi.
  - apply (g_post_from s s1); [exact H1|].
    eapply g_post_from; [apply (g_listen_add R HR o src i lt s1 Hi Hlt)|].
    apply g_ignore, Himpl.
  - apply (g_post_from s s1); [exact H1|].
    eapply g_post_from; [apply (g_listen_id R HR src s1 Hi)|].
    eapply g_post_from; [|apply g_ignore, Himpl].
    apply (g_listen_add R HR).
    + by rewrite get_obj_set_listenId_eq.
    + by rewrite listeningTo_set_listenId.
Qed.

Lemma g_stop_one o remove name cb entry s : post R s (stop_one o remove name cb entry s).
Proof using HR.
  unfold stop_one. apply post_bind; [apply HR|apply g_off|].
  intros _ s1 _. simpl.
  destruct (remove || events_empty _ _); [|apply HR].
  destruct (_listeningTo _) eqn:E; [|apply HR].
  by apply (g_listen_del R HR).
Qed.

Lemma g_stopListening o src name cb s : post R s (stopListening o src name cb s).
Proof using HR.
  unfold stopListening. destruct (_listeningTo _); [|apply HR].
  apply g_each. intros. apply g_stop_one.
Qed.

Lemma g_addChannel name s : post R s (addChannel name s).
Proof using HR.
  unfold addChannel. destruct (no_channel_name name) eqn:Hn; simpl; [apply HR|].
  destruct (channel_at s (chkey name)) eqn:Hc; simpl; [apply HR|apply HR|].
  apply channel_at_missing in Hc as [Hc _].
  apply (g_new_channel R HR); [|done].
  destruct name as [| |n]; try done. simpl in *. intros ->. done.
Qed.

Lemma g_removeChannel name s : post R s (removeChannel name s).
Proof using HR.
  unfold removeChannel. destruct (no_channel_name name); simpl; [apply HR|].
  destruct (channel_at s (chkey name)); simpl; try apply HR.
  apply post_bind; [apply HR|apply g_off|]. intros _ s1 _. apply HR.
Qed.

Lemma g_bus_register impl name cb cx s :
  (∀ o name cb cx s, post R s (impl o name cb cx s)) →
  post R s (bus_register impl name cb cx s).
Proof using HR.
  intros Himpl. unfold bus_register. destruct (resolve name) as [channel name'].
  apply post_bind; [apply HR|apply g_addChannel|].
  intros _ s1 H1. destruct (channel_at s1 channel) as [o| |]; simpl; try apply HR.
  apply Himpl.
Qed.

Lemma g_bus_off name cb s : post R s (bus_off name cb s).
Proof using HR.
  unfold bus_off. destruct name as [name|].
  - destruct (bool_decide _).
    + destruct (split_char at_sign name !! 1); simpl; [|apply HR].
      destruct (channel_at s _); simpl; try apply HR; apply g_ignore, g_removeChannel.
    + destruct (resolve name) as [channel name'].
      destruct (channel_at s channel); simpl; try apply HR.
      destruct (truthy cb); simpl; apply g_off.
  - apply g_each. intros. apply g_ignore, g_removeChannel.
Qed.

Section GuardedInvoker.

Context (callf : invoker) (Hcallf : ∀ f this args s, post R s (callf f this args s)).

Lemma g_dispatch a args i n s : post R s (dispatch callf a args i n s).
Proof using HR Hcallf.
  revert i s. induction n as [|n IH]; intros i s; simpl; [apply HR|].
  destruct (arrays s !! a ≫= _) as [ev|]; simpl; [|apply HR].
  apply post_bind; [apply HR|apply Hcallf|]. intros; apply IH.
Qed.

Lemma g_trigger_events tbl k args s : post R s (trigger_events callf tbl k args s).
Proof using HR Hcallf.
  unfold trigger_events. destruct (tbl !! k); [apply g_dispatch|].
  destruct (inherited_nonempty k); apply HR.
Qed.

Lemma g_trigger_n k o name args s : post R s (trigger_n k callf o name args s).
Proof using HR Hcallf.
  revert o name args s. induction k as [|k IH]; intros; [apply HR|]. rewrite trigger_n_S.
  destruct (_events (get_obj s o)) as [tbl|]; [|apply HR].
  destruct (eventsApi name args) as [plan|].
  - apply g_each. intros. apply IH.
  - apply post_bind; [apply HR|apply g_trigger_events|].
    intros _ s1 _. destruct (tbl !! "all"); [apply g_dispatch|apply HR].
Qed.

Lemma g_trigger o name args s : post R s (trigger callf o name args s).
Proof using HR Hcallf. apply g_trigger_n. Qed.

Lemma g_trigger0 o s : post R s (trigger0 callf o s).
Proof using HR Hcallf.
  unfold trigger0. destruct (_events (get_obj s o)) as [tbl|]; simpl; [|apply HR].
  apply post_bind; [apply HR|apply g_trigger_events|].
  intros _ s1 _. destruct (tbl !! "all"); [apply g_dispatch|apply HR].
Qed.

Lemma g_emit name args s : post R s (emit callf name args s).
Proof using HR Hcallf.
  unfold emit. destruct (resolve name) as [channel name'].
  destruct (channel_at s channel); [apply g_trigger|apply HR|apply HR].
Qed.

Lemma g_exec_stmt st s : post R s (exec_stmt callf st s).
Proof using HR Hcallf.
  destruct st; simpl;
    try first [ apply g_off | apply g_trigger | apply g_trigger0
              | apply g_stopListening | apply g_addChannel | apply g_bus_off
              | apply g_emit | apply HR ].
  - apply g_ignore, g_on.
  - apply g_ignore, g_once.
  - apply g_listen, g_on.
  - apply g_listen, g_once.
  - apply g_ignore, g_removeChannel.
  - apply g_ignore, g_bus_register, g_on.
  - apply g_ignore, g_bus_register, g_once.
Qed.

Lemma g_exec p s : post R s (exec callf p s).
Proof using HR Hcallf.
  revert s. induction p as [|st k IH]; intros s; simpl; [apply HR|].
  apply post_bind; [apply HR|apply g_exec_stmt|]. intros _ s' _. apply IH.
Qed.

End GuardedInvoker.

Variable body : nat → value → list value → state → prog.

Lemma g_call fuel f this args s : post R s (call body fuel f this args s).
Proof using HR.
  revert f this args s. induction fuel as [|n IH]; intros; simpl; [done|].
  destruct f as [| | | | |[k|w]| | | | |]; simpl; try apply HR.
  - pose proof (g_exec (call body n) IH (body k this args (log (Invoke k this args) s))
                  (log (Invoke k this args) s)) as H.
    pose proof (g_invoke R HR k this args s) as H0.
    destruct (exec _ _ _); simpl in *; try done; eapply (g_trans R HR); eauto.
  - destruct (onces s !! w) as [c|] eqn:Hw; simpl; [|apply HR].
    destruct (once_called c) eqn:Hc; simpl; [apply HR|].
    eapply g_post_from; [apply (g_fire R HR w c (box (length (calls s)) this) args s Hw Hc)|].
    apply post_bind; [apply HR|apply g_off|]. intros _ s2 _. apply IH.
Qed.

Lemma g_run fuel p s : post R s (run body fuel p s).
Proof using HR. apply g_exec. intros. apply g_call. Qed.

End Guarded.

(* ===================================================================== *)
(** ** Further properties: the registry *)
(* ===================================================================== *)

Lemma bucket_same s s' o e :
  (∀ o e, addr s' o e = addr s o e) → arrays s' = arrays s → bucket s' o e = bucket s o e.
Proof. intros Ha Harr. unfold bucket, array_at. by rewrite Ha, Harr. Qed.

(** What [on_own] does to every bucket of a well-formed state. *)
Lemma on_own_bucket o name cb cx s o' e' :
  wf s →
  bucket (on_own o name cb cx s).1 o' e'
  = if decide (o' = o ∧ e' = key_of name)
    then bucket s o (key_of name) ++ [new_listener o cb cx s]
    else bucket s o' e'.
Proof.
  intros Hwf. destruct (decide (o' = o ∧ e' = key_of name)) as [[-> ->]|N].
  { apply bucket_on_own. }
  destruct (on_own_spec o name cb cx s) as (Haddr & Harr & _).
  unfold bucket. rewrite Haddr, decide_False by done.
  destruct (addr s o' e') as [a'|] eqn:Ha'; [|done].
  unfold array_at. rewrite Harr, lookup_insert_ne; [done|].
  intros E. destruct (addr s o (key_of name)) as [a|] eqn:Ha; simpl in E; subst.
  - apply N. by apply (wf_inj s Hwf o' e' o (key_of name) a').
  - by apply (array_at_ne_fresh s _ (wf_nonempty s Hwf o' e' _ Ha')).
Qed.

(** X4: in a well-formed state [on] with a callback under a single name
    either throws a [TypeError] and changes no bucket, when the table has
    no bucket of that name and the name is that of a member of
    [Object.prototype], or returns a handle, adds one record at the end of
    the bucket of that name and changes no other bucket, of this registry
    or of another; the record holds the callback and the context as given,
    [ctx] is the context when it is truthy and the registry otherwise, and
    the id is the one of the handle. *)
Theorem X4_on_touches_one_bucket (o : nat) (e : string) (cb cx : value) (s : state) :
  wf s → has_space e = false → truthy cb = true →
  if on_throws s o e
  then on o (NStr e) cb cx s = Exn TypeError (on_fail o s)
       ∧ ∀ o' e', bucket (on_fail o s) o' e' = bucket s o' e'
  else ∃ s',
         on o (NStr e) cb cx s
         = Ret (Some (Handle (hash_key (maxHashId s)) (NStr e) o)) s'
         ∧ ∀ o' e',
             bucket s' o' e'
             = if decide (o' = o ∧ e' = e)
               then bucket s o e
                    ++ [Listener cb cx (if truthy cx then cx else VEm o)
                          (hash_key (maxHashId s))]
               else bucket s o' e'.
Proof.
  intros Hwf He Hcb. rewrite (on_single_cases o e cb cx s He Hcb).
  destruct (on_throws s o e).
  - split; [done|]. intros. apply bucket_on_fail.
  - eexists. split; [by rewrite on_own_handle|].
    intros o' e'. by rewrite on_own_bucket.
Qed.

Lemma X4_on_touches_one_bucket_witness :
  let s := state_of (on 1 (NStr "evt") (VFn (FUser 1)) VUndef init) init in
  ∃ s', on 0 (NStr "evt") (VFn (FUser 2)) (VObj 4) s = Ret (Some (Handle "#1001" (NStr "evt") 0)) s'
        ∧ bucket s' 1 "evt" = [Listener (VFn (FUser 1)) VUndef (VEm 1) "#1000"]
        ∧ bucket s' 0 "evt" = [Listener (VFn (FUser 2)) (VObj 4) (VObj 4) "#1001"].
Proof.
  intros s.
  assert (wf s) as Hwf by (apply post_state_of; [apply wf_init|apply (r_on _ wf_respected)]).
  pose proof (X4_on_touches_one_bucket 0 "evt" (VFn (FUser 2)) (VObj 4) s Hwf eq_refl eq_refl)
    as H.
  assert (on_throws s 0 "evt" = false) as Ht by (vm_compute; reflexivity).
  rewrite Ht in H. destruct H as (s' & Hon & Hb).
  exists s'. split; [exact Hon|]. rewrite !Hb. split; vm_compute; reflexivity.
Defined.

Lemma on_no_callback_single o e cb cx s :
  has_space e = false → truthy cb = false → on o (NStr e) cb cx s = Ret None s.
Proof.
  intros He Hcb. unfold on. rewrite on_n_S. by rewrite (eventsApi_single e _ He), Hcb.
Qed.

Lemma once_no_callback_single o e cb cx s :
  has_space e = false → truthy cb = false → once o (NStr e) cb cx s = Ret None s.
Proof.
  intros He Hcb. unfold once. rewrite once_n_S. by rewrite (eventsApi_single e _ He), Hcb.
Qed.

Lemma each_noop {X} (P : X → Prop) (f : X → state → outcome ()) (l : list X) s :
  Forall P l → (∀ x s, P x → f x s = Ret () s) → each f l s = Ret () s.
Proof.
  intros Hl Hf. revert s. induction Hl as [|x l Hx Hl IH]; intros s; simpl; [done|].
  rewrite Hf by done. simpl. apply IH.
Qed.

Lemma no_callback_noop o name cb cx s :
  isMap name = false → truthy cb = false →
  on o name cb cx s = Ret None s ∧ once o name cb cx s = Ret None s.
Proof.
  intros Hm Hcb. destruct name as [|n|m]; [| |done].
  - unfold on, once. rewrite on_n_S, once_n_S. cbn [eventsApi]. by rewrite Hcb.
  - destruct (has_space n) eqn:Hn.
    + rewrite on_multi, once_multi by done. split.
      * rewrite (each_noop (λ p, has_space p = false)); [done|apply split_ws_pieces|].
        intros p s' Hp. by rewrite on_no_callback_single.
      * rewrite (each_noop (λ p, has_space p = false)); [done|apply split_ws_pieces|].
        intros p s' Hp. by rewrite once_no_callback_single.
    + by rewrite on_no_callback_single, once_no_callback_single.
Qed.

(** X5: [on] and [once] without a callback (or with a falsy one), under
    a name that is omitted, a single name or a list of names, change
    nothing and return [this]: no bucket is created and the counter of ids
    does not move. *)
Theorem X5_no_callback_no_effect (o : nat) (name : ename) (cb cx : value) (s : state) :
  isMap name = false → truthy cb = false →
  on o name cb cx s = Ret None s ∧ once o name cb cx s = Ret None s.
Proof. apply no_callback_noop. Qed.

Lemma X5_no_callback_no_effect_witness :
  on 0 (NStr "a b") VUndef (VObj 1) init = Ret None init
  ∧ once 0 (NStr "a b") VNull (VObj 1) init = Ret None init.
Proof.
  split.
  - apply (X5_no_callback_no_effect 0 (NStr "a b") VUndef (VObj 1) init eq_refl eq_refl).
  - apply (X5_no_callback_no_effect 0 (NStr "a b") VNull (VObj 1) init eq_refl eq_refl).
Defined.

Lemma records_ok_sub s s' :
  (∀ o e ev, ev ∈ bucket s' o e → ev ∈ bucket s o e) → records_ok s → records_ok s'.
Proof. intros Hsub H o e ev Hev. apply (H o e ev). by apply Hsub. Qed.

Lemma records_ok_same s s' :
  (∀ o e, addr s' o e = addr s o e) → arrays s' = arrays s → records_ok s → records_ok s'.
Proof.
  intros Ha Harr. apply records_ok_sub. intros o e ev. by rewrite (bucket_same s s').
Qed.

Lemma addr_set_listeningTo o lt s o' e : addr (set_listeningTo o lt s) o' e = addr s o' e.
Proof. unfold addr. by rewrite get_obj_set_listeningTo. Qed.

Lemma addr_set_listenId o i s o' e : addr (set_listenId o i s) o' e = addr s o' e.
Proof. unfold addr. by rewrite get_obj_set_listenId. Qed.

Lemma addr_new_channel n s o' e :
  addr (set_channels <[n := fresh (dom (objs s))]>
          (set_objs <[fresh (dom (objs s)) := new_emitter]> s)) o' e
  = addr s o' e.
Proof.
  unfold addr. change (get_obj (set_channels ?f ?x) o') with (get_obj x o').
  by rewrite get_obj_new_emitter.
Qed.

Lemma remaining_elem s cb cx l ev : ev ∈ remaining s cb cx l → ev ∈ l.
Proof. intros H. eapply elem_of_sublist; [exact H|apply remaining_sublist]. Qed.

Lemma records_guarded : guarded (keeps (λ s, wf s ∧ records_ok s)).
Proof.
  pose proof wf_respected as HW.
  constructor; unfold keeps.
  - done.
  - auto.
  - intros o name cb cx s Hcb _ [Hwf Hrec]. split; [by apply wf_on_own|].
    intros o' e' ev. rewrite on_own_bucket by done.
    destruct (decide (o' = o ∧ e' = key_of name)) as [[-> ->]|]; [|apply Hrec].
    intros Hev. apply elem_of_app in Hev as [Hev|Hev]; [by apply Hrec in Hev|].
    apply list_elem_of_singleton in Hev as ->. by cbn.
  - intros o s [Hwf Hrec]. split; [by apply wf_on_fail|].
    revert Hrec. apply records_ok_sub. intros o' e' ev. by rewrite bucket_on_fail.
  - intros o cb cx s e [Hwf Hrec]. split; [by apply wf_off_own|].
    revert Hrec. apply records_ok_sub. intros o' e' ev.
    rewrite off_own_bucket by apply (wf_nonempty s Hwf).
    destruct (decide (o' = o ∧ e' = e)) as [[-> ->]|]; [apply remaining_elem|done].
  - intros o s [Hwf Hrec]. split; [by apply (r_clear _ HW)|].
    revert Hrec. apply records_ok_sub. intros o' e' ev. unfold bucket at 1.
    rewrite addr_clear. destruct (decide (o' = o)); [by intros ?%not_elem_of_nil|done].
  - intros o name cb s _ [Hwf Hrec]. split; [by apply (r_new_once _ HW)|].
    by apply (records_ok_same s).
  - intros o s [Hwf Hrec]. split; [by apply (r_listeningTo _ HW)|].
    apply (records_ok_same s); [|done|done]. intros. apply addr_set_listeningTo.
  - intros src s _ [Hwf Hrec]. split.
    + apply (r_listenId _ HW). by apply (r_idCounter _ HW).
    + apply (records_ok_same s); [|done|done]. intros. by rewrite addr_set_listenId.
  - intros o src lid lt s _ _ [Hwf Hrec]. split; [by apply (r_listeningTo _ HW)|].
    apply (records_ok_same s); [|done|done]. intros. apply addr_set_listeningTo.
  - intros o lt i s _ [Hwf Hrec]. split; [by apply (r_listeningTo _ HW)|].
    apply (records_ok_same s); [|done|done]. intros. apply addr_set_listeningTo.
  - intros n s _ _ [Hwf Hrec]. split; [by apply (r_new_channel _ HW)|].
    apply (records_ok_same s); [|done|done]. intros. apply addr_new_channel.
  - intros n s [Hwf Hrec]. split; [by apply (r_del_channel _ HW)|].
    by apply (records_ok_same s).
  - intros k this args s [Hwf Hrec]. split; [by apply (r_invoke _ HW)|].
    by apply (records_ok_same s).
  - intros w c this args s Hw Hc [Hwf Hrec]. split; [by apply (r_fire _ HW w c)|].
    apply (records_ok_same s); [|apply arrays_fire|done]. intros. apply addr_fire.
Qed.

(** X6: whatever the caller and the callbacks do from the state at load
    time, every record of every bucket has a truthy callback, [on]
    refusing the others, and is invoked on its context when that is truthy
    and on the registry that holds it otherwise. *)
Theorem X6_records_keep_their_target body fuel (p : prog) :
  holds_after
    (λ s, ∀ o e ev, ev ∈ bucket s o e →
            truthy (callback ev) = true
            ∧ ctx ev = (if truthy (context ev) then context ev else VEm o))
    (run body fuel p init).
Proof.
  pose proof (g_run _ records_guarded body fuel p init) as H.
  assert (wf init ∧ records_ok init) as H0.
  { split; [apply wf_init|]. intros o e ev Hev. by apply not_elem_of_nil in Hev. }
  destruct (run body fuel p init); simpl in *; try done; by apply H.
Qed.


Lemma off_clear o s :
  off o NAbsent VUndef VUndef s
  = Ret () (match _events (get_obj s o) with
            | Some _ => set_events o None s
            | None => s
            end).
Proof. unfold off; cbn [off_n]. by destruct (_events (get_obj s o)). Qed.

Lemma off_clear_events o s s' o' :
  off o NAbsent VUndef VUndef s = Ret () s' →
  _events (get_obj s' o')
  = if decide (o' = o) then None else _events (get_obj s o').
Proof.
  rewrite off_clear. intros [= <-]. destruct (_events (get_obj s o)) eqn:E.
  - rewrite get_obj_set_events.
    destruct (decide (o = o')) as [<-|]; [by rewrite decide_True|by rewrite decide_False].
  - destruct (decide (o' = o)) as [->|]; done.
Qed.

Lemma trigger_no_table callf o name args s :
  _events (get_obj s o) = None → trigger callf o name args s = Ret () s.
Proof. intros E. unfold trigger. rewrite trigger_n_S. by rewrite E. Qed.

Lemma off_no_table o name cb cx s :
  _events (get_obj s o) = None → off o name cb cx s = Ret () s.
Proof. intros E. unfold off. rewrite off_n_S. by rewrite E. Qed.

(** X7: [off()] without arguments returns and drops the whole table of
    the registry: every bucket of the registry is empty afterwards, the
    buckets of the other registries are as they were, and from then on
    [trigger] with any name and any further [off] return at once and
    change nothing. *)
Theorem X7_off_without_arguments body fuel (o : nat) (s : state) :
  ∃ s',
    off o NAbsent VUndef VUndef s = Ret () s'
    ∧ _events (get_obj s' o) = None
    ∧ (∀ e, bucket s' o e = [])
    ∧ (∀ o' e, o' ≠ o → bucket s' o' e = bucket s o' e)
    ∧ (∀ name args, trigger (call body fuel) o name args s' = Ret () s')
    ∧ (∀ name cb cx, off o name cb cx s' = Ret () s').
Proof.
  eexists. split; [apply off_clear|].
  set (s' := match _events (get_obj s o) with Some _ => set_events o None s | None => s end).
  assert (_events (get_obj s' o) = None) as Hev.
  { rewrite (off_clear_events o s s' o (off_clear o s)). by rewrite decide_True. }
  split; [done|]. split; [|split; [|split]].
  - intros e. unfold bucket, addr. by rewrite Hev.
  - intros o' e Hne. unfold s'. destruct (_events (get_obj s o)); [|done].
    unfold bucket at 1. rewrite addr_clear, decide_False by done. done.
  - intros name args. by apply trigger_no_table.
  - intros name cb cx. by apply off_no_table.
Qed.

Lemma remaining_context s cb cx l :
  truthy cb = false → isString cb = false → truthy cx = true →
  remaining s cb cx l = filter (λ ev, context ev ≠ cx) l.
Proof.
  intros Hcb Hs Hcx. unfold remaining. rewrite Hcb, Hcx. cbn [negb andb].
  apply list_filter_iff. intros ev. unfold off_keeps. rewrite Hs, Hcb, Hcx. cbn [andb orb].
  rewrite bool_decide_eq_true. split; intros H E; apply H; congruence.
Qed.

Lemma remaining_none s cb cx l :
  truthy cb = false → truthy cx = false → remaining s cb cx l = [].
Proof. intros Hcb Hcx. unfold remaining. by rewrite Hcb, Hcx. Qed.

(** X8: [off(name, undefined, context)], with a truthy context and no
    callback, for a name that is a single name, a list of names or
    omitted, no piece of which names a member of [Object.prototype] that
    takes a parameter: it returns, and in every bucket it is aimed at it
    removes exactly the records registered with that context, whatever
    their callback; the other records stay in their order and the other
    buckets are unchanged. *)
Theorem X8_off_by_context (o : nat) (name : ename) (cb cx : value) (s : state) :
  isMap name = false → no_empty_buckets s →
  Forall (λ p, inherited_nonempty p = false) (pieces name) →
  truthy cb = false → isString cb = false → truthy cx = true →
  ∃ s',
    off o name cb cx s = Ret () s'
    ∧ ∀ o' e',
        bucket s' o' e'
        = if bool_decide (o' = o) && aims name e'
          then filter (λ ev, context ev ≠ cx) (bucket s o' e')
          else bucket s o' e'.
Proof.
  intros Hm Hne Hp Hcb Hs Hcx.
  destruct (off_bucket_names o name cb cx s Hm Hne) as (s' & Hoff & Hb); [by right|].
  exists s'. split; [done|]. intros o' e'. rewrite Hb.
  destruct (bool_decide (o' = o) && aims name e'); [|done]. by apply remaining_context.
Qed.

Lemma X8_off_by_context_witness :
  let s0 := state_of (on 0 (NStr "a") (VFn (FUser 1)) (VObj 5) init) init in
  let s := state_of (on 0 (NStr "a") (VFn (FUser 1)) (VObj 6) s0) s0 in
  ∃ s', off 0 NAbsent VUndef (VObj 5) s = Ret () s'
        ∧ bucket s' 0 "a" = [Listener (VFn (FUser 1)) (VObj 6) (VObj 6) "#1001"].
Proof.
  intros s0 s.
  destruct (X8_off_by_context 0 NAbsent VUndef (VObj 5) s eq_refl) as (s' & Hoff & Hb).
  - apply post_state_of; [apply post_state_of; [done|]|];
      apply (r_on _ no_empty_respected).
  - constructor.
  - reflexivity.
  - reflexivity.
  - reflexivity.
  - exists s'. split; [exact Hoff|]. rewrite Hb. vm_compute. reflexivity.
Defined.

(** X9: [off(name)] with neither callback nor context, for a single name
    or a list of names, returns, deletes the buckets of those names with
    all their records and leaves every other bucket as it was. *)
Theorem X9_off_by_name (o : nat) (name : ename) (cb cx : value) (s : state) :
  isMap name = false → no_empty_buckets s → truthy cb = false → truthy cx = false →
  ∃ s',
    off o name cb cx s = Ret () s'
    ∧ ∀ o' e',
        bucket s' o' e'
        = if bool_decide (o' = o) && aims name e' then [] else bucket s o' e'.
Proof.
  intros Hm Hne Hcb Hcx.
  destruct (off_bucket_names o name cb cx s Hm Hne) as (s' & Hoff & Hb); [by left|].
  exists s'. split; [done|]. intros o' e'. rewrite Hb.
  destruct (bool_decide (o' = o) && aims name e'); [|done]. by apply remaining_none.
Qed.

Lemma X9_off_by_name_witness :
  let s := state_of (on 0 (NStr "a b c") (VFn (FUser 1)) VUndef init) init in
  ∃ s', off 0 (NStr "a c") VUndef VUndef s = Ret () s'
        ∧ bucket s' 0 "a" = []
        ∧ bucket s' 0 "b" = [Listener (VFn (FUser 1)) VUndef (VEm 0) "#1001"]
        ∧ bucket s' 0 "c" = [].
Proof.
  intros s.
  assert (no_empty_buckets s) as Hne.
  { apply post_state_of; [done|apply (r_on _ no_empty_respected)]. }
  destruct (X9_off_by_name 0 (NStr "a c") VUndef VUndef s eq_refl Hne eq_refl eq_refl)
    as (s' & Hoff & H).
  exists s'. split; [exact Hoff|].
  rewrite !H. vm_compute. repeat split; reflexivity.
Defined.

(** X10: [off(name, id, context)] with a non-empty string as callback,
    for a name no piece of which names a member of [Object.prototype] that
    takes a parameter, returns and removes, in every bucket it is aimed
    at, exactly the records with that id; the context argument plays no
    part. *)
Theorem X10_off_by_id_ignores_context (o : nat) (name : ename) (i : string) (cx : value)
    (s : state) :
  isMap name = false → no_empty_buckets s → i ≠ "" →
  Forall (λ p, inherited_nonempty p = false) (pieces name) →
  ∃ s',
    off o name (VStr i) cx s = Ret () s'
    ∧ ∀ o' e',
        bucket s' o' e'
        = if bool_decide (o' = o) && aims name e'
          then filter (λ ev, id ev ≠ i) (bucket s o' e')
          else bucket s o' e'.
Proof.
  intros Hm Hne Hi Hp.
  destruct (off_bucket_names o name (VStr i) cx s Hm Hne) as (s' & Hoff & Hb); [by right|].
  exists s'. split; [done|]. intros o' e'. rewrite Hb.
  destruct (bool_decide (o' = o) && aims name e'); [|done].
  rewrite remaining_id. destruct (String.eqb_spec i ""); done.
Qed.

Lemma X10_off_by_id_ignores_context_witness :
  let s0 := state_of (on 0 (NStr "a") (VFn (FUser 1)) (VObj 5) init) init in
  let s := state_of (on 0 (NStr "a") (VFn (FUser 1)) (VObj 6) s0) s0 in
  ∃ s', off 0 (NStr "a") (VStr "#1000") (VObj 6) s = Ret () s'
        ∧ bucket s' 0 "a" = [Listener (VFn (FUser 1)) (VObj 6) (VObj 6) "#1001"].
Proof.
  intros s0 s.
  destruct (X10_off_by_id_ignores_context 0 (NStr "a") "#1000" (VObj 6) s eq_refl)
    as (s' & Hoff & Hb).
  - apply post_state_of; [apply post_state_of; [done|]|];
      apply (r_on _ no_empty_respected).
  - discriminate.
  - vm_compute. by repeat constructor.
  - exists s'. split; [exact Hoff|]. rewrite Hb. vm_compute. reflexivity.
Defined.

Lemma trigger_dispatch body fuel o e args s :
  has_space e = false → bucket s o e ≠ [] →
  trigger (call body fuel) o (NStr e) args s
  = bind (invoke_all (call body fuel) (invocations args (bucket s o e)) s)
         (λ _ s1, all_phase (call body fuel) s o (NStr e) args s1).
Proof.
  intros He Hb. apply trigger_single; [|done|by apply trigger_throws_bucket].
  intros. apply r_call, extends_respected.
Qed.

(** X11: a listener that throws ends the dispatch: when the records before
    it in the bucket have returned and its callback throws, or is not a
    function at all, [trigger] throws the same exception in the state the
    callback left; the records after it and the bucket ["all"] are not
    invoked. *)
Theorem X11_throw_ends_dispatch body fuel (o : nat) (e : string) (args : list value)
    (before after : list listener) (r : listener) (s s1 : state) :
  has_space e = false →
  bucket s o e = before ++ r :: after →
  invoke_all (call body fuel) (invocations args before) s = Ret () s1 →
  (∀ ex s2, call body fuel (callback r) (ctx r) args s1 = Exn ex s2 →
     trigger (call body fuel) o (NStr e) args s = Exn ex s2)
  ∧ ((∀ f, callback r ≠ VFn f) → fuel ≠ 0 →
     trigger (call body fuel) o (NStr e) args s = Exn TypeError s1).
Proof.
  intros He Hb Hbefore.
  assert (∀ ex s2, call body fuel (callback r) (ctx r) args s1 = Exn ex s2 →
            trigger (call body fuel) o (NStr e) args s = Exn ex s2) as Hthrow.
  { intros ex s2 Hr. rewrite trigger_dispatch; [|done|rewrite Hb; by destruct before].
    rewrite Hb.
    unfold invocations. rewrite fmap_app, invoke_all_app.
    fold (invocations args before). rewrite Hbefore. cbn [bind fmap list_fmap invoke_all].
    by rewrite Hr. }
  split; [done|]. intros Hnf Hfuel. apply Hthrow.
  destruct fuel as [|n]; [done|]. cbn [call].
  destruct (callback r) as [| | | | |f| | | | |]; try done. by destruct (Hnf f).
Qed.

Lemma X11_throw_ends_dispatch_witness :
  let s0 := state_of (on 0 (NStr "e") (VFn (FUser 0)) VUndef init) init in
  let s1 := state_of (on 0 (NStr "e") (VFn (FUser 1)) VUndef s0) s0 in
  let s := state_of (on 0 (NStr "e") (VFn (FUser 2)) VUndef s1) s1 in
  ∃ s2, trigger (call first_throws 2) 0 (NStr "e") [] s = Exn (Thrown (VStr "boom")) s2
        ∧ calls s2 = [Invoke 0 (VEm 0) []; Invoke 1 (VEm 0) []].
Proof.
  intros s0 s1 s.
  pose (r0 := Listener (VFn (FUser 0)) VUndef (VEm 0) "#1000").
  pose (r1 := Listener (VFn (FUser 1)) VUndef (VEm 0) "#1001").
  pose (r2 := Listener (VFn (FUser 2)) VUndef (VEm 0) "#1002").
  eexists. split.
  - apply (X11_throw_ends_dispatch first_throws 2 0 "e" [] [r0] [r2] r1 s
             (log (Invoke 0 (VEm 0) []) s)).
    + reflexivity.
    + vm_compute. reflexivity.
    + reflexivity.
    + reflexivity.
  - vm_compute. reflexivity.
Defined.

(** X12: a [once] wrapper is consumed by its first call whatever the
    original callback does: when the call of a wrapper that was not called
    before ends, by a return or by a throw, the wrapper is marked as
    called, and every later call of it returns at once without changing
    the state. *)
Theorem X12_once_consumed_by_a_throw body fuel (w : nat) (c : once_closure)
    (this : value) (args : list value) (s : state) :
  onces s !! w = Some c → once_called c = false →
  holds_after
    (λ s', ∃ c', onces s' !! w = Some c' ∧ once_called c' = true
                 ∧ ∀ fuel' this' args',
                     call body (S fuel') (VFn (FOnce w)) this' args' s' = Ret () s')
    (call body fuel (VFn (FOnce w)) this args s).
Proof.
  intros Hw Hc. destruct fuel as [|n]; [done|]. cbn [call]. rewrite Hw, Hc.
  set (this1 := box (length (calls s)) this).
  set (s1 := fire w this1 args s).
  assert (∃ c1, onces s1 !! w = Some c1 ∧ once_called c1 = true) as (c1 & Hw1 & Hc1).
  { unfold s1, fire. rewrite Hw. unfold log; st_simpl. rewrite lookup_insert_eq. eauto. }
  pose proof (off_frame_off (once_self c) (once_name c) (VFn (FOnce w)) VUndef s1) as HF.
  destruct (off (once_self c) (once_name c) (VFn (FOnce w)) VUndef s1) as [[] s2|ex s2|];
    cbn [bind post holds_after] in *; [| |done].
  - assert (onces s2 !! w = Some c1) as Hw2.
    { destruct HF as (_ & -> & _). done. }
    pose proof (r_call _ (once_rel_respected w) body n (once_callback c) this1 args s2) as Hp.
    destruct (call body n (once_callback c) this1 args s2) as [[] s'|ex s'|];
      cbn [post holds_after] in *; [| |done].
    all: destruct (Hp c1 Hw2) as (c' & d & Hw' & _ & _ & _ & _ & Hcalled & _).
    all: destruct (Hcalled Hc1) as [Hc' _]; exists c'; split; [done|split; [done|]].
    all: intros fuel' this' args'; cbn [call]; by rewrite Hw', Hc'.
  - assert (onces s2 !! w = Some c1) as Hw2.
    { destruct HF as (_ & -> & _). done. }
    exists c1. split; [done|split; [done|]].
    intros fuel' this' args'; cbn [call]; by rewrite Hw2, Hc1.
Qed.

Lemma X12_once_consumed_by_a_throw_witness :
  let s := state_of (once 0 (NStr "e") (VFn (FUser 1)) VUndef init) init in
  holds_after
    (λ s', ∃ c', onces s' !! 0 = Some c' ∧ once_called c' = true
                 ∧ ∀ fuel' this' args',
                     call first_throws (S fuel') (VFn (FOnce 0)) this' args' s' = Ret () s')
    (call first_throws 3 (VFn (FOnce 0)) (VEm 0) [] s).
Proof.
  intros s.
  apply (X12_once_consumed_by_a_throw first_throws 3 0
           (OnceClosure 0 (NStr "e") (VFn (FUser 1)) false)).
  - vm_compute. reflexivity.
  - reflexivity.
Defined.

(** X13: a listener whose function starts by triggering the event it
    listens to never returns: when the first record of the bucket has such
    a callback, [trigger] of that event runs out of fuel whatever the fuel
    (in the source, the stack overflows). *)
Theorem X13_retrigger_never_returns body (o : nat) (e : string) (k : nat) :
  has_space e = false →
  (∀ this args s, ∃ args' rest, body k this args s = PDo (STrigger o (NStr e) args') rest) →
  ∀ fuel args s r l,
    bucket s o e = r :: l → callback r = VFn (FUser k) →
    trigger (call body fuel) o (NStr e) args s = Fuel.
Proof.
  intros He Hbody fuel. induction fuel as [|n IH]; intros args s r l Hb Hcb.
  - rewrite trigger_dispatch; [|done|by rewrite Hb]. rewrite Hb.
    cbn [invocations fmap list_fmap invoke_all]. done.
  - rewrite trigger_dispatch; [|done|by rewrite Hb]. rewrite Hb.
    cbn [invocations fmap list_fmap invoke_all].
    rewrite Hcb. cbn [call].
    destruct (Hbody (ctx r) args (log (Invoke k (ctx r) args) s)) as (args' & rest & ->).
    cbn [exec exec_stmt]. by rewrite (IH args' _ r l).
Qed.

Lemma X13_retrigger_never_returns_witness :
  trigger (call retrigger 1000) 0 (NStr "e") []
    (state_of (on 0 (NStr "e") (VFn (FUser 1)) VUndef init) init) = Fuel.
Proof.
  apply (X13_retrigger_never_returns retrigger 0 "e" 1 eq_refl) with
    (r := Listener (VFn (FUser 1)) VUndef (VEm 0) "#1000") (l := []).
  - intros this args s. by exists [], (λ _, PRet).
  - vm_compute. reflexivity.
  - reflexivity.
Defined.

(* ===================================================================== *)
(** ** The channel router *)
(* ===================================================================== *)

Lemma channel_names_guarded : guarded (keeps channel_names_ok).
Proof.
  constructor; unfold keeps, channel_names_ok.
  - done.
  - auto.
  - intros o name cb cx s _ _ H. unfold on_own.
    by destruct (default ∅ (_events (get_obj s o)) !! key_of name).
  - done.
  - intros o cb cx s e H.
    by assert (channels (off_own o cb cx s e) = channels s) as -> by apply off_frame_name.
  - done.
  - done.
  - done.
  - done.
  - done.
  - done.
  - intros n s Hn _ H. st_simpl. by rewrite lookup_insert_ne.
  - intros n s H. st_simpl. rewrite lookup_delete. by destruct (decide (n = "")).
  - done.
  - intros w c this args s Hw _ H. unfold fire. by rewrite Hw.
Qed.

Lemma lookup_foldl_delete (m : gmap string nat) (keys : list string) (k : string) :
  foldl (λ m k, delete k m) m keys !! k = if decide (k ∈ keys) then None else m !! k.
Proof.
  revert m. induction keys as [|k0 keys IH]; intros m; cbn [foldl].
  - rewrite decide_False; [done|]. apply not_elem_of_nil.
  - rewrite IH. destruct (decide (k ∈ keys)) as [Hin|Hnin].
    + rewrite decide_True; [done|]. by right.
    + rewrite lookup_delete. destruct (decide (k0 = k)) as [->|Hne].
      * rewrite decide_True; [done|]. by left.
      * rewrite decide_False; [done|]. intros [->|]%elem_of_cons; done.
Qed.

Lemma foldl_delete_keys (m : gmap string nat) :
  foldl (λ m k, delete k m) m (map_to_list m).*1 = ∅.
Proof.
  apply map_eq. intros k. rewrite lookup_foldl_delete, lookup_empty.
  destruct (decide (k ∈ (map_to_list m).*1)) as [|Hnin]; [done|].
  destruct (m !! k) as [v|] eqn:E; [|done]. destruct Hnin.
  apply list_elem_of_fmap. exists (k, v). split; [done|]. by apply elem_of_map_to_list.
Qed.

(** The loop of the router's [off()] over a list of names of channels of
    the table. *)
Lemma remove_channels (keys : list string) (s : state) :
  "" ∉ keys → NoDup keys → (∀ k, k ∈ keys → channels s !! k ≠ None) →
  ∃ s',
    each (λ i s, ignore (removeChannel (ChStr i) s)) keys s = Ret () s'
    ∧ channels s' = foldl (λ m k, delete k m) (channels s) keys
    ∧ arrays s' = arrays s ∧ calls s' = calls s
    ∧ ∀ o, _events (get_obj s' o)
           = if decide (Exists (λ k, channels s !! k = Some o) keys) then None
             else _events (get_obj s o).
Proof.
  revert s. induction keys as [|k keys IH]; intros s Hne Hnd Hown.
  - exists s. by repeat split.
  - apply NoDup_cons in Hnd as [Hk Hnd].
    assert (k ≠ "") as Hk0 by (intros ->; apply Hne; by left).
    assert ("" ∉ keys) as Hne' by (intros H; apply Hne; by right).
    cbn [each]. unfold removeChannel at 1, channel_at. cbn [no_channel_name chkey].
    destruct (String.eqb_spec k ""); [done|].
    destruct (channels s !! k) as [o0|] eqn:Ho0;
      [|destruct (Hown k); [by left|done]].
    rewrite off_clear. cbn [ignore bind].
    set (s0 := match _events (get_obj s o0) with
               | Some _ => set_events o0 None s
               | None => s
               end).
    assert (off o0 NAbsent VUndef VUndef s = Ret () s0) as Hoff by apply off_clear.
    set (s1 := set_channels (delete k) s0).
    assert (channels s1 = delete k (channels s)) as Hch.
    { unfold s1, s0; st_simpl. by destruct (_events (get_obj s o0)). }
    assert (∀ o, Exists (λ k', channels s1 !! k' = Some o) keys
                 ↔ Exists (λ k', channels s !! k' = Some o) keys) as Hsame.
    { intros o. rewrite !Exists_exists. split; intros (k' & Hk' & Ho); exists k';
        (split; [done|]); rewrite Hch, lookup_delete_ne in *; try done; by intros ->. }
    destruct (IH s1 Hne' Hnd) as (s' & Hrun & Hc & Harr & Hcalls & Hev).
    { intros k' Hk'. rewrite Hch, lookup_delete_ne by (by intros ->).
      apply Hown. by right. }
    exists s'. split; [done|]. split; [by rewrite Hc, Hch|].
    split; [|split].
    * rewrite Harr. unfold s1, s0; st_simpl. by destruct (_events (get_obj s o0)).
    * rewrite Hcalls. unfold s1, s0; st_simpl. by destruct (_events (get_obj s o0)).
    * intros o. rewrite Hev.
      change (get_obj s1 o) with (get_obj s0 o).
      rewrite (off_clear_events o0 s s0 o Hoff).
      destruct (decide (Exists (λ k', channels s1 !! k' = Some o) keys)) as [Hex|Hno].
      { rewrite decide_True; [done|]. apply Exists_cons. right. by apply Hsame. }
      destruct (decide (o = o0)) as [->|Hoo].
      { rewrite decide_True; [done|]. apply Exists_cons. by left. }
      rewrite decide_False; [done|]. intros [Ho|Hex]%Exists_cons.
      { congruence. }
      by apply Hno, Hsame.
Qed.

Lemma remove_all_channels (s : state) :
  channels s !! "" = None →
  ∃ s',
    each (λ i s, ignore (removeChannel (ChStr i) s)) (map_to_list (channels s)).*1 s
    = Ret () s'
    ∧ channels s' = ∅
    ∧ arrays s' = arrays s ∧ calls s' = calls s
    ∧ ∀ o, _events (get_obj s' o)
           = if decide (Exists (λ k, channels s !! k = Some o) (map_to_list (channels s)).*1)
             then None
             else _events (get_obj s o).
Proof.
  intros Hne.
  destruct (remove_channels (map_to_list (channels s)).*1 s)
    as (s' & Hrun & Hc & Harr & Hcalls & Hev).
  { intros (kv & Hk & Hin)%list_elem_of_fmap. destruct kv as [k v]. cbn in Hk. subst k.
    apply elem_of_map_to_list in Hin. congruence. }
  { apply NoDup_fst_map_to_list. }
  { intros k (kv & Hk & Hin)%list_elem_of_fmap. destruct kv as [k' v]. cbn in Hk. subst k'.
    apply elem_of_map_to_list in Hin. congruence. }
  rewrite foldl_delete_keys in Hc. by exists s'.
Qed.

Lemma emit_no_channels callf name args s :
  channels s = ∅ →
  emit callf name args s
  = match inherited (resolve name).1 with
    | Some _ => Exn TypeError s
    | None => Ret () s
    end.
Proof.
  intros E. unfold emit, channel_at. destruct (resolve name) as [channel name'].
  rewrite E, lookup_empty. cbn [fst]. by destruct (inherited channel).
Qed.

(** X14: when no channel is named by the empty string, the router's
    [off()] without a name returns, invokes nothing, removes every channel
    and empties the registry of each; the registries that are not channels
    keep their buckets, and [emit] then invokes nothing whatever the name:
    it does nothing, or throws a [TypeError] when the channel of the name
    is named as a member of [Object.prototype]. *)
Theorem X14_router_off_everything body fuel (cb : value) (s : state) :
  channels s !! "" = None →
  ∃ s',
    bus_off None cb s = Ret () s'
    ∧ channels s' = ∅
    ∧ calls s' = calls s
    ∧ (∀ c o, channels s !! c = Some o →
         _events (get_obj s' o) = None ∧ ∀ e, bucket s' o e = [])
    ∧ (∀ o e, (∀ c, channels s !! c ≠ Some o) → bucket s' o e = bucket s o e)
    ∧ (∀ name args,
         emit (call body fuel) name args s'
         = match inherited (resolve name).1 with
           | Some _ => Exn TypeError s'
           | None => Ret () s'
           end).
Proof.
  intros Hne. unfold bus_off.
  destruct (remove_all_channels s Hne) as (s' & Hrun & Hc & Harr & Hcalls & Hev).
  exists s'. split; [done|]. split; [done|]. split; [done|]. split; [|split].
  - intros c o Ho.
    assert (_events (get_obj s' o) = None) as Hnone.
    { rewrite Hev, decide_True; [done|]. apply Exists_exists. exists c. split; [|done].
      apply list_elem_of_fmap. exists (c, o). split; [done|]. by apply elem_of_map_to_list. }
    split; [done|]. intros e. unfold bucket, addr. by rewrite Hnone.
  - intros o e Hno. unfold bucket, addr, array_at. rewrite Hev, Harr.
    rewrite decide_False; [done|]. intros (k & _ & Hk)%Exists_exists. by apply (Hno k).
  - intros name args. by apply emit_no_channels.
Qed.

Lemma X14_router_off_everything_witness :
  let s0 := state_of (bus_on "a:x" (VFn (FUser 1)) VUndef init) init in
  let s := state_of (bus_on "b:x" (VFn (FUser 2)) VUndef s0) s0 in
  ∃ s', bus_off None VUndef s = Ret () s'
        ∧ channels s' = ∅
        ∧ emit (call quiet 1) "a:x" [] s' = Ret () s'
        ∧ emit (call quiet 1) "valueOf:x" [] s' = Exn TypeError s'.
Proof.
  intros s0 s.
  destruct (X14_router_off_everything quiet 1 VUndef s) as (s' & H1 & H2 & _ & _ & _ & H3).
  - vm_compute. reflexivity.
  - exists s'. split; [exact H1|]. split; [exact H2|]. split; apply H3.
Defined.

(** X15: whatever the caller and the callbacks do from the state at load
    time, no channel is named by the empty string, so that the router's
    [off()] never throws: it returns and leaves no channel. *)
Theorem X15_router_off_never_throws body fuel (p : prog) :
  holds_after
    (λ s, channels s !! "" = None
          ∧ ∀ cb, ∃ s', bus_off None cb s = Ret () s' ∧ channels s' = ∅)
    (run body fuel p init).
Proof.
  pose proof (g_run _ channel_names_guarded body fuel p init) as H.
  assert (channel_names_ok init) as H0 by done.
  assert (∀ s, channel_names_ok s →
            channels s !! "" = None
            ∧ ∀ cb, ∃ s', bus_off None cb s = Ret () s' ∧ channels s' = ∅) as Hs.
  { intros s Hok. split; [done|]. intros cb.
    destruct (remove_all_channels s Hok) as (s' & Hrun & Hc & _). by exists s'. }
  destruct (run body fuel p init); simpl in *; try done; by apply Hs, H.
Qed.

Lemma bucket_new_channel n s o' e :
  bucket (set_channels <[n := fresh (dom (objs s))]>
            (set_objs <[fresh (dom (objs s)) := new_emitter]> s)) o' e
  = bucket s o' e.
Proof. unfold bucket. by rewrite addr_new_channel. Qed.







Lemma resolve_empty_channel rest : ∃ name', resolve (":" +:+ rest) = ("", name').
Proof.
  unfold resolve. change (":" +:+ rest) with (String colon rest).
  cbn [has_char]. rewrite bool_decide_eq_true_2 by done. cbn [orb].
  unfold split_char. cbn [split_char_go]. rewrite bool_decide_eq_true_2 by done.
  cbn [lookup list_lookup default]. eauto.
Qed.

(** X17: a name that starts with a colon names the channel [""]: the
    router's [on] and [once] throw what [addChannel] throws and leave the
    state as it was; when no channel is named by the empty string, [emit]
    and [off] under such a name do nothing. *)
Theorem X17_empty_channel_prefix body fuel (rest : string) (cb cx : value)
    (args : list value) (s : state) :
  bus_on (":" +:+ rest) cb cx s = Exn (Thrown (VStr "Cant add undefined channel")) s
  ∧ bus_once (":" +:+ rest) cb cx s = Exn (Thrown (VStr "Cant add undefined channel")) s
  ∧ (channels s !! "" = None →
     emit (call body fuel) (":" +:+ rest) args s = Ret () s
     ∧ bus_off (Some (":" +:+ rest)) cb s = Ret () s).
Proof.
  destruct (resolve_empty_channel rest) as [name' Hres].
  split; [|split].
  - unfold bus_on, bus_register. by rewrite Hres.
  - unfold bus_once, bus_register. by rewrite Hres.
  - intros Hch. split.
    + unfold emit, channel_at. by rewrite Hres, Hch.
    + unfold bus_off, channel_at. change (":" +:+ rest) with (String colon rest) in *.
      cbn [String.get]. rewrite bool_decide_eq_false_2 by (intros [=]).
      by rewrite Hres, Hch.
Qed.

Lemma X17_empty_channel_prefix_witness :
  bus_on ":evt" (VFn (FUser 1)) VUndef init
  = Exn (Thrown (VStr "Cant add undefined channel")) init
  ∧ emit (call quiet 1) ":evt" [] init = Ret () init.
Proof.
  destruct (X17_empty_channel_prefix quiet 1 "evt" (VFn (FUser 1)) VUndef [] init)
    as (H1 & _ & H3).
  split; [exact H1|]. apply H3. reflexivity.
Defined.

Lemma split_at_sign chan :
  has_char at_sign chan = false → split_char at_sign ("@" +:+ chan) !! 1 = Some chan.
Proof.
  intros H. change ("@" +:+ chan) with (String at_sign chan).
  unfold split_char. cbn [split_char_go]. rewrite bool_decide_eq_true_2 by done.
  by rewrite split_char_go_none.
Qed.

(** X18: the router's [off("@chan")], for a channel name without [@],
    removes that channel when it is in the table: the channel leaves the
    table, its registry is emptied, no callback is invoked and the buckets
    of every other registry are unchanged; the second argument plays no
    part. When the channel is not in the table nothing changes, and the
    call throws a [TypeError] when the channel is named as a member of
    [Object.prototype]. *)
Theorem X18_router_off_channel (chan : string) (cb : value) (s : state) :
  has_char at_sign chan = false → chan ≠ "" →
  match channel_at s chan with
  | ChanRegistry o =>
      ∃ s', bus_off (Some ("@" +:+ chan)) cb s = Ret () s'
            ∧ channels s' = delete chan (channels s)
            ∧ calls s' = calls s
            ∧ (∀ e, bucket s' o e = [])
            ∧ (∀ o' e, o' ≠ o → bucket s' o' e = bucket s o' e)
  | ChanInherited => bus_off (Some ("@" +:+ chan)) cb s = Exn TypeError s
  | ChanMissing => bus_off (Some ("@" +:+ chan)) cb s = Ret () s
  end.
Proof.
  intros Hat Hne. unfold bus_off. rewrite split_at_sign by done.
  change ("@" +:+ chan) with (String at_sign chan). cbn [String.get].
  rewrite bool_decide_eq_true_2 by done.
  unfold removeChannel. cbn [no_channel_name chkey].
  destruct (String.eqb_spec chan ""); [done|].
  destruct (channel_at s chan) as [o| |] eqn:Ho; [|done..].
  pose proof (off_clear o s) as Hoff. rewrite Hoff. cbn [ignore bind].
  set (s0 := match _events (get_obj s o) with
             | Some _ => set_events o None s
             | None => s
             end) in *.
  eexists. split; [done|]. split; [|split; [|split]].
  - unfold s0. st_simpl. by destruct (_events (get_obj s o)).
  - unfold s0. st_simpl. by destruct (_events (get_obj s o)).
  - intros e. unfold bucket, addr.
    change (get_obj (set_channels _ ?x) o) with (get_obj x o).
    by rewrite (off_clear_events o s s0 o Hoff), decide_True.
  - intros o' e Hoo. unfold bucket, addr, array_at.
    change (get_obj (set_channels _ ?x) o') with (get_obj x o').
    rewrite (off_clear_events o s s0 o' Hoff), decide_False by done. st_simpl.
    unfold s0. by destruct (_events (get_obj s o)).
Qed.

Lemma X18_router_off_channel_witness :
  let s0 := state_of (bus_on "a:x" (VFn (FUser 1)) VUndef init) init in
  let s := state_of (bus_on "b:x" (VFn (FUser 2)) VUndef s0) s0 in
  ∃ s', bus_off (Some "@a") VUndef s = Ret () s'
        ∧ bucket s' 0 "x" = []
        ∧ bucket s' 1 "x" = [Listener (VFn (FUser 2)) VBus VBus "#1001"].
Proof.
  intros s0 s.
  pose proof (X18_router_off_channel "a" VUndef s eq_refl) as H.
  assert (channel_at s "a" = ChanRegistry 0) as Hc by (vm_compute; reflexivity).
  rewrite Hc in H.
  destruct H as (s' & H1 & _ & _ & H4 & H5); [discriminate|].
  exists s'. split; [exact H1|]. split; [apply H4|].
  rewrite H5 by discriminate. vm_compute. reflexivity.
Defined.



(* ===================================================================== *)
(** ** listenTo and stopListening *)
(* ===================================================================== *)

Lemma on_own_objects o name cb cx s o' :
  _listeningTo (get_obj (on_own o name cb cx s).1 o') = _listeningTo (get_obj s o')
  ∧ _listenId (get_obj (on_own o name cb cx s).1 o') = _listenId (get_obj s o').
Proof.
  unfold on_own.
  destruct (default ∅ (_events (get_obj s o)) !! key_of name) as [a|]; cbn [fst].
  all: change (get_obj (set_arrays ?f ?x) o') with (get_obj x o').
  all: change (get_obj (set_maxHashId ?f ?x) o') with (get_obj x o').
  all: rewrite get_obj_set_events.
  all: change (get_obj (set_arrays ?f ?x) o) with (get_obj x o).
  all: by destruct (decide (o = o')) as [<-|].
Qed.

Lemma on_fail_objects o s o' :
  _listeningTo (get_obj (on_fail o s) o') = _listeningTo (get_obj s o')
  ∧ _listenId (get_obj (on_fail o s) o') = _listenId (get_obj s o').
Proof.
  unfold on_fail.
  change (get_obj (set_maxHashId ?f ?x) o') with (get_obj x o').
  rewrite get_obj_set_events.
  by destruct (decide (o = o')) as [<-|].
Qed.

Lemma on_throws_same s s' o e :
  (∀ o e, addr s' o e = addr s o e) → on_throws s' o e = on_throws s o e.
Proof. intros H. unfold on_throws. by rewrite H. Qed.

(** The bookkeeping of [listenTo] and [listenToOnce] before the call of
    [on] or [once] on the source. *)
Lemma listen_prepare (o src : nat) (name : ename) (cb : value) (s : state) :
  let lid := default (listen_key (idCounter s)) (_listenId (get_obj s src)) in
  ∃ s3,
    (∀ impl,
       listen impl o src name cb s
       = ignore (impl src name (if negb (truthy cb) && isMap name then VEm o else cb)
                   (VEm o) s3))
    ∧ _listenId (get_obj s3 src) = Some lid
    ∧ _listeningTo (get_obj s3 o)
      = Some (<[lid := src]> (default ∅ (_listeningTo (get_obj s o))))
    ∧ (wf s → wf s3) ∧ maxHashId s3 = maxHashId s ∧ onces s3 = onces s
    ∧ arrays s3 = arrays s
    ∧ (∀ o' e', addr s3 o' e' = addr s o' e').
Proof.
  intros lid. unfold listen.
  set (lt := default ∅ (_listeningTo (get_obj s o))).
  set (s1 := set_listeningTo o (Some lt) s).
  assert (_listenId (get_obj s1 src) = _listenId (get_obj s src)) as Hid1
    by apply listenId_set_listeningTo.
  rewrite Hid1.
  assert (∃ s2, (match _listenId (get_obj s src) with
                 | Some i => (i, s1)
                 | None => ("l" +:+ pretty (N.succ (idCounter s1)),
                            set_listenId src (Some ("l" +:+ pretty (N.succ (idCounter s1))))
                              (set_idCounter N.succ s1))
                 end) = (lid, s2)
                ∧ _listenId (get_obj s2 src) = Some lid
                ∧ (wf s → wf s2) ∧ maxHashId s2 = maxHashId s ∧ onces s2 = onces s
                ∧ arrays s2 = arrays s
                ∧ (∀ o' e', addr s2 o' e' = addr s o' e'))
    as (s2 & -> & Hid2 & Hwf2 & Hmax & Honces & Harr & Hb2).
  { assert (wf s → wf s1) as Hwf1 by (intros; by apply (r_listeningTo _ wf_respected)).
    assert (∀ o' e', addr s1 o' e' = addr s o' e') as Hb1.
    { intros. apply addr_set_listeningTo. }
    unfold lid. destruct (_listenId (get_obj s src)) as [i|] eqn:Hi.
    - exists s1. cbn [default]. split; [done|]. split; [by rewrite Hid1|]. done.
    - eexists. cbn [default]. split; [reflexivity|]. split; [|split; [|split; [|split; [|split]]]].
      + by rewrite get_obj_set_listenId_eq.
      + intros Hwf. apply (r_listenId _ wf_respected).
        by apply (r_idCounter _ wf_respected), Hwf1.
      + done.
      + done.
      + done.
      + intros o' e'. rewrite <- Hb1. by rewrite addr_set_listenId. }
  set (s3 := set_listeningTo o (Some (<[lid := src]> lt)) s2).
  exists s3. split; [done|].
  split; [unfold s3; by rewrite listenId_set_listeningTo|].
  split; [unfold s3; by rewrite get_obj_set_listeningTo_eq|].
  split; [intros Hwf; by apply (r_listeningTo _ wf_respected), Hwf2|].
  split; [done|]. split; [done|]. split; [done|].
  intros. unfold s3. by rewrite addr_set_listeningTo.
Qed.

(** X20: [listenTo(obj, name, callback)] for a single name and a truthy
    callback, in a well-formed state: the source object keeps its listen
    id, or draws one from the counter when it has none; the listener
    records the source under that id in its [_listeningTo] table, keeping
    the other entries; then [on] of the source is called: it throws a
    [TypeError], after that bookkeeping and without a change to any
    bucket, when the source has no bucket of the name and the name is that
    of a member of [Object.prototype]; otherwise the source gets one
    record at the end of the bucket of the name, with the listener both as
    context and as [this] of the callback, and no other bucket changes. *)
Theorem X20_listenTo_records_source (o src : nat) (e : string) (cb : value) (s : state) :
  wf s → has_space e = false → truthy cb = true →
  let lid := default (listen_key (idCounter s)) (_listenId (get_obj s src)) in
  ∃ s',
    listenTo o src (NStr e) cb s
    = (if on_throws s src e then Exn TypeError s' else Ret () s')
    ∧ _listenId (get_obj s' src) = Some lid
    ∧ _listeningTo (get_obj s' o)
      = Some (<[lid := src]> (default ∅ (_listeningTo (get_obj s o))))
    ∧ ∀ o' e',
        bucket s' o' e'
        = if decide (o' = src ∧ e' = e ∧ on_throws s src e = false)
          then bucket s src e
               ++ [Listener cb (VEm o) (VEm o) (hash_key (maxHashId s))]
          else bucket s o' e'.
Proof.
  intros Hwf He Hcb lid.
  destruct (listen_prepare o src (NStr e) cb s)
    as (s3 & Hl & Hid & Hlt & Hwf3 & Hmax & _ & Harr & Haddr).
  specialize (Hwf3 Hwf).
  unfold listenTo. rewrite Hl. cbn [isMap]. rewrite andb_false_r.
  rewrite (on_single_cases src e cb (VEm o) s3 He Hcb).
  rewrite (on_throws_same s s3) by done.
  assert (∀ o' e', bucket s3 o' e' = bucket s o' e') as Hb3.
  { intros. by apply bucket_same. }
  destruct (on_throws s src e) eqn:Ht; cbn [ignore bind].
  - eexists. split; [done|].
    destruct (on_fail_objects src s3 src) as [_ ->].
    destruct (on_fail_objects src s3 o) as [-> _].
    split; [done|]. split; [done|]. intros o' e'.
    rewrite decide_False by (intros (_ & _ & ?); done).
    by rewrite bucket_on_fail.
  - eexists. split; [done|].
    destruct (on_own_objects src (NStr e) cb (VEm o) s3 src) as [_ ->].
    destruct (on_own_objects src (NStr e) cb (VEm o) s3 o) as [-> _].
    split; [done|]. split; [done|].
    intros o' e'. rewrite on_own_bucket by done. cbn [key_of].
    rewrite !Hb3. unfold new_listener. cbn [truthy]. rewrite Hmax.
    destruct (decide (o' = src ∧ e' = e)) as [[-> ->]|N].
    + by rewrite decide_True.
    + rewrite decide_False; [done|]. intros (? & ? & _). by apply N.
Qed.

Lemma X20_listenTo_records_source_witness :
  ∃ s', listenTo 1 0 (NStr "e") (VFn (FUser 1)) init = Ret () s'
        ∧ _listenId (get_obj s' 0) = Some "l1"
        ∧ _listeningTo (get_obj s' 1) = Some {["l1" := 0]}
        ∧ bucket s' 0 "e" = [Listener (VFn (FUser 1)) (VEm 1) (VEm 1) "#1000"].
Proof.
  destruct (X20_listenTo_records_source 1 0 "e" (VFn (FUser 1)) init wf_init eq_refl eq_refl)
    as (s' & H0 & H1 & H2 & H3).
  exists s'. split; [exact H0|]. split; [exact H1|]. split; [exact H2|].
  rewrite H3. reflexivity.
Defined.

Lemma lookup_foldl_delete_fst (m : gmap string nat) (l : list (string * nat)) (k : string) :
  foldl (λ m kv, delete kv.1 m) m l !! k = if decide (k ∈ l.*1) then None else m !! k.
Proof.
  revert m. induction l as [|[k0 v0] l IH]; intros m; cbn [foldl fmap list_fmap fst].
  - rewrite decide_False; [done|]. apply not_elem_of_nil.
  - rewrite IH. destruct (decide (k ∈ l.*1)) as [Hin|Hnin].
    + rewrite decide_True; [done|]. by right.
    + rewrite lookup_delete. destruct (decide (k0 = k)) as [->|Hne].
      * rewrite decide_True; [done|]. by left.
      * rewrite decide_False; [done|]. intros [->|]%elem_of_cons; done.
Qed.

Lemma foldl_delete_entries (m : gmap string nat) :
  foldl (λ m kv, delete kv.1 m) m (map_to_list m) = ∅.
Proof.
  apply map_eq. intros k. rewrite lookup_foldl_delete_fst, lookup_empty.
  destruct (decide (k ∈ (map_to_list m).*1)) as [|Hnin]; [done|].
  destruct (m !! k) as [v|] eqn:E; [|done]. destruct Hnin.
  apply list_elem_of_fmap. exists (k, v). split; [done|]. by apply elem_of_map_to_list.
Qed.

(** One turn of the loop of [stopListening()]: [off] with a context only
    walks the buckets of the table and cannot throw. *)
Lemma stop_one_all (o : nat) (k : string) (x : nat) (s : state) (lt : gmap string nat) :
  no_empty_buckets s → _listeningTo (get_obj s o) = Some lt →
  ∃ s2,
    stop_one o true NAbsent VUndef (k, x) s = Ret () s2
    ∧ no_empty_buckets s2
    ∧ _listeningTo (get_obj s2 o) = Some (delete k lt)
    ∧ calls s2 = calls s
    ∧ ∀ src e,
        bucket s2 src e
        = if decide (src = x) then filter (λ ev, context ev ≠ VEm o) (bucket s src e)
          else bucket s src e.
Proof.
  intros Hne Hlt.
  destruct (off_bucket_names x NAbsent VUndef (VEm o) s eq_refl Hne) as (s1 & Hoff & Hb1).
  { right. constructor. }
  pose proof (off_frame_off x NAbsent VUndef (VEm o) s) as HF. rewrite Hoff in HF.
  pose proof (r_off _ no_empty_respected x NAbsent VUndef (VEm o) s) as HN.
  rewrite Hoff in HN.
  assert (_listeningTo (get_obj s1 o) = Some lt) as Hlt1.
  { rewrite <- Hlt. apply HF. }
  unfold stop_one. cbn [fst snd orb]. rewrite Hoff. cbn [bind]. rewrite Hlt1.
  eexists. split; [done|]. split; [|split; [|split]].
  - apply (r_listeningTo _ no_empty_respected). by apply HN.
  - by rewrite get_obj_set_listeningTo_eq.
  - st_simpl. apply HF.
  - intros src e. transitivity (bucket s1 src e).
    { apply bucket_same; [|done]. intros. apply addr_set_listeningTo. }
    rewrite Hb1. cbn [aims]. rewrite andb_true_r.
    destruct (decide (src = x)) as [->|N].
    + rewrite bool_decide_eq_true_2 by done. by apply remaining_context.
    + by rewrite bool_decide_eq_false_2.
Qed.

(** The loop of [stopListening()] over a list of entries. *)
Lemma stop_all (o : nat) (l : list (string * nat)) (s : state) (lt : gmap string nat) :
  no_empty_buckets s → _listeningTo (get_obj s o) = Some lt →
  ∃ s',
    each (stop_one o true NAbsent VUndef) l s = Ret () s'
    ∧ _listeningTo (get_obj s' o) = Some (foldl (λ m kv, delete kv.1 m) lt l)
    ∧ calls s' = calls s
    ∧ ∀ src e,
        bucket s' src e
        = if decide (src ∈ l.*2) then filter (λ ev, context ev ≠ VEm o) (bucket s src e)
          else bucket s src e.
Proof.
  revert s lt. induction l as [|[k x] l IH]; intros s lt Hne Hlt; cbn [foldl each].
  - exists s. by repeat split.
  - destruct (stop_one_all o k x s lt Hne Hlt) as (s2 & Hs2 & Hne2 & Hlt2 & Hc2 & Hb2).
    rewrite Hs2. cbn [bind].
    destruct (IH s2 (delete k lt) Hne2 Hlt2) as (s' & Hrun & H1 & H2 & H3).
    exists s'. split; [done|]. split; [done|]. split; [by rewrite H2|].
    intros src e. rewrite H3, Hb2, fmap_cons. cbn [snd].
    destruct (decide (src ∈ l.*2)) as [Hin|Hnin].
    + rewrite (decide_True (P := src ∈ x :: l.*2)) by (apply elem_of_cons; by right).
      destruct (decide (src = x)); [|done].
      rewrite list_filter_filter. apply list_filter_iff. tauto.
    + destruct (decide (src = x)) as [->|N].
      * rewrite (decide_True (P := x ∈ x :: l.*2)) by (apply elem_of_cons; by left). done.
      * rewrite (decide_False (P := src ∈ x :: l.*2)); [done|].
        intros [->|]%elem_of_cons; done.
Qed.

(** X21: [stopListening()] without arguments, when no bucket is empty,
    returns: the [_listeningTo] table of the listener becomes empty,
    nothing is invoked, and every object that was in the table loses, in
    each of its buckets, exactly the records whose context is the
    listener; the buckets of the objects that were not in the table are
    unchanged. An object that never listened is left as it is. *)
Theorem X21_stopListening_everything (o : nat) (s : state) :
  no_empty_buckets s →
  match _listeningTo (get_obj s o) with
  | None => stopListening o None NAbsent VUndef s = Ret () s
  | Some lt =>
      ∃ s',
        stopListening o None NAbsent VUndef s = Ret () s'
        ∧ _listeningTo (get_obj s' o) = Some ∅
        ∧ calls s' = calls s
        ∧ (∀ i src e, lt !! i = Some src →
             bucket s' src e = filter (λ ev, context ev ≠ VEm o) (bucket s src e))
        ∧ (∀ src e, (∀ i, lt !! i ≠ Some src) → bucket s' src e = bucket s src e)
  end.
Proof.
  intros Hne. unfold stopListening.
  destruct (_listeningTo (get_obj s o)) as [lt|] eqn:Hlt; [|done].
  cbn [name_truthy isMap truthy negb andb].
  destruct (stop_all o (map_to_list lt) s lt Hne Hlt) as (s' & Hrun & H1 & H2 & H3).
  rewrite foldl_delete_entries in H1.
  exists s'. split; [done|]. split; [done|]. split; [done|]. split.
  - intros i src e Hi. rewrite H3, decide_True; [done|].
    apply list_elem_of_fmap. exists (i, src). split; [done|]. by apply elem_of_map_to_list.
  - intros src e Hno. rewrite H3, decide_False; [done|].
    intros ([i x] & Hx & Hin)%list_elem_of_fmap. cbn in Hx. subst x.
    apply elem_of_map_to_list in Hin. by apply (Hno i).
Qed.

Lemma X21_stopListening_everything_witness :
  let s0 := state_of (on 0 (NStr "e") (VFn (FUser 1)) VUndef init) init in
  let s := state_of (listenTo 1 0 (NStr "e") (VFn (FUser 2)) s0) s0 in
  ∃ s', stopListening 1 None NAbsent VUndef s = Ret () s'
        ∧ _listeningTo (get_obj s' 1) = Some ∅
        ∧ bucket s' 0 "e" = [Listener (VFn (FUser 1)) VUndef (VEm 0) "#1000"].
Proof.
  intros s0 s.
  assert (no_empty_buckets s) as Hne.
  { apply post_state_of; [apply post_state_of; [done|apply (r_on _ no_empty_respected)]|].
    apply (r_listen _ no_empty_respected); intros; apply (r_on _ no_empty_respected). }
  pose proof (X21_stopListening_everything 1 s Hne) as H.
  assert (_listeningTo (get_obj s 1) = Some {["l1" := 0]}) as Hlt by (vm_compute; reflexivity).
  rewrite Hlt in H.
  destruct H as (s' & H0 & H1 & _ & H3 & _).
  exists s'. split; [exact H0|]. split; [exact H1|].
  rewrite (H3 "l1" 0 "e" eq_refl). vm_compute. reflexivity.
Defined.

Lemma listen_key_inj n m : listen_key n = listen_key m → n = m.
Proof.
  unfold listen_key. intros H. injection H as H.
  assert (N.succ n = N.succ m) by (by apply (inj pretty)). lia.
Qed.

Lemma listen_ok_same s s' :
  (∀ o, _listeningTo (get_obj s' o) = _listeningTo (get_obj s o)
        ∧ _listenId (get_obj s' o) = _listenId (get_obj s o)) →
  idCounter s' = idCounter s → listen_ok s → listen_ok s'.
Proof.
  intros Ho Hc (L1 & L2 & L3). split; [|split].
  - intros o lt i src Hlt Hi. destruct (Ho o) as [E _]. destruct (Ho src) as [_ ->].
    rewrite E in Hlt. by apply (L1 o lt).
  - intros o i Hi. destruct (Ho o) as [_ E]. rewrite E in Hi. rewrite Hc. by apply (L2 o).
  - intros o1 o2 i H1 H2. destruct (Ho o1) as [_ E1]. destruct (Ho o2) as [_ E2].
    rewrite E1 in H1. rewrite E2 in H2. by apply (L3 o1 o2 i).
Qed.

Lemma listen_ok_table o lt' s :
  (∀ i src, lt' !! i = Some src → _listenId (get_obj s src) = Some i) →
  listen_ok s → listen_ok (set_listeningTo o (Some lt') s).
Proof.
  intros Hlt' (L1 & L2 & L3). split; [|split].
  - intros o' lt i src Hlt Hi. rewrite listenId_set_listeningTo.
    destruct (decide (o = o')) as [<-|N].
    + rewrite get_obj_set_listeningTo_eq in Hlt. cbn in Hlt. injection Hlt as <-.
      by apply Hlt'.
    + rewrite get_obj_set_listeningTo_ne in Hlt by done. by apply (L1 o' lt).
  - intros o' i. rewrite listenId_set_listeningTo. apply L2.
  - intros o1 o2 i. rewrite !listenId_set_listeningTo. apply L3.
Qed.

Lemma listen_guarded : guarded (keeps listen_ok).
Proof.
  constructor; unfold keeps.
  - done.
  - auto.
  - intros o name cb cx s _ _. apply listen_ok_same.
    + intros o'. apply on_own_objects.
    + unfold on_own. by destruct (default ∅ (_events (get_obj s o)) !! key_of name).
  - intros o s. apply listen_ok_same; [|done]. intros o'. apply on_fail_objects.
  - intros o cb cx s e. pose proof (off_frame_name o cb cx s e) as (_ & _ & _ & _ & Hc & Ho).
    by apply listen_ok_same.
  - intros o s. pose proof (off_frame_set_events o None s) as (_ & _ & _ & _ & Hc & Ho).
    by apply listen_ok_same.
  - intros o name cb s _. by apply listen_ok_same.
  - intros o s H. apply listen_ok_table; [|done]. destruct H as (L1 & _).
    intros i src Hi. destruct (_listeningTo (get_obj s o)) as [lt|] eqn:Hlt.
    + by apply (L1 o lt).
    + cbn in Hi. by rewrite lookup_empty in Hi.
  - intros src s Hnone (L1 & L2 & L3). split; [|split].
    + intros o lt i x. rewrite listeningTo_set_listenId.
      change (get_obj (set_idCounter ?f ?y) o) with (get_obj y o).
      intros Hlt Hi. pose proof (L1 o lt i x Hlt Hi) as Hx.
      destruct (decide (src = x)) as [->|N]; [congruence|].
      by rewrite get_obj_set_listenId_ne.
    + intros o i. destruct (decide (src = o)) as [<-|N].
      * rewrite get_obj_set_listenId_eq. cbn. intros [= <-].
        exists (idCounter s). split; [done|]. st_simpl. lia.
      * rewrite get_obj_set_listenId_ne by done.
        change (get_obj (set_idCounter ?f ?y) o) with (get_obj y o).
        intros Hi. destruct (L2 o i Hi) as (n & -> & Hn). exists n. split; [done|].
        st_simpl. lia.
    + assert (∀ o i, o ≠ src → _listenId (get_obj s o) = Some i →
                i ≠ listen_key (idCounter s)) as Hnew.
      { intros o i _ Hi ->. destruct (L2 o _ Hi) as (n & Hn%listen_key_inj & Hlt). lia. }
      intros o1 o2 i.
      destruct (decide (src = o1)) as [<-|N1]; destruct (decide (src = o2)) as [<-|N2];
        try done.
      * rewrite get_obj_set_listenId_eq, get_obj_set_listenId_ne by done. cbn.
        change (get_obj (set_idCounter ?f ?y) o2) with (get_obj y o2).
        intros [= <-] H2. by destruct (Hnew o2 _ (not_eq_sym N2) H2).
      * rewrite get_obj_set_listenId_eq, get_obj_set_listenId_ne by done. cbn.
        change (get_obj (set_idCounter ?f ?y) o1) with (get_obj y o1).
        intros H1 [= <-]. by destruct (Hnew o1 _ (not_eq_sym N1) H1).
      * rewrite !get_obj_set_listenId_ne by done.
        change (get_obj (set_idCounter ?f ?y) o1) with (get_obj y o1).
        change (get_obj (set_idCounter ?f ?y) o2) with (get_obj y o2).
        apply L3.
  - intros o src lid lt s Hid Hlt H. apply listen_ok_table; [|done]. destruct H as (L1 & _).
    intros i x Hi. rewrite lookup_insert in Hi. destruct (decide (lid = i)) as [<-|N].
    + by injection Hi as <-.
    + by apply (L1 o lt).
  - intros o lt i s Hlt H. apply listen_ok_table; [|done]. destruct H as (L1 & _).
    intros j x Hj. rewrite lookup_delete in Hj. destruct (decide (i = j)); [done|].
    by apply (L1 o lt).
  - intros n s _ _. apply listen_ok_same; [|done]. intros o.
    change (get_obj (set_channels ?f ?y) o) with (get_obj y o).
    by rewrite get_obj_new_emitter.
  - intros n s. by apply listen_ok_same.
  - intros k this args s. by apply listen_ok_same.
  - intros w c this args s Hw _. apply listen_ok_same; unfold fire; by rewrite Hw.
Qed.

(** X22: whatever the caller and the callbacks do from the state at load
    time, the bookkeeping of [listenTo] is consistent: every entry of a
    [_listeningTo] table is stored under the [_listenId] of the object it
    holds, every [_listenId] is ["l"] followed by a value the counter of
    [_.uniqueId] has passed, and two objects never share one. *)
Theorem X22_listen_ids_consistent body fuel (p : prog) :
  holds_after
    (λ s, (∀ o lt i src,
             _listeningTo (get_obj s o) = Some lt → lt !! i = Some src →
             _listenId (get_obj s src) = Some i)
          ∧ (∀ o i, _listenId (get_obj s o) = Some i →
               ∃ n, i = listen_key n ∧ (n < idCounter s)%N)
          ∧ (∀ o1 o2 i,
               _listenId (get_obj s o1) = Some i → _listenId (get_obj s o2) = Some i →
               o1 = o2))
    (run body fuel p init).
Proof.
  pose proof (g_run _ listen_guarded body fuel p init) as H.
  assert (listen_ok init) as H0.
  { split; [|split]; intros; unfold get_obj in *; cbn in *;
      rewrite ?lookup_empty in *; by cbn in *. }
  destruct (run body fuel p init); simpl in *; try done; by apply H.
Qed.



(** X24: with an event map as name, [once], [off] and [trigger] work
    entry by entry, in the order of the map and up to the first entry that
    throws, with the value of the entry put before the other arguments:
    [once] and [off] take it as the callback and the second argument of
    the call as the context, and [trigger] passes it to the listeners as
    the first argument. [off] and [trigger] do nothing on a registry
    without table. *)
Theorem X24_event_maps (callf : invoker) (o : nat) (m : list (string * value))
    (cb cx : value) (args : list value) (s : state) :
  once o (NMap m) cb cx s
  = bind (each (λ kv s, ignore (once o (NStr kv.1) kv.2 cb s)) m s) (λ _ s', Ret None s')
  ∧ off o (NMap m) cb cx s
    = match _events (get_obj s o) with
      | None => Ret () s
      | Some _ => each (λ kv, off o (NStr kv.1) kv.2 cb) m s
      end
  ∧ trigger callf o (NMap m) args s
    = match _events (get_obj s o) with
      | None => Ret () s
      | Some _ => each (λ kv, trigger callf o (NStr kv.1) (kv.2 :: args)) m s
      end.
Proof.
  split; [|split].
  - unfold once at 1. rewrite once_n_S. cbn [eventsApi]. rewrite each_fmap. f_equal.
    apply (each_ext_Forall (λ _, True)); [by apply Forall_forall|].
    intros [k v] s' _. cbn [fst snd].
    change (arg 0 (v :: [cb; cx])) with v. change (arg 1 (v :: [cb; cx])) with cb.
    unfold once. by rewrite (once_n_string 1).
  - unfold off at 1. rewrite off_n_S. destruct (_events (get_obj s o)); [|done].
    cbn [eventsApi]. rewrite each_fmap.
    apply (each_ext_Forall (λ _, True)); [by apply Forall_forall|].
    intros [k v] s' _. cbn [fst snd].
    change (arg 0 (v :: [cb; cx])) with v. change (arg 1 (v :: [cb; cx])) with cb.
    unfold off. by rewrite (off_n_string 1).
  - unfold trigger at 1. rewrite trigger_n_S. destruct (_events (get_obj s o)); [|done].
    cbn [eventsApi]. rewrite each_fmap.
    apply (each_ext_Forall (λ _, True)); [by apply Forall_forall|].
    intros [k v] s' _. cbn [fst snd]. unfold trigger. by rewrite (trigger_n_string 1).
Qed.

(** X25: [addChannel] with a non-empty name returns and never replaces a
    registry: when the channel is in the table the state is unchanged, so
    that its listeners stay; when it is not and the name is that of a
    member of [Object.prototype] the state is unchanged too and there is
    still no such channel; otherwise the channel is bound to a fresh
    object without table. In every case every bucket is as before, and a
    second call changes nothing. *)
Theorem X25_addChannel_keeps_registries (n : string) (s : state) :
  n ≠ "" →
  ∃ s',
    addChannel (ChStr n) s = Ret () s'
    ∧ match channel_at s n with
      | ChanRegistry o => s' = s
      | ChanInherited => s' = s ∧ channels s !! n = None
      | ChanMissing =>
          ∃ o, objs s !! o = None ∧ _events (get_obj s' o) = None
               ∧ channels s' = <[n := o]> (channels s)
      end
    ∧ (∀ o' e, bucket s' o' e = bucket s o' e)
    ∧ addChannel (ChStr n) s' = Ret () s'.
Proof.
  intros Hn. unfold addChannel. cbn [no_channel_name chkey].
  destruct (String.eqb_spec n ""); [done|].
  destruct (channel_at s n) as [o| |] eqn:Ho.
  - exists s. rewrite Ho. by repeat split.
  - exists s. rewrite Ho. apply channel_at_inherited in Ho as [Ho _]. by repeat split.
  - eexists. split; [done|]. split; [|split].
    + exists (fresh (dom (objs s))). split; [apply not_elem_of_dom, is_fresh|].
      split; [|done]. unfold get_obj. st_simpl. by rewrite lookup_insert_eq.
    + intros o' e. apply bucket_new_channel.
    + unfold channel_at. st_simpl. by rewrite lookup_insert_eq.
Qed.

Lemma X25_addChannel_keeps_registries_witness :
  ∃ s', addChannel (ChStr "chanA") init = Ret () s'
        ∧ channels s' = <["chanA" := 0]> ∅
        ∧ addChannel (ChStr "chanA") s' = Ret () s'.
Proof.
  destruct (X25_addChannel_keeps_registries "chanA" init)
    as (s' & H1 & H2 & _ & H4).
  - discriminate.
  - exists s'. split; [exact H1|]. split; [|exact H4].
    vm_compute in H1. injection H1 as <-. vm_compute. reflexivity.
Defined.

(** X26: a [once] registration is cancelled by [off] with the original
    callback: in a well-formed state, after [once(e, f, cx)] under a single
    non-empty name, [off(e, f)] removes the record of the wrapper, together
    with the records of [f] that were in the bucket before, and leaves
    every other bucket as it was before the [once]. Both calls return
    unless the table has no bucket of [e] and [e] is the name of a member
    of [Object.prototype]; the buckets are as said in that case too. *)
Theorem X26_once_cancelled_by_original (o : nat) (e : string) (f : fn) (cx : value)
    (s : state) :
  wf s → has_space e = false → e ≠ "" →
  let s1 := state_of (once o (NStr e) (VFn f) cx s) s in
  let s2 := state_of (off o (NStr e) (VFn f) VUndef s1) s1 in
  (on_throws s o e = false →
   (∃ h, once o (NStr e) (VFn f) cx s = Ret (Some h) s1)
   ∧ off o (NStr e) (VFn f) VUndef s1 = Ret () s2)
  ∧ ∀ o' e',
      bucket s2 o' e'
      = if decide (o' = o ∧ e' = e)
        then filter (λ ev, ¬ targeted s1 (VFn f) VUndef ev) (bucket s o e)
        else bucket s o' e'.
Proof.
  intros Hwf He Hne s1 s2.
  set (w := fresh (dom (onces s))).
  set (s0 := set_onces <[w := OnceClosure o (NStr e) (VFn f) false]> s).
  assert (once o (NStr e) (VFn f) cx s
          = if on_throws s o e then Exn TypeError (on_fail o s0)
            else Ret (Some (on_own o (NStr e) (VFn (FOnce w)) cx s0).2)
                     (on_own o (NStr e) (VFn (FOnce w)) cx s0).1) as Honce.
  { rewrite (once_unfold o e (VFn f) cx s He eq_refl). fold w s0.
    by rewrite (on_single_cases o e (VFn (FOnce w)) cx s0 He eq_refl). }
  assert (wf s0) as Hwf0 by (by apply (r_new_once _ wf_respected)).
  assert (name_truthy (NStr e) = true) as Hnt.
  { cbn. by destruct (String.eqb_spec e ""). }
  destruct (on_throws s o e) eqn:Ht.
  - (* the registration throws: no bucket changes *)
    split; [done|].
    assert (s1 = on_fail o s0) as Hs1 by (unfold s1; by rewrite Honce).
    assert (addr s o e = None) as Haddr.
    { unfold on_throws in Ht. apply andb_true_iff in Ht as [Ht _].
      by apply bool_decide_eq_true in Ht. }
    assert (addr s1 o e = None) as Haddr1 by (by rewrite Hs1, addr_on_fail).
    assert (s2 = s1) as ->.
    { unfold s2. rewrite (off_single_cases o (NStr e) (VFn f) VUndef s1);
        [|by apply eventsApi_single|done].
      destruct (_events (get_obj s1 o)); [|done]. cbn [key_of].
      destruct (off_throws s1 o (VFn f) VUndef e); [done|]. cbn [state_of].
      pose proof (off_own_spec o (VFn f) VUndef s1 e) as Hs. cbn zeta in Hs.
      by rewrite Haddr1 in Hs. }
    intros o' e'. rewrite Hs1, bucket_on_fail.
    destruct (decide (o' = o ∧ e' = e)) as [[-> ->]|]; [|done].
    unfold bucket. change (addr s0 o e) with (addr s o e). by rewrite Haddr.
  - assert (s1 = (on_own o (NStr e) (VFn (FOnce w)) cx s0).1) as Hs1
      by (unfold s1; by rewrite Honce).
    assert (wf s1) as Hwf1 by (rewrite Hs1; by apply wf_on_own).
    assert (onces s1 !! w = Some (OnceClosure o (NStr e) (VFn f) false)) as Hw.
    { rewrite Hs1.
      destruct (on_own_spec o (NStr e) (VFn (FOnce w)) cx s0) as (_ & _ & _ & -> & _).
      unfold s0. st_simpl. apply lookup_insert_eq. }
    assert (∀ o' e', bucket s1 o' e'
                     = if decide (o' = o ∧ e' = e)
                       then bucket s o e ++ [new_listener o (VFn (FOnce w)) cx s0]
                       else bucket s o' e') as Hb1.
    { intros o2 e2. rewrite Hs1. by rewrite on_own_bucket. }
    destruct (off_bucket o (NStr e) (VFn f) VUndef s1) as (s2' & Hoff & Hb2).
    { by apply eventsApi_single. }
    { by apply (wf_nonempty s1). }
    { intros _. apply off_throws_own, bucket_nonempty_addr. cbn [key_of].
      rewrite Hb1, decide_True by done. by destruct (bucket s o e). }
    assert (s2 = s2') as -> by (unfold s2; by rewrite Hoff).
    split.
    { intros _. split; [|done]. eexists. rewrite Honce. by rewrite Hs1. }
    intros o' e'. rewrite Hb2. cbn [key_of]. rewrite Hb1.
    destruct (decide (o' = o ∧ e' = e)) as [[-> ->]|N].
    + rewrite decide_True by (split; [done|by right]).
      rewrite remaining_targeted, filter_app.
      assert (filter (λ ev, ¬ targeted s1 (VFn f) VUndef ev)
                [new_listener o (VFn (FOnce w)) cx s0] = []) as ->.
      { rewrite filter_cons_False; [done|]. intros H. apply H. split; [|done].
        right. unfold new_listener, _callback. cbn [callback]. by rewrite Hw. }
      by rewrite app_nil_r.
    + rewrite decide_False; [done|]. intros [Ho [H|Hk]]; [congruence|by apply N].
Qed.

Lemma X26_once_cancelled_by_original_witness :
  let s := state_of (on 0 (NStr "e") (VFn (FUser 1)) VUndef init) init in
  let s1 := state_of (once 0 (NStr "e") (VFn (FUser 2)) VUndef s) s in
  ∃ s2, off 0 (NStr "e") (VFn (FUser 2)) VUndef s1 = Ret () s2
        ∧ bucket s2 0 "e" = [Listener (VFn (FUser 1)) VUndef (VEm 0) "#1000"].
Proof.
  intros s s1.
  assert (wf s) as Hwf by (apply post_state_of; [apply wf_init|apply (r_on _ wf_respected)]).
  destruct (X26_once_cancelled_by_original 0 "e" (FUser 2) VUndef s Hwf eq_refl)
    as [H1 H2]; [discriminate|].
  destruct (H1 eq_refl) as [_ Hoff].
  eexists. split; [exact Hoff|]. rewrite H2. vm_compute. reflexivity.
Defined.






(** X28: whatever the caller and the callbacks do from the state at load
    time, the state is well formed: no bucket is empty, the ids of the
    records are all different, across buckets and registries, each id was
    drawn from the counter, and two channels never share a registry. *)
Theorem X28_reachable_states_well_formed body fuel (p : prog) :
  holds_after
    (λ s, wf s ∧ chan_wf s
          ∧ (∀ o e, NoDup (id <$> bucket s o e))
          ∧ (∀ o1 e1 o2 e2 ev1 ev2,
               ev1 ∈ bucket s o1 e1 → ev2 ∈ bucket s o2 e2 → id ev1 = id ev2 →
               o1 = o2 ∧ e1 = e2)
          ∧ (∀ o e ev, ev ∈ bucket s o e → ∃ n, id ev = hash_key n ∧ (n < maxHashId s)%N))
    (run body fuel p init).
Proof.
  pose proof (r_run _ wf_respected body fuel p init) as H1.
  pose proof (r_run _ chan_wf_respected body fuel p init) as H2.
  assert (∀ s, wf s → chan_wf s →
            wf s ∧ chan_wf s
            ∧ (∀ o e, NoDup (id <$> bucket s o e))
            ∧ (∀ o1 e1 o2 e2 ev1 ev2,
                 ev1 ∈ bucket s o1 e1 → ev2 ∈ bucket s o2 e2 → id ev1 = id ev2 →
                 o1 = o2 ∧ e1 = e2)
            ∧ (∀ o e ev, ev ∈ bucket s o e →
                 ∃ n, id ev = hash_key n ∧ (n < maxHashId s)%N)) as Hs.
  { intros s Hwf Hcw. split; [done|]. split; [done|]. split; [|split].
    - intros. by apply wf_bucket_NoDup.
    - intros o1 e1 o2 e2 ev1 ev2. by apply wf_id_bucket.
    - intros o e ev. by apply wf_bucket_below. }
  destruct (run body fuel p init); simpl in *; try done;
    (apply Hs; [apply H1, wf_init|apply H2, chan_wf_init]).
Qed.

(** X29: [listenTo] and [listenToOnce] without a callback, under a name
    that is not an event map, return and register nothing, yet the
    bookkeeping is done all the same: the source gets its listen id and is
    recorded in the [_listeningTo] table of the listener; no bucket
    changes and no id of the counter [maxHashId] is used. *)
Theorem X29_listenTo_without_callback (o src : nat) (name : ename) (cb : value) (s : state) :
  isMap name = false → truthy cb = false →
  let lid := default (listen_key (idCounter s)) (_listenId (get_obj s src)) in
  ∃ s',
    listenTo o src name cb s = Ret () s'
    ∧ listenToOnce o src name cb s = Ret () s'
    ∧ _listenId (get_obj s' src) = Some lid
    ∧ _listeningTo (get_obj s' o)
      = Some (<[lid := src]> (default ∅ (_listeningTo (get_obj s o))))
    ∧ (∀ o' e', bucket s' o' e' = bucket s o' e')
    ∧ maxHashId s' = maxHashId s.
Proof.
  intros Hm Hcb lid. unfold listenTo, listenToOnce.
  destruct (listen_prepare o src name cb s)
    as (s3 & Himpl & H1 & H2 & _ & H4 & _ & Harr & Haddr).
  rewrite !Himpl, Hm, andb_false_r.
  destruct (no_callback_noop src name cb (VEm o) s3 Hm Hcb) as [-> ->].
  exists s3. do 4 (split; [done|]). split; [|done].
  intros. by apply bucket_same.
Qed.

Lemma X29_listenTo_without_callback_witness :
  ∃ s', listenTo 1 0 (NStr "e") VUndef init = Ret () s'
        ∧ _listeningTo (get_obj s' 1) = Some {["l1" := 0]}
        ∧ bucket s' 0 "e" = [].
Proof.
  destruct (X29_listenTo_without_callback 1 0 (NStr "e") VUndef init eq_refl eq_refl)
    as (s' & H0 & _ & _ & H3 & H4 & _).
  exists s'. split; [exact H0|]. split; [exact H3|]. rewrite H4. reflexivity.
Defined.

(** X30: [listenToOnce(obj, name, callback)] for a single name and a
    truthy callback, in a well-formed state: the bookkeeping is that of
    [listenTo] and a fresh [once] wrapper of the callback is made; then
    [on] of the source is called with the wrapper: it throws a
    [TypeError], without a change to any bucket, when the source has no
    bucket of the name and the name is that of a member of
    [Object.prototype]; otherwise the source gets, at the end of the
    bucket of the name, one record whose callback is the wrapper, with the
    listener as context, and no other bucket changes. When the wrapper
    later fires and removes itself, the entry of the source stays in the
    [_listeningTo] table of the listener. *)
Theorem X30_listenToOnce_records_wrapper (o src : nat) (e : string) (cb : value)
    (s : state) :
  wf s → has_space e = false → truthy cb = true →
  let lid := default (listen_key (idCounter s)) (_listenId (get_obj s src)) in
  let w := fresh (dom (onces s)) in
  ∃ s',
    listenToOnce o src (NStr e) cb s
    = (if on_throws s src e then Exn TypeError s' else Ret () s')
    ∧ onces s' !! w = Some (OnceClosure src (NStr e) cb false)
    ∧ _listenId (get_obj s' src) = Some lid
    ∧ _listeningTo (get_obj s' o)
      = Some (<[lid := src]> (default ∅ (_listeningTo (get_obj s o))))
    ∧ (∀ o' e',
         bucket s' o' e'
         = if decide (o' = src ∧ e' = e ∧ on_throws s src e = false)
           then bucket s src e
                ++ [Listener (VFn (FOnce w)) (VEm o) (VEm o) (hash_key (maxHashId s))]
           else bucket s o' e')
    ∧ (∀ this args,
         off src (NStr e) (VFn (FOnce w)) VUndef (fire w this args s') ≠ Fuel
         ∧ holds_after
             (λ s'', _listeningTo (get_obj s'' o) = _listeningTo (get_obj s' o))
             (off src (NStr e) (VFn (FOnce w)) VUndef (fire w this args s'))).
Proof.
  intros Hwf He Hcb lid w. unfold listenToOnce.
  destruct (listen_prepare o src (NStr e) cb s)
    as (s3 & Himpl & H1 & H2 & Hwf3 & Hmax & Honces & Harr & Haddr).
  specialize (Hwf3 Hwf).
  rewrite !Himpl. cbn [isMap]. rewrite andb_false_r.
  rewrite (once_unfold src e cb (VEm o) s3 He Hcb). rewrite Honces. fold w.
  set (s4 := set_onces <[w := OnceClosure src (NStr e) cb false]> s3).
  rewrite (on_single_cases src e (VFn (FOnce w)) (VEm o) s4 He eq_refl).
  assert (on_throws s4 src e = on_throws s src e) as ->.
  { apply on_throws_same. intros. unfold s4. apply Haddr. }
  assert (wf s4) as Hwf4.
  { unfold s4, w. rewrite <- Honces.
    exact (r_new_once _ wf_respected src (NStr e) cb s3 Hwf3). }
  assert (∀ o' e', bucket s4 o' e' = bucket s o' e') as Hb4.
  { intros. by apply bucket_same. }
  assert (∀ s', onces s' !! w = Some (OnceClosure src (NStr e) cb false) →
            ∀ this args,
              off src (NStr e) (VFn (FOnce w)) VUndef (fire w this args s') ≠ Fuel
              ∧ holds_after
                  (λ s'', _listeningTo (get_obj s'' o) = _listeningTo (get_obj s' o))
                  (off src (NStr e) (VFn (FOnce w)) VUndef (fire w this args s'))) as Hlater.
  { intros s' Hw this args. split; [apply off_total|].
    pose proof (off_frame_off src (NStr e) (VFn (FOnce w)) VUndef (fire w this args s'))
      as HF.
    assert (_listeningTo (get_obj (fire w this args s') o) = _listeningTo (get_obj s' o))
      as Hfire by (unfold fire; by rewrite Hw).
    destruct (off _ _ _ _ _) as [[] s''|ex s''|]; cbn [post holds_after] in *; [| |done];
      destruct HF as (_ & _ & _ & _ & _ & Hobj); destruct (Hobj o) as [-> _]; done. }
  destruct (on_throws s src e) eqn:Ht; cbn [ignore bind].
  - eexists. split; [done|].
    destruct (on_fail_objects src s4 src) as [_ Hid].
    destruct (on_fail_objects src s4 o) as [Hlt _].
    assert (onces (on_fail src s4) !! w = Some (OnceClosure src (NStr e) cb false)) as Hw.
    { unfold on_fail, s4. st_simpl. apply lookup_insert_eq. }
    split; [done|]. split; [by rewrite Hid|]. split; [by rewrite Hlt|]. split.
    + intros o' e'. rewrite decide_False by (intros (_ & _ & ?); done).
      by rewrite bucket_on_fail.
    + by apply Hlater.
  - destruct (on_own_spec src (NStr e) (VFn (FOnce w)) (VEm o) s4)
      as (_ & _ & _ & Ho4 & _).
    destruct (on_own_objects src (NStr e) (VFn (FOnce w)) (VEm o) s4 src) as [_ Hid].
    destruct (on_own_objects src (NStr e) (VFn (FOnce w)) (VEm o) s4 o) as [Hlt _].
    set (s5 := (on_own src (NStr e) (VFn (FOnce w)) (VEm o) s4).1) in *.
    assert (onces s5 !! w = Some (OnceClosure src (NStr e) cb false)) as Hw.
    { rewrite Ho4. unfold s4. st_simpl. apply lookup_insert_eq. }
    exists s5. split; [done|].
    split; [done|]. split; [by rewrite Hid|]. split; [by rewrite Hlt|]. split.
    + intros o' e'. unfold s5. rewrite on_own_bucket by done. cbn [key_of].
      rewrite !Hb4. unfold new_listener. cbn [truthy].
      replace (maxHashId s4) with (maxHashId s) by done.
      destruct (decide (o' = src ∧ e' = e)) as [[-> ->]|N].
      * by rewrite decide_True.
      * rewrite decide_False; [done|]. intros (? & ? & _). by apply N.
    + by apply Hlater.
Qed.

Lemma X30_listenToOnce_records_wrapper_witness :
  ∃ s', listenToOnce 1 0 (NStr "e") (VFn (FUser 1)) init = Ret () s'
        ∧ onces s' !! 0 = Some (OnceClosure 0 (NStr "e") (VFn (FUser 1)) false)
        ∧ bucket s' 0 "e" = [Listener (VFn (FOnce 0)) (VEm 1) (VEm 1) "#1000"].
Proof.
  destruct (X30_listenToOnce_records_wrapper 1 0 "e" (VFn (FUser 1)) init wf_init
              eq_refl eq_refl) as (s' & H0 & H1 & _ & _ & H4 & _).
  exists s'. split; [exact H0|]. split; [exact H1|]. rewrite H4. reflexivity.
Defined.
